(** * clsarg: class-based argument parser (clsarg/clsarg.py)

    A shallow embedding of the declaration compiler
    ([_GenerateArgumentGetter.__call__], [argument]) and of the parser
    assembly and dispatch ([ArgumentParser.__new__], [__init__],
    [arguments], [parse_args]), together with the part of the standard
    library's [argparse] (CPython 3.11) that those functions drive:
    [add_argument] for optional flags and [parse_args].

    Python objects are modelled by the types below; a keyword dictionary is
    a [gmap string pyobj], a [Namespace] a [gmap string value]. *)

From Stdlib Require Import ZArith Lia Ascii String.
From stdpp Require Import base option list gmap strings sorting.

Local Open Scope string_scope.
Local Open Scope Z_scope.
Local Open Scope list_scope.

(** ** Python values *)

#[local] Unset Elimination Schemes.
Inductive value : Type :=
| VNone
| VBool (b : bool)
| VInt (n : Z)
| VFloat (bits : Z)          (* an IEEE double by its 64 bits; never computed with *)
| VStr (s : string)
| VList (l : list value).

(** Classes that can appear in an annotation, and annotations as
    [typing.get_origin] / [typing.get_args] see them. *)
Inductive pyclass : Type :=
| c_int | c_float | c_str | c_bool | c_NoneType | c_object.

Inductive hint : Type :=
| HClass (c : pyclass)        (* a plain class: origin None, no args *)
| HList (targs : list hint)   (* List[...] or list[...]: origin list *)
| HUnion (targs : list hint)  (* Union[...], Optional[T] = Union[T, None] *)
| HUnionType (targs : list hint). (* X | Y (PEP 604): a types.UnionType *)

#[local] Set Elimination Schemes.

(** The values a keyword dictionary or an attribute can hold. *)
Inductive pyobj : Type :=
| OVal (v : value)
| OType (t : hint).

Inductive exn : Type :=
| ValueError (msg : string)
| TypeError (msg : string)
| IndexError
| AttributeError
| NameError
| AssertionError
| RecursionError
| ArgumentError
| SystemExit.

Inductive result (A : Type) : Type :=
| Ok (a : A)
| Raise (e : exn).
Arguments Ok {A} a.
Arguments Raise {A} e.

Definition rbind {A B} (k : A -> result B) (r : result A) : result B :=
  match r with
  | Ok a => k a
  | Raise e => Raise e
  end.

#[global] Instance result_bind : MBind result := @rbind.
#[global] Instance result_ret : MRet result := @Ok.

Abbreviation kwds := (gmap string pyobj).
Abbreviation Namespace := (gmap string value).

(** Python truthiness of a value. *)
Definition truthy (v : value) : bool :=
  match v with
  | VNone => false
  | VBool b => b
  | VInt n => negb (n =? 0)
  | VFloat bits => negb (Z.land bits (Z.ones 63) =? 0)
  | VStr s => negb (String.eqb s "")
  | VList l => match l with [] => false | _ => true end
  end.

Definition obj_truthy (o : pyobj) : bool :=
  match o with
  | OVal v => truthy v
  | OType _ => true
  end.

(** ** String helpers (str methods used by the source) *)

Definition dash : ascii := "-"%char.
Definition underscore : ascii := "_"%char.

(** [s.replace(a, b)] for one-character [a] and [b]. *)
Fixpoint replace_char (a b : ascii) (s : string) : string :=
  match s with
  | EmptyString => EmptyString
  | String c rest =>
      String (if Ascii.eqb c a then b else c) (replace_char a b rest)
  end.

(** Whitespace of [str.split()] among the code points below 256. *)
Definition is_space (c : ascii) : bool :=
  let n := N_of_ascii c in
  ((9 <=? n) && (n <=? 13) || (28 <=? n) && (n <=? 32)
   || (n =? 133) || (n =? 160))%N.

(** [s.split()]: maximal runs of non-whitespace characters. *)
Fixpoint split_ws_aux (cur : string) (s : string) : list string :=
  match s with
  | EmptyString => if String.eqb cur "" then [] else [cur]
  | String c rest =>
      if is_space c
      then ((if String.eqb cur "" then [] else [cur]) ++ split_ws_aux "" rest)%list
      else split_ws_aux (cur +:+ String c "") rest
  end.

Definition split_ws (s : string) : list string := split_ws_aux "" s.

(** [s.split(sep)] for a one-character separator. *)
Fixpoint split_on_aux (sep : ascii) (cur : string) (s : string) : list string :=
  match s with
  | EmptyString => [cur]
  | String c rest =>
      if Ascii.eqb c sep
      then cur :: split_on_aux sep "" rest
      else split_on_aux sep (cur +:+ String c "") rest
  end.

Definition split_on (sep : ascii) (s : string) : list string :=
  split_on_aux sep "" s.

(** ** The decorated function

    [g_hint] is [get_type_hints(getter).get("value")]; [g_default] is the
    default of the parameter [value] in the signature ([None] for
    [Parameter.empty]); [g_body] is the function itself, applied to [self]
    (seen through its current namespace) and the positional arguments after
    [self]. *)
Record getter : Type := {
  g_name : string;
  g_doc : option string;
  g_hint : option hint;
  g_default : option value;
  g_body : Namespace -> list value -> result value
}.

(** [typing.get_origin], [typing.get_args]. The origin of [X | Y] is
    [types.UnionType], which is not [typing.Union]. *)
Inductive origin : Type := origin_list | origin_Union | origin_UnionType.

Definition get_origin (t : option hint) : option origin :=
  match t with
  | Some (HList _) => Some origin_list
  | Some (HUnion _) => Some origin_Union
  | Some (HUnionType _) => Some origin_UnionType
  | _ => None
  end.

Definition get_args (t : option hint) : list hint :=
  match t with
  | Some (HList targs) => targs
  | Some (HUnion targs) => targs
  | Some (HUnionType targs) => targs
  | _ => []
  end.

(** [isinstance(None, c)] for a class. *)
Definition admits_None (c : pyclass) : bool :=
  match c with
  | c_NoneType | c_object => true
  | _ => false
  end.

Definition msg_subscripted : string :=
  "Subscripted generics cannot be used with class and instance checks".

(** [isinstance(None, X | Y | ...)]: the members are tried in turn; a
    parameterized generic among them is a TypeError when it is reached. *)
Fixpoint union_admits_None (targs : list hint) : result bool :=
  match targs with
  | [] => Ok false
  | HClass c :: rest =>
      if admits_None c then Ok true else union_admits_None rest
  | _ :: _ =>
      Raise (TypeError "isinstance() argument 2 cannot be a parameterized generic")
  end.

(** [isinstance(None, t)]: true for NoneType and object, false for the
    other classes, a TypeError for a subscripted generic. *)
Definition isinstance_None (t : hint) : result bool :=
  match t with
  | HClass c => Ok (admits_None c)
  | HUnionType targs => union_admits_None targs
  | _ => Raise (TypeError msg_subscripted)
  end.

(** [callable(t)]: classes and the aliases of [typing] are callable, a
    [types.UnionType] is not. *)
Definition callable (t : hint) : bool :=
  match t with
  | HUnionType _ => false
  | _ => true
  end.

Definition is_bool_hint (t : option hint) : bool :=
  match t with
  | Some (HClass c_bool) => true
  | _ => false
  end.

(** ** [_GenerateArgumentGetter.__call__] *)

(** The dictionary stored under ["__argument_info"]. *)
Record argument_info : Type := {
  info_getter_name : string;
  info_name : option string;
  info_number : nat;
  info_args : list string;
  info_kwds : kwds
}.

(** The function returned by the decorator: [const_wrapper] or [_wrapper]
    closed over [getter], carrying its [__argument_info]. *)
Record wrapper : Type := {
  w_const : bool;
  w_getter : getter;
  w_info : argument_info
}.

Definition kw_get_truthy (k : string) (kw : kwds) : bool :=
  match kw !! k with
  | Some o => obj_truthy o
  | None => false
  end.

Definition msg_value_parameter : string :=
  "An argument function should have value parameter.".
Definition msg_list_one_type : string :=
  "You should set the return type of argument function to list that contains only one type.".
Definition msg_union : string := "Union type is not allowed.".

Definition kw_true : pyobj := OVal (VBool true).
Definition kw_false : pyobj := OVal (VBool false).
Definition kw_str (s : string) : pyobj := OVal (VStr s).

(** Everything [__call__] computes before it stores the info: whether the
    wrapper is [const_wrapper], and the final [__kwds]. *)
Definition compile (g : getter) (kw0 : kwds) : result (bool * kwds) :=
  let kw := <["required" := kw_true]> kw0 in
  let kw := match g_doc g with
            | Some d => <["help" := kw_str d]> kw
            | None => kw
            end in
  let argument_type := g_hint g in
  '(is_const, kw) ←
     (if kw_get_truthy "const" kw
      then Ok (true, <["action" := kw_str "store_const"]>
                       (<["required" := kw_false]> kw))
      else match argument_type with
           | None => Raise (ValueError msg_value_parameter)
           | Some _ => Ok (false, kw)
           end);
  let origin_type := get_origin argument_type in
  let type_args := get_args argument_type in
  '(argument_type, kw) ←
     (if is_bool_hint argument_type
      then Ok (None, <["action" := kw_str "store_true"]>
                       (<["required" := kw_false]> kw))
      else match origin_type with
           | Some origin_list =>
               if (1 <? length type_args)%nat
               then Raise (TypeError msg_list_one_type)
               else
                 let kw := <["nargs" := default (kw_str "*") (kw !! "nargs")]> kw in
                 match type_args with
                 | t :: _ => Ok (Some t, kw)
                 | [] => Raise IndexError
                 end
           | Some origin_Union =>
               bad ← (if negb (length type_args =? 2)%nat
                          then Ok true
                          else b ← match type_args !! 1%nat with
                                       | Some t => isinstance_None t
                                       | None => Raise IndexError
                                       end;
                               Ok (negb b));
               if (bad : bool)
               then Raise (TypeError msg_union)
               else match type_args with
                    | t :: _ => Ok (Some t, <["required" := kw_false]> kw)
                    | [] => Raise IndexError
                    end
           | Some origin_UnionType | None => Ok (argument_type, kw)
           end);
  let kw := match argument_type with
            | Some t =>
                let kw := match g_default g with
                          | Some d => <["default" := OVal d]>
                                        (<["required" := kw_false]> kw)
                          | None => kw
                          end in
                <["type" := OType t]> kw
            | None => kw
            end in
  Ok (is_const, kw).

(** [__call__] with the decorator's counter [__num_arguments] threaded
    through: the counter advances only when no exception is raised. *)
Definition generate (num : nat) (g : getter) (args : list string)
    (name : option string) (kw0 : kwds) : result wrapper * nat :=
  match compile g kw0 with
  | Ok (is_const, kw) =>
      (Ok {| w_const := is_const;
             w_getter := g;
             w_info := {| info_getter_name := g_name g;
                          info_name := name;
                          info_number := num;
                          info_args := args;
                          info_kwds := kw |} |},
       S num)
  | Raise e => (Raise e, num)
  end.

(** ** [argument] *)

Inductive aliases_arg : Type :=
| AliasStr (s : string)
| AliasList (l : list string).

(** [nargs] as the decorator accepts it: an int, ["*"] or ["+"]. *)
Inductive nargs_arg : Type :=
| NargsInt (n : Z)
| NargsStar
| NargsPlus.

Definition nargs_obj (n : nargs_arg) : pyobj :=
  match n with
  | NargsInt k => OVal (VInt k)
  | NargsStar => kw_str "*"
  | NargsPlus => kw_str "+"
  end.

Record options : Type := {
  opt_name : option string;
  opt_aliases : option aliases_arg;
  opt_metavar : option string;
  opt_choices : option (list value);
  opt_const : bool;
  opt_nargs : option nargs_arg
}.


Definition alias_flag (alias : string) : string :=
  if (String.length alias =? 1)%nat
  then "-" +:+ alias
  else "--" +:+ replace_char underscore dash alias.

Definition alias_flags (a : option aliases_arg) : list string :=
  match a with
  | None => []
  | Some (AliasStr s) => [alias_flag s]
  | Some (AliasList l) => alias_flag <$> l
  end.

Definition argument_kwds (o : options) : kwds :=
  let kw : kwds := ∅ in
  let kw := match opt_nargs o with
            | Some n => <["nargs" := nargs_obj n]> kw
            | None => kw
            end in
  let kw := if opt_const o then <["const" := kw_true]> kw else kw in
  let kw := match opt_choices o with
            | Some c => <["choices" := OVal (VList c)]> kw
            | None => kw
            end in
  match opt_metavar o with
  | Some m => <["metavar" := kw_str m]> kw
  | None => kw
  end.

(** [argument(name=..., aliases=..., ...)(getter)], with the counter. *)
Definition argument (o : options) (num : nat) (g : getter)
    : result wrapper * nat :=
  generate num g (alias_flags (opt_aliases o)) (opt_name o) (argument_kwds o).

(** [argument(getter)]: the bare decorator. *)
Definition argument_bare (num : nat) (g : getter) : result wrapper * nat :=
  generate num g [] None ∅.


(** ** argparse: actions and [add_argument]

    The parser built by [ArgumentParser.__init__] only ever receives
    optional flags, so positionals, groups and sub-parsers are left out.
    Help texts, metavars and the texts of the parser do not influence what
    is parsed; they are stored because the usage and help messages are
    formatted from them, see [formatter] below. *)

Inductive action_kind : Type :=
| StoreAction | StoreConstAction | StoreTrueAction | HelpAction.

(** [nargs] of an action; [NargsCount 0] is the [nargs=0] of the
    constant-storing and help actions. *)
Inductive nargs_t : Type :=
| NargsNone
| NargsCount (n : Z)
| NargsZeroOrMore
| NargsOneOrMore.

(** [a_default = None] stands for [argparse.SUPPRESS]. *)
Record action : Type := {
  a_option_strings : list string;
  a_dest : string;
  a_kind : action_kind;
  a_nargs : nargs_t;
  a_const : value;
  a_default : option value;
  a_type : option hint;
  a_choices : option (list value);
  a_required : bool;
  a_help : option string;
  a_metavar : option string
}.

(** The keyword arguments [ArgumentParser.__init__] hands on to
    [argparse.ArgumentParser] when they are not [None]. *)
Record parser_options : Type := {
  po_prog : option string;
  po_usage : option string;
  po_description : option string;
  po_epilog : option string
}.

Definition no_parser_options : parser_options :=
  {| po_prog := None; po_usage := None; po_description := None;
     po_epilog := None |}.

(** [_actions] in registration order and [_option_string_actions], which
    maps an option string to the index of its action in [_actions];
    [p_options] holds [prog], [usage], [description] and [epilog] ([prog]
    is taken from [sys.argv[0]] when it is not given). *)
Record parser : Type := {
  p_options : parser_options;
  p_actions : list action;
  p_option_string_actions : gmap string nat
}.

(** What formatting a message of a parser raises, if anything.
    [print_usage] and [print_help] build their text with the [%] operator
    from [usage], [prog], the help texts and the metavars, and wrap it to
    the width of the terminal: a stray [%] is a ValueError or a TypeError,
    a metavar with blanks can fail an assertion of the formatter. *)
Record formatter : Type := {
  format_usage : parser -> option exn;
  format_help : parser -> option exn
}.

(** [parser.error(message)]: [print_usage], then [exit(2, ...)]. *)
Definition usage_error (fmt : formatter) (p : parser) : exn :=
  default SystemExit (format_usage fmt p).

(** The help action: [print_help], then [exit()]. *)
Definition help_exit (fmt : formatter) (p : parser) : exn :=
  default SystemExit (format_help fmt p).

Definition starts_with (p s : string) : bool := String.prefix p s.

Fixpoint str_contains (c : ascii) (s : string) : bool :=
  match s with
  | EmptyString => false
  | String d rest => Ascii.eqb c d || str_contains c rest
  end.

(** [s.lstrip(c)]. *)
Fixpoint lstrip_char (c : ascii) (s : string) : string :=
  match s with
  | String d rest => if Ascii.eqb c d then lstrip_char c rest else s
  | EmptyString => EmptyString
  end.

(** [s.split(c, 1)] when [c] occurs in [s]: the parts around its first
    occurrence. *)
Fixpoint split_first (c : ascii) (s : string) : option (string * string) :=
  match s with
  | EmptyString => None
  | String d rest =>
      if Ascii.eqb c d then Some (EmptyString, rest)
      else match split_first c rest with
           | Some (a, b) => Some (String d a, b)
           | None => None
           end
  end.

Definition is_digit (c : ascii) : bool :=
  let n := N_of_ascii c in ((48 <=? n) && (n <=? 57))%N.

Fixpoint all_digits (s : string) : bool :=
  match s with
  | EmptyString => true
  | String c rest => is_digit c && all_digits rest
  end.

Fixpoint drop_final_newline (s : string) : string :=
  match s with
  | EmptyString => EmptyString
  | String c EmptyString =>
      if Ascii.eqb c "010"%char then EmptyString else s
  | String c rest => String c (drop_final_newline rest)
  end.

Definition nonempty (s : string) : bool := negb (String.eqb s "").

(** [_negative_number_matcher]: the regular expression
    [^-\d+$|^-\d*\.\d+$], whose [$] also matches before a final newline. *)
Definition negative_number (s : string) : bool :=
  match s with
  | String c body =>
      Ascii.eqb c dash &&
      (let body := drop_final_newline body in
       (nonempty body && all_digits body)
       || match split_first "."%char body with
          | Some (a, b) => all_digits a && nonempty b && all_digits b
          | None => false
          end)
  | EmptyString => false
  end.

Definition long_option (s : string) : bool :=
  match s with
  | String _ (String c _) => Ascii.eqb c dash
  | _ => false
  end.

Definition head_is_dash (s : string) : bool :=
  match s with
  | String c _ => Ascii.eqb c dash
  | EmptyString => false
  end.

Definition help_action : action :=
  {| a_option_strings := ["-h"; "--help"]; a_dest := "help";
     a_kind := HelpAction; a_nargs := NargsCount 0; a_const := VNone;
     a_default := None; a_type := None; a_choices := None;
     a_required := false;
     a_help := Some "show this help message and exit"; a_metavar := None |}.

(** [argparse.ArgumentParser], called with the options that are given: a
    parser that knows [-h/--help]. *)
Definition new_parser (o : parser_options) : parser :=
  {| p_options := o;
     p_actions := [help_action];
     p_option_string_actions := <["--help" := 0%nat]> (<["-h" := 0%nat]> ∅) |}.

(** Destination inferred from the option strings by
    [_get_optional_kwargs]: the first long option string, else the first
    option string, without its leading dashes and with [-] turned to [_]. *)
Definition infer_dest (option_strings : list string) : result string :=
  let longs := filter (fun s => long_option s = true) option_strings in
  match (match longs with s :: _ => Some s | [] => head option_strings end) with
  | None => Raise IndexError
  | Some s =>
      let d := lstrip_char dash s in
      if String.eqb d "" then Raise (ValueError "dest= is required")
      else Ok (replace_char dash underscore d)
  end.

Definition kw_value (k : string) (kw : kwds) : option value :=
  match kw !! k with
  | Some (OVal v) => Some v
  | _ => None
  end.

Definition kw_bool (k : string) (kw : kwds) : bool :=
  match kw !! k with
  | Some o => obj_truthy o
  | None => false
  end.

(** The [nargs] values [argument] can pass on. Other sentinels of
    argparse (["?"], REMAINDER, ...) cannot reach [add_argument] from
    [argument] and are treated as invalid. *)
Definition read_nargs (kw : kwds) : result nargs_t :=
  match kw !! "nargs" with
  | None | Some (OVal VNone) => Ok NargsNone
  | Some (OVal (VInt n)) => Ok (NargsCount n)
  | Some (OVal (VStr s)) =>
      if String.eqb s "*" then Ok NargsZeroOrMore
      else if String.eqb s "+" then Ok NargsOneOrMore
      else Raise (ValueError "invalid nargs value")
  | Some _ => Raise (ValueError "invalid nargs value")
  end.

Definition read_type (kw : kwds) : result (option hint) :=
  match kw !! "type" with
  | None | Some (OVal VNone) => Ok None
  | Some (OType t) => Ok (Some t)
  | Some (OVal _) => Raise (ValueError "type is not callable")
  end.

Definition read_choices (kw : kwds) : result (option (list value)) :=
  match kw !! "choices" with
  | None | Some (OVal VNone) => Ok None
  | Some (OVal (VList l)) => Ok (Some l)
  | Some _ => Raise (TypeError "choices is not a container")
  end.

(** [help] and [metavar] as the decorator passes them: a string or
    nothing. *)
Definition read_text (k : string) (kw : kwds) : option string :=
  match kw !! k with
  | Some (OVal (VStr s)) => Some s
  | _ => None
  end.

Definition unexpected_keyword : exn :=
  TypeError "__init__() got an unexpected keyword argument".

(** Keyword arguments the three action classes accept besides
    [option_strings] and [dest]. *)
Definition accepted_keywords (k : action_kind) : list string :=
  match k with
  | StoreAction =>
      ["nargs"; "const"; "default"; "type"; "choices"; "required"; "help";
       "metavar"]
  | StoreConstAction => ["const"; "default"; "required"; "help"; "metavar"]
  | StoreTrueAction => ["default"; "required"; "help"]
  | HelpAction => ["default"; "help"]
  end.

Definition read_action_kind (kw : kwds) : result action_kind :=
  match kw !! "action" with
  | None | Some (OVal VNone) => Ok StoreAction
  | Some (OVal (VStr s)) =>
      if String.eqb s "store" then Ok StoreAction
      else if String.eqb s "store_const" then Ok StoreConstAction
      else if String.eqb s "store_true" then Ok StoreTrueAction
      else Raise (ValueError "unknown action")
  | Some _ => Raise (ValueError "unknown action")
  end.

Definition keywords_accepted (k : action_kind) (kw : kwds) : bool :=
  forallb (fun key => bool_decide (key ∈ accepted_keywords k))
          (map fst (map_to_list kw)).

(** The call of the action class on the keyword arguments. *)
Definition make_action (option_strings : list string) (dest : string)
    (k : action_kind) (kw : kwds) : result action :=
  if negb (keywords_accepted k kw) then Raise unexpected_keyword
  else
    match k with
    | StoreAction =>
        nargs ← read_nargs kw;
        ty ← read_type kw;
        choices ← read_choices kw;
        match nargs with
        | NargsCount 0 =>
            Raise (ValueError "nargs for store actions must be != 0")
        | _ =>
            match kw_value "const" kw with
            | Some VNone | None =>
                Ok {| a_option_strings := option_strings; a_dest := dest;
                      a_kind := StoreAction; a_nargs := nargs;
                      a_const := VNone;
                      a_default := Some (default VNone (kw_value "default" kw));
                      a_type := ty; a_choices := choices;
                      a_required := kw_bool "required" kw;
                      a_help := read_text "help" kw;
                      a_metavar := read_text "metavar" kw |}
            | Some _ => Raise (ValueError "nargs must be '?' to supply const")
            end
        end
    | StoreConstAction =>
        Ok {| a_option_strings := option_strings; a_dest := dest;
              a_kind := StoreConstAction; a_nargs := NargsCount 0;
              a_const := default VNone (kw_value "const" kw);
              a_default := Some (default VNone (kw_value "default" kw));
              a_type := None; a_choices := None;
              a_required := kw_bool "required" kw;
              a_help := read_text "help" kw;
              a_metavar := read_text "metavar" kw |}
    | StoreTrueAction =>
        Ok {| a_option_strings := option_strings; a_dest := dest;
              a_kind := StoreTrueAction; a_nargs := NargsCount 0;
              a_const := VBool true;
              a_default :=
                Some (default (VBool false) (kw_value "default" kw));
              a_type := None; a_choices := None;
              a_required := kw_bool "required" kw;
              a_help := read_text "help" kw;
              a_metavar := None |}
    | HelpAction => Ok help_action
    end.

Definition type_callable (t : option hint) : bool :=
  match t with
  | Some t => callable t
  | None => true
  end.

(** [parser.add_argument] for option strings [args] and keywords [kw]:
    the action is made, its type must be callable, and its option strings
    must be new to the parser. *)
Definition add_argument (p : parser) (args : list string) (kw : kwds)
    : result parser :=
  if negb (forallb head_is_dash args)
  then Raise (ValueError "invalid option string")
  else
    dest ← match kw_value "dest" kw with
           | Some (VStr d) => Ok d
           | _ => infer_dest args
           end;
    k ← read_action_kind kw;
    a ← make_action args dest k (delete "action" (delete "dest" kw));
    if negb (type_callable (a_type a))
    then Raise (ValueError "type is not callable")
    else if existsb (fun s => bool_decide
                                (is_Some (p_option_string_actions p !! s)))
                    args
    then Raise ArgumentError
    else
      let idx := length (p_actions p) in
      Ok {| p_options := p_options p;
            p_actions := (p_actions p ++ [a])%list;
            p_option_string_actions :=
              foldl (fun m s => <[s := idx]> m)
                    (p_option_string_actions p) args |}.

(** ** argparse: [parse_args]

    Inside [_parse_known_args] an error is either an ArgumentError, which
    [parse_known_args] catches and hands to [parser.error], or a direct
    call of [parser.error]. Both end in the same way, so the functions
    below raise ArgumentError at every such place and [parse_args] turns
    it into what [parser.error] raises. *)

(** How [_parse_known_args] classifies an argument string: a plain
    argument, the separator [--], or an option (with its action when one is
    known, the option string and the explicit argument after [=] or glued
    to a short flag). *)
Inductive tok_class : Type :=
| TokA
| TokDashDash
| TokO (a : option nat) (option_string : string) (explicit_arg : option string).

(** One entry of [action_tuples]: the action taken and its argument
    strings. *)
Record event : Type := { ev_action : nat; ev_args : list string }.

Definition error {A} : result A := Raise ArgumentError.

Definition has_negative_number_optionals (p : parser) : bool :=
  existsb (fun a => existsb negative_number (a_option_strings a)) (p_actions p).

(** [_get_option_tuples]: abbreviations of long options, short options
    with a glued argument. *)
Definition get_option_tuples (p : parser) (s : string)
    : list (nat * string * option string) :=
  let entries := map_to_list (p_option_string_actions p) in
  if long_option s then
    let '(option_prefix, explicit_arg) :=
      match split_first "="%char s with
      | Some (a, b) => (a, Some b)
      | None => (s, None)
      end in
    omap (fun '(k, i) =>
            if starts_with option_prefix k then Some (i, k, explicit_arg)
            else None) entries
  else
    let short_option_prefix := String.substring 0 2 s in
    let short_explicit_arg :=
      String.substring 2 (String.length s - 2) s in
    omap (fun '(k, i) =>
            if String.eqb k short_option_prefix
            then Some (i, k, Some short_explicit_arg)
            else if starts_with s k then Some (i, k, None)
            else None) entries.

Definition parse_optional (p : parser) (s : string) : result tok_class :=
  if String.eqb s "" then Ok TokA
  else if negb (head_is_dash s) then Ok TokA
  else
    match p_option_string_actions p !! s with
    | Some i => Ok (TokO (Some i) s None)
    | None =>
        if (String.length s =? 1)%nat then Ok TokA
        else
          let by_equals :=
            match split_first "="%char s with
            | Some (option_string, explicit_arg) =>
                match p_option_string_actions p !! option_string with
                | Some i => Some (TokO (Some i) option_string (Some explicit_arg))
                | None => None
                end
            | None => None
            end in
          match by_equals with
          | Some c => Ok c
          | None =>
              match get_option_tuples p s with
              | _ :: _ :: _ => error
              | [(i, k, e)] => Ok (TokO (Some i) k e)
              | [] =>
                  if negative_number s && negb (has_negative_number_optionals p)
                  then Ok TokA
                  else if str_contains " "%char s then Ok TokA
                  else Ok (TokO None s None)
              end
          end
    end.

Fixpoint classify (p : parser) (toks : list string) : result (list tok_class) :=
  match toks with
  | [] => Ok []
  | t :: rest =>
      if String.eqb t "--" then Ok (TokDashDash :: map (fun _ => TokA) rest)
      else
        c ← parse_optional p t;
        cs ← classify p rest;
        Ok (c :: cs)
  end.

(** Length of the run of plain arguments at the head of a pattern. *)
Fixpoint count_A (pat : list tok_class) : nat :=
  match pat with
  | TokA :: rest => S (count_A rest)
  | _ => 0
  end.

(** [_match_argument]: how many argument strings the action takes from a
    pattern, by the regular expression of its [nargs]. *)
Definition match_argument (a : action) (pat : list tok_class) : result nat :=
  let avail := count_A pat in
  match a_nargs a with
  | NargsNone => if (1 <=? avail)%nat then Ok 1%nat else error
  | NargsCount n =>
      if (Z.to_nat n <=? avail)%nat then Ok (Z.to_nat n) else error
  | NargsZeroOrMore => Ok avail
  | NargsOneOrMore => if (1 <=? avail)%nat then Ok avail else error
  end.

Definition get_action (p : parser) (i : nat) : result action :=
  match p_actions p !! i with
  | Some a => Ok a
  | None => Raise IndexError
  end.

(** [consume_optional] without an explicit argument: the action takes its
    arguments from the strings that follow. *)
Definition consume_plain (p : parser) (rest : list string)
    (pat : list tok_class) (i : nat) : result (list event * nat) :=
  a ← get_action p i;
  n ← match_argument a pat;
  Ok ([{| ev_action := i; ev_args := take n rest |}], n).

(** [consume_optional] with an explicit argument [e]: either the action
    takes [e], or it takes nothing and [e] is a cluster of further short
    flags. *)
Fixpoint consume_explicit (p : parser) (rest : list string)
    (pat : list tok_class) (i : nat) (option_string : string) (e : string)
    {struct e} : result (list event * nat) :=
  a ← get_action p i;
  arg_count ← match_argument a [TokA];
  if (arg_count =? 0)%nat && negb (long_option option_string) && nonempty e
  then
    match e with
    | String c e' =>
        let option_string' := String dash (String c EmptyString) in
        match p_option_string_actions p !! option_string' with
        | Some j =>
            '(evs, n) ← match e' with
                        | EmptyString => consume_plain p rest pat j
                        | _ => consume_explicit p rest pat j option_string' e'
                        end;
            Ok ({| ev_action := i; ev_args := [] |} :: evs, n)
        | None => error
        end
    | EmptyString => error
    end
  else if (arg_count =? 1)%nat
  then Ok ([{| ev_action := i; ev_args := [e] |}], 0%nat)
  else error.

(** The occurrences the main loop of [_parse_known_args] finds in a
    parser without positionals, apart from what the actions do with them:
    the action tuples, in order, and the extras. [skip] counts the strings
    the last option still owns. The loop itself is [run] below, which
    takes the actions as it goes. *)
Fixpoint scan (p : parser) (toks : list string) (pat : list tok_class)
    (skip : nat) : result (list event * list string) :=
  match toks, pat with
  | t :: rest, c :: prest =>
      match skip with
      | S k => scan p rest prest k
      | O =>
          match c with
          | TokO (Some i) option_string explicit_arg =>
              '(evs1, n) ← match explicit_arg with
                           | None => consume_plain p rest prest i
                           | Some e =>
                               consume_explicit p rest prest i option_string e
                           end;
              '(evs, extras) ← scan p rest prest n;
              Ok ((evs1 ++ evs)%list, extras)
          | _ =>
              '(evs, extras) ← scan p rest prest 0%nat;
              Ok (evs, t :: extras)
          end
      end
  | _, _ => Ok ([], [])
  end.

Definition occurrences (p : parser) (toks : list string)
    : result (list event * list string) :=
  pat ← classify p toks;
  scan p toks pat 0%nat.

Fixpoint remove_first (x : string) (l : list string) : list string :=
  match l with
  | [] => []
  | y :: rest => if String.eqb x y then rest else y :: remove_first x rest
  end.

(** The defaults put into a fresh namespace by [parse_known_args]. *)
Definition initial_namespace (p : parser) : Namespace :=
  foldl (fun (ns : Namespace) a =>
           match a_default a, ns !! a_dest a with
           | Some d, None => <[a_dest a := d]> ns
           | _, _ => ns
           end) ∅ (p_actions p).

Fixpoint first_some {A B} (f : A -> option B) (l : list A) : option B :=
  match l with
  | [] => None
  | x :: rest => match f x with
                 | Some b => Some b
                 | None => first_some f rest
                 end
  end.

(** The order of [sorted] on names, and on declarations by number. *)
Definition str_le (a b : string) : Prop := String.leb a b = true.

#[global] Instance str_le_dec a b : Decision (str_le a b).
Proof. unfold str_le. apply _. Defined.

Section Engine.

(** The two facts about the Python runtime the parser relies on: what
    calling a type on an argument string gives ([None] for a
    [ValueError] or [TypeError]), and [==] between a converted value and
    a choice. *)
Context (call_type : hint -> string -> option value).
Context (value_eq : value -> value -> bool).

(** And the outcome of formatting the usage and help messages. *)
Context (fmt : formatter).

Definition get_value (a : action) (s : string) : result value :=
  match a_type a with
  | None => Ok (VStr s)
  | Some t => match call_type t s with
              | Some v => Ok v
              | None => error
              end
  end.

Definition check_value (a : action) (v : value) : result unit :=
  match a_choices a with
  | Some choices => if existsb (value_eq v) choices then Ok () else error
  | None => Ok ()
  end.

Definition get_checked (a : action) (s : string) : result value :=
  v ← get_value a s;
  _ ← check_value a v;
  Ok v.

Fixpoint get_all (a : action) (args : list string) : result (list value) :=
  match args with
  | [] => Ok []
  | s :: rest =>
      v ← get_checked a s;
      vs ← get_all a rest;
      Ok (v :: vs)
  end.

(** [_get_values]. *)
Definition get_values (a : action) (arg_strings : list string)
    : result value :=
  let arg_strings := remove_first "--" arg_strings in
  match a_nargs a, arg_strings with
  | NargsNone, [s] => get_checked a s
  | _, _ => vs ← get_all a arg_strings; Ok (VList vs)
  end.

(** [take_action]: convert the argument strings and call the action.
    The help action prints the help message and exits. *)
Definition take_action (p : parser) (ns : Namespace) (ev : event)
    : result Namespace :=
  a ← get_action p (ev_action ev);
  values ← get_values a (ev_args ev);
  match a_kind a with
  | StoreAction => Ok (<[a_dest a := values]> ns)
  | StoreConstAction | StoreTrueAction => Ok (<[a_dest a := a_const a]> ns)
  | HelpAction => Raise (help_exit fmt p)
  end.

Fixpoint take_actions (p : parser) (ns : Namespace) (evs : list event)
    : result Namespace :=
  match evs with
  | [] => Ok ns
  | ev :: rest =>
      ns' ← take_action p ns ev;
      take_actions p ns' rest
  end.

(** The main loop of [_parse_known_args]: each option takes its
    argument strings and its actions are taken at once, before the strings
    after it are looked at. The result is the namespace, the action tuples
    and the extras. *)
Fixpoint run (p : parser) (toks : list string) (pat : list tok_class)
    (skip : nat) (ns : Namespace)
    : result (Namespace * list event * list string) :=
  match toks, pat with
  | t :: rest, c :: prest =>
      match skip with
      | S k => run p rest prest k ns
      | O =>
          match c with
          | TokO (Some i) option_string explicit_arg =>
              '(evs1, n) ← match explicit_arg with
                           | None => consume_plain p rest prest i
                           | Some e =>
                               consume_explicit p rest prest i option_string e
                           end;
              ns1 ← take_actions p ns evs1;
              '(ns2, evs, extras) ← run p rest prest n ns1;
              Ok (ns2, (evs1 ++ evs)%list, extras)
          | _ =>
              '(ns2, evs, extras) ← run p rest prest 0%nat ns;
              Ok (ns2, evs, t :: extras)
          end
      end
  | _, _ => Ok (ns, [], [])
  end.

Definition is_str (s : string) (o : option value) : bool :=
  match o with
  | Some (VStr s') => String.eqb s s'
  | _ => false
  end.

Definition seen (evs : list event) (i : nat) : bool :=
  existsb (fun ev => (ev_action ev =? i)%nat) evs.

(** The closing pass over [_actions]: a required action that was not
    seen is an error; an unseen action whose default is a string still
    in the namespace has it converted. The source tests that the namespace
    holds that very object; the model compares the strings, which is the
    same as long as no other action has written the destination. *)
Fixpoint finish (evs : list event) (i : nat) (actions : list action)
    (ns : Namespace) : result Namespace :=
  match actions with
  | [] => Ok ns
  | a :: rest =>
      if seen evs i then finish evs (S i) rest ns
      else if a_required a then error
      else
        match a_default a with
        | Some (VStr s) =>
            if is_str s (ns !! a_dest a)
            then
              v ← get_value a s;
              finish evs (S i) rest (<[a_dest a := v]> ns)
            else finish evs (S i) rest ns
        | _ => finish evs (S i) rest ns
        end
  end.

(** [_parse_known_args]: the namespace and the extras. *)
Definition parse_known_args (p : parser) (toks : list string)
    : result (Namespace * list string) :=
  pat ← classify p toks;
  '(ns, evs, extras) ← run p toks pat 0%nat (initial_namespace p);
  ns ← finish evs 0 (p_actions p) ns;
  Ok (ns, extras).

(** [parser.parse_args(args)]: an ArgumentError and left-over strings
    are reported by [parser.error]. *)
Definition parse_args (p : parser) (toks : list string) : result Namespace :=
  match parse_known_args p toks with
  | Ok (ns, []) => Ok ns
  | Ok (_, _ :: _) => Raise (usage_error fmt p)
  | Raise ArgumentError => Raise (usage_error fmt p)
  | Raise e => Raise e
  end.

(** ** Classes, instances and the interpreter state

    A class body is a sequence of accessor definitions
    [@property @argument(...) def name(self, value: T = d): ...]; each
    binds the attribute [name] to a property whose getter is the wrapper
    made by the decorator. [cls_mro] is the class's [__mro__] (without
    [object]), [cls_object] its own [__object__] entry when it has one.
    Single inheritance only. A class body can declare a property named
    [arguments]; it then hides the property of [ArgumentParser] that the
    wrappers read, see [self_arguments]. The other attributes of
    [ArgumentParser] ([parse_args], [__object__], [__new__], [__init__]
    and the two private attributes) are not rebound by a class body. *)

Record accessor_def : Type := {
  acc_options : option options;   (* [None]: the bare [@argument] *)
  acc_getter : getter
}.

Record class_def : Type := {
  cls_mro : list nat;
  cls_dict : gmap string wrapper;
  cls_object : option (option nat)
}.

(** An instance: its class and the attributes [__arguments] and
    [__parser], absent until assigned. *)
Record instance : Type := {
  i_class : nat;
  i_arguments : option Namespace;
  i_parser : option parser
}.

(** [num_arguments] is the counter of the module's one
    [_GenerateArgumentGetter]; [calls] logs every call of a decorated
    function: its name and the arguments after [self]. *)
Record world : Type := {
  num_arguments : nat;
  classes : list class_def;
  heap : list instance;
  calls : list (string * list value)
}.

(** Class 0 is [ArgumentParser], whose body sets [__object__ = None]. *)
Definition ArgumentParser : nat := 0%nat.

Definition initial_world : world :=
  {| num_arguments := 0%nat;
     classes := [{| cls_mro := [ArgumentParser]; cls_dict := ∅;
                    cls_object := Some None |}];
     heap := [];
     calls := [] |}.

Definition decorate (num : nat) (d : accessor_def) : result wrapper * nat :=
  match acc_options d with
  | Some o => argument o num (acc_getter d)
  | None => argument_bare num (acc_getter d)
  end.

(** Execution of a class body: the decorators run in definition order; a
    later definition of a name replaces the earlier binding. *)
Fixpoint class_body (num : nat) (body : list accessor_def)
    (dict : gmap string wrapper) : result (gmap string wrapper) * nat :=
  match body with
  | [] => (Ok dict, num)
  | d :: rest =>
      match decorate num d with
      | (Ok w, num') =>
          class_body num' rest (<[g_name (acc_getter d) := w]> dict)
      | (Raise e, num') => (Raise e, num')
      end
  end.

Definition set_num (σ : world) (num : nat) : world :=
  {| num_arguments := num; classes := classes σ; heap := heap σ;
     calls := calls σ |}.

(** [class C(parent): body]. The class exists only if its body ran to
    the end. *)
Definition define_class (σ : world) (parent : nat)
    (body : list accessor_def) : world * result nat :=
  match classes σ !! parent with
  | None => (σ, Raise NameError)
  | Some pd =>
      match class_body (num_arguments σ) body ∅ with
      | (Ok dict, num) =>
          let id := length (classes σ) in
          ({| num_arguments := num;
              classes := (classes σ ++
                          [{| cls_mro := id :: cls_mro pd;
                              cls_dict := dict;
                              cls_object := None |}])%list;
              heap := heap σ;
              calls := calls σ |}, Ok id)
      | (Raise e, num) => (set_num σ num, Raise e)
      end
  end.

Definition mro (σ : world) (cls : nat) : list nat :=
  match classes σ !! cls with
  | Some cd => cls_mro cd
  | None => []
  end.

(** [getattr(cls, name)] for the decorated properties. *)
Definition class_getattr (σ : world) (cls : nat) (name : string)
    : option wrapper :=
  first_some (fun c => cd ← classes σ !! c; cls_dict cd !! name)
             (mro σ cls).

(** [dir(cls)]: the names bound along the MRO, sorted. Only the names
    of decorated properties matter to [__init__]. *)
Definition dir_names (σ : world) (cls : nat) : list string :=
  merge_sort str_le
    (elements (⋃ (map (fun c => match classes σ !! c with
                                | Some cd => dom (cls_dict cd)
                                | None => (∅ : gset string)
                                end) (mro σ cls)))).

(** One entry of the list [arguments] of [__init__]: the number, the
    flag name and the positional and keyword arguments for
    [add_argument]. *)
Record registration : Type := {
  reg_number : nat;
  reg_argument_name : string;
  reg_args : list string;
  reg_kwds : kwds
}.

Definition registration_of (w : wrapper) : registration :=
  let info := w_info w in
  let getter_name := info_getter_name info in
  let '(argument_name, kw) :=
    match info_name info with
    | Some name => (name, <["dest" := kw_str getter_name]> (info_kwds info))
    | None => (getter_name, info_kwds info)
    end in
  {| reg_number := info_number info;
     reg_argument_name := replace_char underscore dash argument_name;
     reg_args := info_args info;
     reg_kwds := kw |}.

Definition collect (σ : world) (cls : nat) : list wrapper :=
  omap (class_getattr σ cls) (dir_names σ cls).

Definition number_le (a b : registration) : Prop :=
  (reg_number a <= reg_number b)%nat.

#[global] Instance number_le_dec a b : Decision (number_le a b).
Proof. unfold number_le. apply _. Defined.

(** [sorted(arguments, key=lambda x: x[0])]. *)
Definition sorted_registrations (σ : world) (cls : nat) : list registration :=
  merge_sort number_le (registration_of <$> collect σ cls).

Fixpoint register_all (p : parser) (regs : list registration)
    : result parser :=
  match regs with
  | [] => Ok p
  | r :: rest =>
      p' ← add_argument p (("--" +:+ reg_argument_name r) :: reg_args r)
                          (reg_kwds r);
      register_all p' rest
  end.

Definition set_heap (σ : world) (h : list instance) : world :=
  {| num_arguments := num_arguments σ; classes := classes σ; heap := h;
     calls := calls σ |}.

Definition set_classes (σ : world) (cs : list class_def) : world :=
  {| num_arguments := num_arguments σ; classes := cs; heap := heap σ;
     calls := calls σ |}.

Definition log_call (σ : world) (name : string) (args : list value) : world :=
  {| num_arguments := num_arguments σ; classes := classes σ;
     heap := heap σ; calls := (calls σ ++ [(name, args)])%list |}.

(** [ArgumentParser.__init__(self, prog, usage, description, epilog,
    lazy_parsing=lazy)]; [o] holds the four texts and [argv] is
    [sys.argv[1:]]. *)
Definition init (σ : world) (self : nat) (o : parser_options) (lazy : bool)
    (argv : list string) : world * result unit :=
  match heap σ !! self with
  | None => (σ, Raise AttributeError)
  | Some inst =>
      match register_all (new_parser o)
                         (sorted_registrations σ (i_class inst)) with
      | Raise e => (σ, Raise e)
      | Ok p =>
          if lazy
          then (set_heap σ (<[self := {| i_class := i_class inst;
                                        i_arguments := i_arguments inst;
                                        i_parser := Some p |}]> (heap σ)),
                Ok ())
          else
            match parse_args p argv with
            | Raise e => (σ, Raise e)
            | Ok ns =>
                (set_heap σ (<[self := {| i_class := i_class inst;
                                          i_arguments := Some ns;
                                          i_parser := Some p |}]> (heap σ)),
                 Ok ())
            end
      end
  end.

(** [cls.__object__], looked up along the MRO. *)
Definition lookup_object (σ : world) (cls : nat) : option (option nat) :=
  first_some (fun c => cd ← classes σ !! c; cls_object cd) (mro σ cls).

(** [ArgumentParser.__new__(cls)]. *)
Definition new (σ : world) (cls : nat) : world * result nat :=
  match classes σ !! cls, lookup_object σ cls with
  | Some cd, Some None =>
      let id := length (heap σ) in
      ({| num_arguments := num_arguments σ;
          classes := <[cls := {| cls_mro := cls_mro cd;
                                 cls_dict := cls_dict cd;
                                 cls_object := Some (Some id) |}]> (classes σ);
          heap := (heap σ ++ [{| i_class := cls; i_arguments := None;
                                 i_parser := None |}])%list;
          calls := calls σ |}, Ok id)
  | Some _, Some (Some id) => (σ, Ok id)
  | _, _ => (σ, Raise AttributeError)
  end.

Definition isinstance (σ : world) (obj : nat) (cls : nat) : bool :=
  match heap σ !! obj with
  | Some inst => bool_decide (cls ∈ mro σ (i_class inst))
  | None => false
  end.

(** The call [cls(prog=..., ..., lazy_parsing=lazy)]: [__new__], then
    [__init__] when the object is an instance of [cls]. *)
Definition construct (σ : world) (cls : nat) (o : parser_options)
    (lazy : bool) (argv : list string) : world * result nat :=
  match new σ cls with
  | (σ1, Ok obj) =>
      if isinstance σ1 obj cls
      then match init σ1 obj o lazy argv with
           | (σ2, Ok _) => (σ2, Ok obj)
           | (σ2, Raise e) => (σ2, Raise e)
           end
      else (σ1, Ok obj)
  | (σ1, Raise e) => (σ1, Raise e)
  end.

(** The property [arguments] of [ArgumentParser]. *)
Definition get_arguments (σ : world) (self : nat) : result Namespace :=
  match heap σ !! self with
  | Some inst => match i_arguments inst with
                 | Some ns => Ok ns
                 | None => Raise AttributeError
                 end
  | None => Raise AttributeError
  end.

(** [ArgumentParser.parse_args(self, parameter)]. *)
Definition method_parse_args (σ : world) (self : nat) (parameter : string)
    : world * result unit :=
  match heap σ !! self with
  | None => (σ, Raise AttributeError)
  | Some inst =>
      match i_parser inst with
      | None => (σ, Raise AttributeError)
      | Some p =>
          match parse_args p (split_ws parameter) with
          | Raise e => (σ, Raise e)
          | Ok ns =>
              (set_heap σ (<[self := {| i_class := i_class inst;
                                        i_arguments := Some ns;
                                        i_parser := i_parser inst |}]> (heap σ)),
               Ok ())
          end
      end
  end.

(** [getattr(namespace, name)]. *)
Definition ns_getattr (ns : Namespace) (name : string) : result value :=
  match ns !! name with
  | Some v => Ok v
  | None => Raise AttributeError
  end.

(** The expression [self.arguments] of the wrappers, an attribute lookup
    on the class of [self]. When a class on the MRO declares a property
    named [arguments], the lookup finds that property, whose wrapper
    evaluates [self.arguments] again, and so on until Python raises
    RecursionError; no decorated function is ever called. *)
Definition self_arguments (σ : world) (self : nat) : result Namespace :=
  match heap σ !! self with
  | None => Raise AttributeError
  | Some inst =>
      match class_getattr σ (i_class inst) "arguments" with
      | Some _ => Raise RecursionError
      | None => get_arguments σ self
      end
  end.

(** The wrapper put in place of the decorated function: [const_wrapper]
    or [_wrapper]. *)
Definition call_wrapper (w : wrapper) (σ : world) (self : nat)
    : world * result value :=
  let g := w_getter w in
  match self_arguments σ self with
  | Raise e => (σ, Raise e)
  | Ok ns =>
      match ns_getattr ns (g_name g) with
      | Raise e => (σ, Raise e)
      | Ok value =>
          if w_const w
          then match value with
               | VNone => (σ, Ok VNone)
               | _ => (log_call σ (g_name g) [], g_body g ns [])
               end
          else (log_call σ (g_name g) [value], g_body g ns [value])
      end
  end.

(** Reading the property [name] of an instance. *)
Definition get_property (σ : world) (self : nat) (name : string)
    : world * result value :=
  match heap σ !! self with
  | None => (σ, Raise AttributeError)
  | Some inst =>
      match class_getattr σ (i_class inst) name with
      | Some w => call_wrapper w σ self
      | None => (σ, Raise AttributeError)
      end
  end.

End Engine.

(** ** The built-in types as converters

    [int(s)] for a decimal literal: surrounding whitespace, a sign, digits
    with single underscores between them, at most 4300 digits. [str(s)] is
    [s], [bool(s)] is true for a non-empty string, [NoneType], [object],
    the aliases of [typing] and the unions reject an argument. [float(s)]
    is left as a parameter. *)

(** The whitespace [int] skips around a literal: that of [str.split()]
    without the four separators U+001C to U+001F. *)
Definition is_int_space (c : ascii) : bool :=
  let n := N_of_ascii c in
  ((9 <=? n) && (n <=? 13) || (n =? 32) || (n =? 133) || (n =? 160))%N.

Fixpoint lstrip_ws (s : string) : string :=
  match s with
  | String c rest => if is_int_space c then lstrip_ws rest else s
  | EmptyString => EmptyString
  end.

Fixpoint rstrip_ws (s : string) : string :=
  match s with
  | EmptyString => EmptyString
  | String c rest =>
      match rstrip_ws rest with
      | EmptyString =>
          if is_int_space c then EmptyString else String c EmptyString
      | r => String c r
      end
  end.

Definition digit_value (c : ascii) : Z := Z.of_N (N_of_ascii c) - 48.

(** Digits with single inner underscores, read left to right; [prev] tells
    whether the previous character was a digit. *)
Fixpoint int_digits (acc : Z) (count : nat) (prev : bool) (s : string)
    : option (Z * nat) :=
  match s with
  | EmptyString => if prev then Some (acc, count) else None
  | String c rest =>
      if is_digit c
      then int_digits (10 * acc + digit_value c) (S count) true rest
      else if Ascii.eqb c underscore && prev
      then int_digits acc count false rest
      else None
  end.

Definition py_int (s : string) : option Z :=
  let s := rstrip_ws (lstrip_ws s) in
  let '(neg, body) :=
    match s with
    | String "-"%char rest => (true, rest)
    | String "+"%char rest => (false, rest)
    | _ => (false, s)
    end in
  match int_digits 0 0 false body with
  | Some (n, count) =>
      if (count <=? 4300)%nat then Some (if neg then - n else n) else None
  | None => None
  end.

Definition builtin_call (float_of : string -> option value) (t : hint)
    (s : string) : option value :=
  match t with
  | HClass c_str => Some (VStr s)
  | HClass c_int => VInt <$> py_int s
  | HClass c_bool => Some (VBool (nonempty s))
  | HClass c_float => float_of s
  | _ => None
  end.

(** ** The classes of tests/test_argparser.py *)

Definition returns_None : Namespace -> list value -> result value :=
  fun _ _ => Ok VNone.

Definition foo : accessor_def :=
  {| acc_options := None;
     acc_getter := {| g_name := "foo"; g_doc := None;
                      g_hint := Some (HClass c_str); g_default := None;
                      g_body := returns_None |} |}.

Definition property_name : accessor_def :=
  {| acc_options := Some {| opt_name := Some "name"; opt_aliases := None;
                            opt_metavar := None; opt_choices := None;
                            opt_const := false; opt_nargs := None |};
     acc_getter := {| g_name := "property_name"; g_doc := None;
                      g_hint := Some (HClass c_str);
                      g_default := Some (VStr "");
                      g_body := returns_None |} |}.

Definition bar_body : Namespace -> list value -> result value :=
  fun _ args =>
    match args with
    | [VInt n] => Ok (VInt (n + 1))
    | _ => Raise (TypeError "unsupported operand type(s) for +")
    end.

Definition bar : accessor_def :=
  {| acc_options := Some {| opt_name := None;
                            opt_aliases := Some (AliasStr "b");
                            opt_metavar := None; opt_choices := None;
                            opt_const := false; opt_nargs := None |};
     acc_getter := {| g_name := "bar"; g_doc := None;
                      g_hint := Some (HClass c_int);
                      g_default := Some (VInt 0);
                      g_body := bar_body |} |}.

Definition baz_body : Namespace -> list value -> result value :=
  fun _ args =>
    match args with
    | [VNone] => Ok (VList [])
    | [VStr s] => Ok (VList (VStr <$> split_on "/"%char s))
    | _ => Raise AttributeError
    end.

Definition baz : accessor_def :=
  {| acc_options := Some {| opt_name := None;
                            opt_aliases := Some (AliasList ["z"; "az"]);
                            opt_metavar := None; opt_choices := None;
                            opt_const := false; opt_nargs := None |};
     acc_getter := {| g_name := "baz"; g_doc := None;
                      g_hint := Some (HUnion [HClass c_str; HClass c_NoneType]);
                      g_default := None;
                      g_body := baz_body |} |}.

Definition const_body : Namespace -> list value -> result value :=
  fun _ args =>
    match args with
    | [] => Ok (VInt 40)
    | _ => Raise (TypeError "const() takes 1 positional argument")
    end.

Definition const : accessor_def :=
  {| acc_options := Some {| opt_name := None; opt_aliases := None;
                            opt_metavar := None; opt_choices := None;
                            opt_const := true; opt_nargs := None |};
     acc_getter := {| g_name := "const"; g_doc := None; g_hint := None;
                      g_default := None; g_body := const_body |} |}.

Definition nargs : accessor_def :=
  {| acc_options := Some {| opt_name := None; opt_aliases := None;
                            opt_metavar := Some "N"; opt_choices := None;
                            opt_const := false;
                            opt_nargs := Some (NargsInt 3) |};
     acc_getter := {| g_name := "nargs"; g_doc := None;
                      g_hint := Some (HList [HClass c_int]);
                      g_default := None; g_body := returns_None |} |}.

Definition boolean : accessor_def :=
  {| acc_options := None;
     acc_getter := {| g_name := "boolean"; g_doc := None;
                      g_hint := Some (HClass c_bool); g_default := None;
                      g_body := returns_None |} |}.

(** [optional] reads [self.baz], that is, the wrapper of [baz] on the
    same namespace. *)
Definition optional_body : Namespace -> list value -> result value :=
  fun ns args =>
    match args with
    | [value] =>
        match ns !! "baz" with
        | Some raw =>
            b ← baz_body ns [raw];
            if negb (truthy b) then Ok (VInt (-1)) else Ok value
        | None => Raise AttributeError
        end
    | _ => Raise (TypeError "optional() missing 1 required positional argument")
    end.

Definition optional : accessor_def :=
  {| acc_options := None;
     acc_getter := {| g_name := "optional"; g_doc := None;
                      g_hint := Some (HClass c_int);
                      g_default := Some (VInt 3);
                      g_body := optional_body |} |}.

(** [class Argument(ArgumentParser)], in the order of its body. *)
Definition Argument_body : list accessor_def :=
  [foo; property_name; bar; baz; const; nargs; boolean; optional].

(** The five declarations of the documented scenario. *)
Definition scenario_body : list accessor_def := [foo; bar; baz; const; nargs].

(** The module of the tests after its two class statements:
    [Argument] is class 1, [AdditionalArgument(Argument)] class 2. *)
Definition test_module : world :=
  fst (define_class
         (fst (define_class initial_world ArgumentParser Argument_body)) 1 []).

Definition Argument : nat := 1%nat.
Definition AdditionalArgument : nat := 2%nat.

(** ** Accessors the decorator rejects *)

Definition is_const (d : accessor_def) : bool :=
  match acc_options d with
  | Some o => opt_const o
  | None => false
  end.

Definition decorator_kwds (d : accessor_def) : kwds :=
  match acc_options d with
  | Some o => argument_kwds o
  | None => ∅
  end.

(** The three kinds of declaration [__call__] refuses, with the exception
    it raises: no typed [value] parameter outside const mode; a list with
    several type arguments; a [typing.Union] that has not two arguments,
    or whose second argument is a class [None] is no instance of. *)
Inductive rejected : accessor_def -> exn -> Prop :=
| rejected_no_value d :
    is_const d = false ->
    g_hint (acc_getter d) = None ->
    rejected d (ValueError msg_value_parameter)
| rejected_list d targs :
    g_hint (acc_getter d) = Some (HList targs) ->
    (1 < length targs)%nat ->
    rejected d (TypeError msg_list_one_type)
| rejected_union_arity d targs :
    g_hint (acc_getter d) = Some (HUnion targs) ->
    length targs ≠ 2%nat ->
    rejected d (TypeError msg_union)
| rejected_union_second d t c :
    g_hint (acc_getter d) = Some (HUnion [t; HClass c]) ->
    c ≠ c_NoneType -> c ≠ c_object ->
    rejected d (TypeError msg_union).

Definition accepted (d : accessor_def) : Prop :=
  ∃ r, compile (acc_getter d) (decorator_kwds d) = Ok r.

(** [def either(self, value: Union[int, object])], decorated bare. *)
Definition either : accessor_def :=
  {| acc_options := None;
     acc_getter := {| g_name := "either"; g_doc := None;
                      g_hint := Some (HUnion [HClass c_int; HClass c_object]);
                      g_default := None; g_body := returns_None |} |}.

(** [def either(self, value: int | str)], decorated bare: the same kind
    of union in the notation of PEP 604, and its spelling with
    [typing.Union]. *)
Definition int_or_str : accessor_def :=
  {| acc_options := None;
     acc_getter := {| g_name := "either"; g_doc := None;
                      g_hint := Some (HUnionType [HClass c_int; HClass c_str]);
                      g_default := None; g_body := returns_None |} |}.

Definition Union_int_str : accessor_def :=
  {| acc_options := None;
     acc_getter := {| g_name := "either"; g_doc := None;
                      g_hint := Some (HUnion [HClass c_int; HClass c_str]);
                      g_default := None; g_body := returns_None |} |}.

(** [def maybe(self, value: int | None)], decorated bare. *)
Definition int_or_None : accessor_def :=
  {| acc_options := None;
     acc_getter := {| g_name := "maybe"; g_doc := None;
                      g_hint := Some (HUnionType [HClass c_int;
                                                  HClass c_NoneType]);
                      g_default := None; g_body := returns_None |} |}.

(** [def pair(self, value: list[int, str])], decorated bare. *)
Definition pair : accessor_def :=
  {| acc_options := None;
     acc_getter := {| g_name := "pair"; g_doc := None;
                      g_hint := Some (HList [HClass c_int; HClass c_str]);
                      g_default := None; g_body := returns_None |} |}.


(** ** A runtime for the examples

    [==] between values: numbers (bools, ints and floats) are compared by
    their numerical value, strings and lists structurally. [float(s)] is
    not needed by the examples and is replaced by a converter that rejects
    every string. *)

(** What a number stands for: [m * 2^e] with an integer [m], an
    infinity, or a NaN. *)
Inductive number_value : Type :=
| Finite (m e : Z)
| Infinity (negative : bool)
| NaN.

Definition float_value (bits : Z) : number_value :=
  let sign := Z.testbit bits 63 in
  let ex := Z.land (Z.shiftr bits 52) 2047 in
  let frac := Z.land bits (Z.ones 52) in
  if ex =? 2047 then (if frac =? 0 then Infinity sign else NaN)
  else
    let m := if ex =? 0 then frac else frac + 2 ^ 52 in
    let e := (if ex =? 0 then 1 else ex) - 1075 in
    Finite (if sign then - m else m) e.

Definition num_value (v : value) : number_value :=
  match v with
  | VBool b => Finite (if b then 1 else 0) 0
  | VInt n => Finite n 0
  | VFloat bits => float_value bits
  | _ => NaN
  end.

(** [==] between numbers; a NaN equals nothing. *)
Definition num_eq (v w : value) : bool :=
  match num_value v, num_value w with
  | Finite m1 e1, Finite m2 e2 =>
      let e := Z.min e1 e2 in
      m1 * 2 ^ (e1 - e) =? m2 * 2 ^ (e2 - e)
  | Infinity a, Infinity b => Bool.eqb a b
  | _, _ => false
  end.

Fixpoint py_eq (v w : value) : bool :=
  match v, w with
  | VNone, VNone => true
  | (VBool _ | VInt _ | VFloat _), (VBool _ | VInt _ | VFloat _) => num_eq v w
  | VStr a, VStr b => String.eqb a b
  | VList l, VList m =>
      (fix go (l m : list value) : bool :=
         match l, m with
         | [], [] => true
         | x :: l', y :: m' => py_eq x y && go l' m'
         | _, _ => false
         end) l m
  | _, _ => false
  end.

Definition demo_call : hint -> string -> option value :=
  builtin_call (fun _ => None).

(** The parsers of the examples have no usage text, no [%] in a help
    text and no blank in a metavar: their messages are printed. *)
Definition prints : formatter :=
  {| format_usage := fun _ => None; format_help := fun _ => None |}.

(** [setUp] of the tests: [AdditionalArgument(lazy_parsing=True)]. *)
Definition test_instance : world :=
  fst (construct demo_call py_eq prints test_module AdditionalArgument
         no_parser_options true []).

(** The state after [self.args.parse_args(parameter)]. *)
Definition test_parsed (parameter : string) : world :=
  fst (method_parse_args demo_call py_eq prints test_instance 0 parameter).

Definition basic_args : string :=
  "--foo foo --nargs 1 2 3 --bar 3 --baz foo/bar".

Definition required_only : string := "--foo foo --nargs 1 2 3".

(** A class with the given body, one lazily constructed instance of it
    (object 0), and [parse_args(parameter)] on that instance. *)
Definition run_scenario (call_type : hint -> string -> option value)
    (value_eq : value -> value -> bool) (body : list accessor_def)
    (parameter : string) : world * result unit :=
  let '(σ1, _) := define_class initial_world ArgumentParser body in
  let '(σ2, _) :=
    construct call_type value_eq prints σ1 1 no_parser_options true [] in
  method_parse_args call_type value_eq prints σ2 0 parameter.

Definition read_after (call_type : hint -> string -> option value)
    (value_eq : value -> value -> bool) (body : list accessor_def)
    (parameter name : string) : result value :=
  snd (get_property (fst (run_scenario call_type value_eq body parameter)) 0 name).



(** ** Runs of the program

    The states a program can reach from the freshly imported module by
    class statements, constructor calls, [parse_args] calls and property
    reads. *)

Section Runs.

Context (call_type : hint -> string -> option value).
Context (value_eq : value -> value -> bool).
Context (fmt : formatter).

Inductive step : world -> world -> Prop :=
| step_define σ parent body :
    step σ (fst (define_class σ parent body))
| step_construct σ cls o lazy argv :
    step σ (fst (construct call_type value_eq fmt σ cls o lazy argv))
| step_parse_args σ self parameter :
    step σ (fst (method_parse_args call_type value_eq fmt σ self parameter))
| step_get_property σ self name :
    step σ (fst (get_property σ self name)).

Definition reachable (σ : world) : Prop := rtc step initial_world σ.

End Runs.

Definition number (w : wrapper) : nat := info_number (w_info w).

(** What holds of the classes of every reachable state: a class heads its
    own MRO and its ancestors were defined before it; a property is bound
    under the name of its function and was made by the decorator; its
    number is below the counter; numbers differ within a class and grow
    from a class to every class defined later. *)
Record classes_ok (σ : world) : Prop := {
  ok_mro : ∀ c cd, classes σ !! c = Some cd ->
             ∃ tail, cls_mro cd = c :: tail ∧ Forall (fun c' => (c' < c)%nat) tail;
  ok_name : ∀ c cd name w, classes σ !! c = Some cd ->
              cls_dict cd !! name = Some w ->
              g_name (w_getter w) = name ∧ info_getter_name (w_info w) = name ∧
              (number w < num_arguments σ)%nat;
  ok_decorated : ∀ c cd name w, classes σ !! c = Some cd ->
                   cls_dict cd !! name = Some w ->
                   ∃ d, decorate (number w) d = (Ok w, S (number w));
  ok_own : ∀ c cd n1 n2 w1 w2, classes σ !! c = Some cd ->
             cls_dict cd !! n1 = Some w1 -> cls_dict cd !! n2 = Some w2 ->
             n1 ≠ n2 -> number w1 ≠ number w2;
  ok_later : ∀ c1 c2 cd1 cd2 n1 n2 w1 w2,
               classes σ !! c1 = Some cd1 -> classes σ !! c2 = Some cd2 ->
               cls_dict cd1 !! n1 = Some w1 -> cls_dict cd2 !! n2 = Some w2 ->
               (c1 < c2)%nat -> (number w1 < number w2)%nat
}.

(** The option strings [__init__] passes to [add_argument]. *)
Definition reg_flags (r : registration) : list string :=
  ("--" +:+ reg_argument_name r) :: reg_args r.

Definition class_shape (cd : class_def) : list nat * gmap string wrapper :=
  (cls_mro cd, cls_dict cd).

(** Steps other than class statements leave MROs and class dictionaries
    alone. *)
Definition same_classes (σ σ' : world) : Prop :=
  (∀ c, class_shape <$> classes σ' !! c = class_shape <$> classes σ !! c) ∧
  num_arguments σ' = num_arguments σ.

(** An instance belongs to a class of the state, and its parser, once
    assigned, is the one [__init__] builds for that class. *)
Definition instances_ok (σ : world) : Prop :=
  ∀ self inst, heap σ !! self = Some inst ->
    is_Some (classes σ !! i_class inst) ∧
    ∀ p, i_parser inst = Some p ->
         register_all (new_parser (p_options p))
                      (sorted_registrations σ (i_class inst)) = Ok p.

Definition number_lt (a b : registration) : Prop :=
  (reg_number a < reg_number b)%nat.

(** The destination [add_argument] gives the action of a registration. *)
Definition registration_dest (args : list string) (kw : kwds) : result string :=
  match kw_value "dest" kw with
  | Some (VStr d) => Ok d
  | _ => infer_dest args
  end.

(** ** What the namespace holds for one action *)

(** The last entry of [action_tuples] for the action [i], if any. *)
Fixpoint last_event (i : nat) (evs : list event) : option event :=
  match evs with
  | [] => None
  | ev :: rest =>
      match last_event i rest with
      | Some e => Some e
      | None => if (ev_action ev =? i)%nat then Some ev else None
      end
  end.

(** What an action puts in the namespace for converted values [v]. *)
Definition stored (a : action) (v : value) : value :=
  match a_kind a with
  | StoreAction => v
  | _ => a_const a
  end.

(** An action that never writes the destination [d]: it has another
    destination, or it is the help action. *)
Definition quiet (d : string) (b : action) : Prop :=
  a_dest b ≠ d ∨ (a_kind b = HelpAction ∧ a_default b = None).

(** The action [i] of the parser is [a] and no other action writes its
    destination. *)
Definition owns_dest (p : parser) (i : nat) (a : action) : Prop :=
  p_actions p !! i = Some a ∧
  ∀ j b, p_actions p !! j = Some b -> j ≠ i -> quiet (a_dest a) b.

(** Option strings are indexed by existing actions. *)
Definition parser_ok (p : parser) : Prop :=
  ∀ s i, p_option_string_actions p !! s = Some i -> is_Some (p_actions p !! i).

(** Every option string of an action starts with a dash and is indexed
    to that action. *)
Definition strings_ok (p : parser) : Prop :=
  ∀ i a s, p_actions p !! i = Some a -> s ∈ a_option_strings a ->
           head_is_dash s = true ∧ p_option_string_actions p !! s = Some i.

Definition tok_valid (p : parser) (c : tok_class) : Prop :=
  match c with
  | TokO (Some i) _ _ => is_Some (p_actions p !! i)
  | _ => True
  end.

Definition event_valid (p : parser) (ev : event) : Prop :=
  is_Some (p_actions p !! ev_action ev).

(** ** Declarations and their actions *)

(** The action [add_argument] makes for a registration. *)
Definition made_from (r : registration) (a : action) : Prop :=
  ∃ dest k,
    registration_dest (reg_flags r) (reg_kwds r) = Ok dest ∧
    read_action_kind (reg_kwds r) = Ok k ∧
    make_action (reg_flags r) dest k
      (delete "action" (delete "dest" (reg_kwds r))) = Ok a.

(** The destination the engine gives a declaration is the name its wrapper
    reads: always so with an explicit [name], and without one whenever the
    function's name survives the trip through the flag (it does unless it
    starts with an underscore). *)
Definition dest_ok (w : wrapper) : bool :=
  match registration_dest (reg_flags (registration_of w))
                          (reg_kwds (registration_of w)) with
  | Ok d => String.eqb d (g_name (w_getter w))
  | Raise _ => false
  end.

Definition dests_ok (σ : world) (cls : nat) : bool :=
  forallb dest_ok (collect σ cls).

(** A function name that comes back from the flag unchanged: it does not
    start with an underscore and holds no dash (no Python identifier
    does). *)
Definition plain_name (s : string) : bool :=
  match s with
  | String c _ => negb (Ascii.eqb c underscore) && negb (Ascii.eqb c dash)
  | EmptyString => false
  end && negb (str_contains dash s).

(** How the engine ends a parse it refuses: by what [parser.error]
    raises or, when the help flag comes first, by what the help action
    raises. Both are SystemExit when the message can be printed. *)
Definition refusal (fmt : formatter) (p : parser) (e : exn) : Prop :=
  e = usage_error fmt p ∨ e = help_exit fmt p.

(** The class of the instance declares no property named [arguments], so
    the wrappers read the namespace of the instance. *)
Definition reads_namespace (σ : world) (cls : nat) : Prop :=
  class_getattr σ cls "arguments" = None.


(** A const-mode accessor without a typed [value] parameter. *)
Definition const_accessor (d : accessor_def) : Prop :=
  is_const d = true ∧ g_hint (acc_getter d) = None.


(** An action of arity zero takes no argument string. *)
Definition takes_nothing (p : parser) (ev : event) : Prop :=
  ∀ a, p_actions p !! ev_action ev = Some a ->
       a_nargs a = NargsCount 0 -> ev_args ev = [].

(** ** Two small classes

    [class Numbers(ArgumentParser)] with
    [def numbers(self, value: List[int]): return value], and
    [class Quiet(ArgumentParser)] with the const-mode
    [def _quiet(self): return 40]; each with one lazily constructed
    instance (object 0). *)

Definition returns_value : Namespace -> list value -> result value :=
  fun _ args =>
    match args with
    | [value] => Ok value
    | _ => Raise (TypeError "numbers() missing 1 required positional argument")
    end.

Definition numbers : accessor_def :=
  {| acc_options := None;
     acc_getter := {| g_name := "numbers"; g_doc := None;
                      g_hint := Some (HList [HClass c_int]); g_default := None;
                      g_body := returns_value |} |}.

Definition _quiet : accessor_def :=
  {| acc_options := acc_options const;
     acc_getter := {| g_name := "_quiet"; g_doc := None; g_hint := None;
                      g_default := None; g_body := const_body |} |}.

Definition numbers_module : world :=
  fst (define_class initial_world ArgumentParser [numbers]).


Definition quiet_instance : world :=
  fst (construct demo_call py_eq prints
         (fst (define_class initial_world ArgumentParser [_quiet])) 1
         no_parser_options true []).

(** [class More(Numbers)], defined after [Numbers], with one declaration
    of its own, [def foo(self, value: str)]. *)
Definition Numbers : nat := 1%nat.
Definition More : nat := 2%nat.

Definition more_module : world :=
  fst (define_class numbers_module Numbers [foo]).

(** The option strings of the actions of the parser of an object. *)
Definition registered_flags (σ : world) (obj : nat)
    : option (list (list string)) :=
  inst ← heap σ !! obj;
  p ← i_parser inst;
  Some (a_option_strings <$> p_actions p).

(** [class Hidden(ArgumentParser)] with the declarations
    [def arguments(self, value: str = "")] and [def foo(self, value: str)],
    and one lazily constructed instance (object 0). *)
Definition arguments_accessor : accessor_def :=
  {| acc_options := None;
     acc_getter := {| g_name := "arguments"; g_doc := None;
                      g_hint := Some (HClass c_str);
                      g_default := Some (VStr "");
                      g_body := returns_value |} |}.

Definition hidden_instance : world :=
  fst (construct demo_call py_eq prints
         (fst (define_class initial_world ArgumentParser
                 [arguments_accessor; foo])) 1
         no_parser_options true []).

(** The raw value the namespace of object 0 holds under a name. *)
Definition raw_value (σ : world) (name : string) : option value :=
  match get_arguments σ 0 with
  | Ok ns => ns !! name
  | Raise _ => None
  end.

(** ** Declarations by the shape of their value type *)


Definition is_typing_union (h : option hint) : bool :=
  match h with
  | Some (HUnion _) => true
  | _ => false
  end.




(** What the wrapper returns when the namespace holds [raw] for it. *)
Definition wrapper_outcome (w : wrapper) (σ : world) (ns : Namespace)
    (raw : value) : world * result value :=
  let g := w_getter w in
  if w_const w
  then match raw with
       | VNone => (σ, Ok VNone)
       | _ => (log_call σ (g_name g) [], g_body g ns [])
       end
  else (log_call σ (g_name g) [raw], g_body g ns [raw]).

(** An [__object__] entry of a class names an object of the heap that
    was created for that class. *)
Definition objects_ok (σ : world) : Prop :=
  ∀ c cd id, classes σ !! c = Some cd -> cls_object cd = Some (Some id) ->
             ∃ inst, heap σ !! id = Some inst ∧ i_class inst = c.

(** [any(c.isspace() for c in s)]. *)
Fixpoint has_space (s : string) : bool :=
  match s with
  | EmptyString => false
  | String c rest => is_space c || has_space rest
  end.

(** An argument string as [str.split()] produces them. *)
Definition word (s : string) : Prop := s ≠ "" ∧ has_space s = false.

(** * Properties *)

(** ** The declaration compiler *)

Lemma kw_get_truthy_insert_ne (k k' : string) (o : pyobj) (kw : kwds) :
  k' ≠ k -> kw_get_truthy k (<[k' := o]> kw) = kw_get_truthy k kw.
Proof. intros Hne. unfold kw_get_truthy. by rewrite lookup_insert_ne. Qed.

Lemma argument_kwds_const (o : options) :
  kw_get_truthy "const" (argument_kwds o) = opt_const o.
Proof.
  unfold argument_kwds.
  destruct (opt_metavar o), (opt_choices o), (opt_const o), (opt_nargs o);
    repeat (rewrite kw_get_truthy_insert_ne by done); done.
Qed.

Lemma decorator_kwds_const (d : accessor_def) :
  kw_get_truthy "const" (decorator_kwds d) = is_const d.
Proof.
  unfold decorator_kwds, is_const.
  destruct (acc_options d); [apply argument_kwds_const | done].
Qed.

Lemma decorate_compile (num : nat) (d : accessor_def) :
  decorate num d =
  generate num (acc_getter d)
    (match acc_options d with
     | Some o => alias_flags (opt_aliases o)
     | None => []
     end)
    (acc_options d ≫= opt_name) (decorator_kwds d).
Proof. unfold decorate, decorator_kwds. by destruct (acc_options d). Qed.

(** The test [__kwds.get("const", False)] sees the decorator's [const]. *)
Lemma compile_const_test (g : getter) (kw : kwds) :
  kw_get_truthy "const"
    (match g_doc g with
     | Some doc => <["help" := kw_str doc]> (<["required" := kw_true]> kw)
     | None => <["required" := kw_true]> kw
     end) = kw_get_truthy "const" kw.
Proof.
  destruct (g_doc g); repeat (rewrite kw_get_truthy_insert_ne by done); done.
Qed.

Lemma rejected_compile (d : accessor_def) (e : exn) :
  rejected d e -> compile (acc_getter d) (decorator_kwds d) = Raise e.
Proof.
  intros H. unfold compile. rewrite compile_const_test, decorator_kwds_const.
  destruct H as [d Hc Hh | d targs Hh Hlen | d targs Hh Hlen | d t c Hh Hn Ho];
    rewrite Hh; simpl.
  - by rewrite Hc.
  - destruct (is_const d); simpl;
      by destruct (Nat.ltb_spec 1 (length targs)); [|lia].
  - destruct (is_const d); simpl;
      by destruct (Nat.eqb_spec (length targs) 2).
  - destruct (is_const d); simpl; by destruct c.
Qed.

Lemma rejected_decorate (d : accessor_def) (e : exn) (num : nat) :
  rejected d e -> decorate num d = (Raise e, num).
Proof.
  intros H. rewrite decorate_compile. unfold generate.
  by rewrite (rejected_compile d e H).
Qed.

Lemma decorate_cases (num : nat) (d : accessor_def) :
  (∃ w, decorate num d = (Ok w, S num)) ∨ (∃ e, decorate num d = (Raise e, num)).
Proof.
  rewrite decorate_compile. unfold generate.
  destruct (compile _ _) as [[b kw]|e]; eauto.
Qed.

Lemma accepted_decorate (num : nat) (d : accessor_def) :
  accepted d -> ∃ w, decorate num d = (Ok w, S num).
Proof.
  intros [[b kw] Hr]. rewrite decorate_compile. unfold generate. rewrite Hr. eauto.
Qed.

(** A class body with a rejected accessor never runs to its end. *)
Lemma class_body_rejected (d : accessor_def) (e : exn) (body : list accessor_def) :
  rejected d e -> d ∈ body ->
  ∀ num dict, ∃ e' num', class_body num body dict = (Raise e', num').
Proof.
  intros Hrej Hin. induction body as [|d' body IH]; intros num dict.
  - by apply elem_of_nil in Hin.
  - simpl. apply elem_of_cons in Hin as [<-|Hin].
    + rewrite (rejected_decorate d e num Hrej). eauto.
    + destruct (decorate_cases num d') as [[w ->]|[e' ->]]; [|eauto].
      apply (IH Hin).
Qed.

Lemma class_body_first_rejected (d : accessor_def) (e : exn)
    (pre post : list accessor_def) :
  rejected d e -> Forall accepted pre ->
  ∀ num dict,
    class_body num (pre ++ d :: post) dict = (Raise e, (num + length pre)%nat).
Proof.
  intros Hrej Hpre. induction Hpre as [|d' pre Hd' _ IH]; intros num dict; simpl.
  - rewrite (rejected_decorate d e num Hrej). f_equal. lia.
  - destruct (accepted_decorate num d' Hd') as [w ->].
    rewrite IH. f_equal. lia.
Qed.

(** The errors of definition time. An accessor that is not const-mode and
    has no typed [value] parameter, one whose value type is a list with
    more than one type argument, and one whose value type is a
    [typing.Union] that has not exactly two arguments or whose second
    argument is a class that [None] is no instance of, each make the
    decorator raise (ValueError, TypeError and TypeError "Union type is
    not allowed."): the class statement fails, no class is created and the
    heap is untouched, so nothing can be constructed or parsed. When the
    accessors before it are accepted, the exception of the class statement
    is that very error. *)
Lemma definition_time_errors (d : accessor_def) (e : exn) (σ : world)
    (parent : nat) (body : list accessor_def) :
  rejected d e -> d ∈ body ->
  (∀ num, decorate num d = (Raise e, num)) ∧
  (∃ e', snd (define_class σ parent body) = Raise e') ∧
  classes (fst (define_class σ parent body)) = classes σ ∧
  heap (fst (define_class σ parent body)) = heap σ ∧
  (∀ pre post, body = pre ++ d :: post -> Forall accepted pre ->
     is_Some (classes σ !! parent) ->
     snd (define_class σ parent body) = Raise e).
Proof.
  intros Hrej Hin. split; [intros num; by apply rejected_decorate|].
  unfold define_class.
  destruct (classes σ !! parent) as [pd|] eqn:Hp.
  - destruct (class_body_rejected d e body Hrej Hin (num_arguments σ) ∅)
      as (e' & num' & Hbody).
    rewrite Hbody. simpl. repeat split; eauto.
    intros pre post -> Hpre _.
    rewrite (class_body_first_rejected d e pre post Hrej Hpre) in Hbody.
    by injection Hbody as -> _.
  - simpl. repeat split; eauto.
    intros pre post _ _ [? ?]. discriminate.
Qed.

Lemma pair_rejected_at_definition :
  rejected pair (TypeError msg_list_one_type) ∧
  pair ∈ [foo; pair] ∧
  snd (define_class initial_world ArgumentParser [foo; pair])
  = Raise (TypeError msg_list_one_type).
Proof.
  assert (Hrej : rejected pair (TypeError msg_list_one_type)).
  { apply (rejected_list pair [HClass c_int; HClass c_str]);
      [reflexivity | simpl; lia]. }
  assert (Hin : pair ∈ [foo; pair]).
  { apply elem_of_cons. right. apply elem_of_cons. by left. }
  split; [exact Hrej|]. split; [exact Hin|].
  destruct (definition_time_errors pair (TypeError msg_list_one_type)
              initial_world ArgumentParser [foo; pair] Hrej Hin)
    as (_ & _ & _ & _ & H).
  apply (H [foo] []).
  - reflexivity.
  - constructor; [|constructor]. eexists. vm_compute. reflexivity.
  - eexists. reflexivity.
Qed.

(** The test on a [typing.Union] is [isinstance(None, type_args[1])], not
    a test for NoneType: [Union[int, object]] is not of the shape "T or
    None", yet the decorator accepts it, because [None] is an instance of
    [object]; the class statement succeeds. *)
Lemma union_with_object_accepted :
  (∀ t, g_hint (acc_getter either) ≠ Some (HUnion [t; HClass c_NoneType])) ∧
  (∃ w, decorate 0 either = (Ok w, 1%nat)) ∧
  snd (define_class initial_world ArgumentParser [either]) = Ok 1%nat.
Proof.
  split; [intros t; simpl; congruence|].
  split; [eexists|]; vm_compute; reflexivity.
Qed.

(** A union written [X | Y] has the origin [types.UnionType], which
    [__call__] does not compare with: whatever its alternatives, the
    accessor is accepted and the union itself is compiled as the
    conversion type, as a class would be. *)
Lemma union_type_accepted (d : accessor_def) (targs : list hint) :
  g_hint (acc_getter d) = Some (HUnionType targs) ->
  ∃ c kw, compile (acc_getter d) (decorator_kwds d) = Ok (c, kw) ∧
          kw !! "type" = Some (OType (HUnionType targs)).
Proof.
  intros Hh. unfold compile. rewrite compile_const_test, Hh.
  destruct (kw_get_truthy "const" (decorator_kwds d)); simpl;
    eexists _, _; (split; [reflexivity|]); by rewrite lookup_insert_eq.
Qed.

(** C4, at the failing input: [value: int | str] is a union that is not of
    the shape "T or None". Its origin is [types.UnionType], so the test
    for [typing.Union] does not see it: the decorator accepts the
    accessor, keeps it required and compiles the union itself as the
    conversion type, and the class statement succeeds. The error comes
    when the class is constructed, as the ValueError of [add_argument]
    for a type that is not callable. The same union spelled
    [Union[int, str]] is rejected at definition time with "Union type is
    not allowed.". *)
Lemma C4_new_style_union_accepted :
  let r := define_class initial_world ArgumentParser [int_or_str] in
  get_origin (g_hint (acc_getter int_or_str)) = Some origin_UnionType ∧
  (∃ w, decorate 0 int_or_str = (Ok w, 1%nat) ∧
        info_kwds (w_info w) !! "type"
        = Some (OType (HUnionType [HClass c_int; HClass c_str])) ∧
        info_kwds (w_info w) !! "required" = Some kw_true) ∧
  snd r = Ok 1%nat ∧
  snd (construct demo_call py_eq prints (fst r) 1 no_parser_options true [])
  = Raise (ValueError "type is not callable") ∧
  decorate 0 Union_int_str = (Raise (TypeError msg_union), 0%nat) ∧
  snd (define_class initial_world ArgumentParser [Union_int_str])
  = Raise (TypeError msg_union).
Proof.
  split; [reflexivity|].
  split; [eexists; repeat split; vm_compute; reflexivity|].
  repeat split; vm_compute; reflexivity.
Qed.

Lemma compile_const_untyped (g : getter) (kw : kwds) :
  kw_get_truthy "const" kw = true -> g_hint g = None ->
  compile g kw =
  Ok (true,
      <["action" := kw_str "store_const"]>
        (<["required" := kw_false]>
           (match g_doc g with
            | Some doc => <["help" := kw_str doc]> (<["required" := kw_true]> kw)
            | None => <["required" := kw_true]> kw
            end))).
Proof.
  intros Hc Hh. unfold compile. rewrite compile_const_test, Hc, Hh. reflexivity.
Qed.




(** ** Instances: construction, parsing, property access *)

Section Dispatch.

Context (call_type : hint -> string -> option value).
Context (value_eq : value -> value -> bool).
Context (fmt : formatter).

Lemma get_property_no_arguments (σ : world) (self : nat) (name : string)
    (e : exn) :
  self_arguments σ self = Raise e ->
  is_Some (heap σ !! self) ->
  get_property σ self name = (σ, Raise e) ∨
  get_property σ self name = (σ, Raise AttributeError).
Proof.
  intros Hargs [inst Hself]. unfold get_property. rewrite Hself.
  destruct (class_getattr σ (i_class inst) name) as [w|]; [|by right].
  left. unfold call_wrapper. by rewrite Hargs.
Qed.


(** C10. A parameter string the engine rejects leaves the instance as it
    was: [parse_args] raises (SystemExit, or what printing the usage
    message raises) before the assignment, the whole state is unchanged,
    the namespace of the previous successful parse is still the one read,
    and every property reads as before. *)
Theorem C10_failed_parse_keeps_namespace (σ : world) (self : nat)
    (inst : instance) (p : parser) (ns : Namespace) (parameter : string)
    (e : exn) :
  heap σ !! self = Some inst ->
  i_parser inst = Some p ->
  i_arguments inst = Some ns ->
  parse_args call_type value_eq fmt p (split_ws parameter) = Raise e ->
  method_parse_args call_type value_eq fmt σ self parameter = (σ, Raise e) ∧
  get_arguments
    (fst (method_parse_args call_type value_eq fmt σ self parameter)) self
  = Ok ns ∧
  ∀ name,
    get_property
      (fst (method_parse_args call_type value_eq fmt σ self parameter)) self
      name
    = get_property σ self name.
Proof.
  intros Hself Hp Hns Hexit.
  assert (Hcall : method_parse_args call_type value_eq fmt σ self parameter
                  = (σ, Raise e)).
  { unfold method_parse_args. by rewrite Hself, Hp, Hexit. }
  rewrite Hcall. simpl. split; [done|]. split; [|done].
  unfold get_arguments. by rewrite Hself, Hns.
Qed.





End Dispatch.

(** ** The documented scenario and the test classes *)

Lemma pair_eta_snd {A B} (r : A * B) (b : B) : snd r = b -> r = (fst r, b).
Proof. destruct r. simpl. by intros ->. Qed.

Lemma C10_failed_parse_keeps_namespace_witness :
  method_parse_args demo_call py_eq prints (test_parsed required_only) 0 ""
  = (test_parsed required_only, Raise SystemExit).
Proof.
  let r := eval vm_compute in (heap (test_parsed required_only) !! 0%nat) in
  lazymatch r with
  | Some ?inst =>
      lazymatch eval vm_compute in (i_parser inst, i_arguments inst) with
      | (Some ?p, Some ?ns) =>
          apply (proj1 (C10_failed_parse_keeps_namespace demo_call py_eq prints
                          (test_parsed required_only) 0 inst p ns ""
                          SystemExit
                          ltac:(vm_compute; reflexivity)
                          ltac:(vm_compute; reflexivity)
                          ltac:(vm_compute; reflexivity)
                          ltac:(vm_compute; reflexivity)))
      end
  end.
Defined.





(** A class that declares a property named [arguments]: the parse fills
    the namespace, but every read of a declared property ends in
    RecursionError and calls no decorated function. *)
Lemma declared_arguments_hide_the_namespace :
  let r := method_parse_args demo_call py_eq prints hidden_instance 0
             "--foo x" in
  snd r = Ok () ∧
  raw_value (fst r) "foo" = Some (VStr "x") ∧
  snd (get_property (fst r) 0 "foo") = Raise RecursionError ∧
  snd (get_property (fst r) 0 "arguments") = Raise RecursionError ∧
  calls (fst (get_property (fst r) 0 "foo")) = [].
Proof. repeat split; vm_compute; reflexivity. Qed.

(** C5, at the failing input: once [Argument] has been constructed, the
    call [AdditionalArgument(lazy_parsing=True)] finds the base's
    [__object__] along the MRO and returns that object, an instance of
    [Argument] and not of [AdditionalArgument]; no second object is
    allocated. *)
Lemma C5_subclass_returns_base_instance :
  let r1 := construct demo_call py_eq prints test_module Argument no_parser_options true [] in
  let r2 := construct demo_call py_eq prints (fst r1) AdditionalArgument no_parser_options true [] in
  snd r1 = Ok 0%nat ∧ snd r2 = Ok 0%nat ∧
  i_class <$> heap (fst r2) !! 0%nat = Some Argument ∧
  isinstance (fst r2) 0 AdditionalArgument = false ∧
  length (heap (fst r2)) = 1%nat.
Proof. repeat split; vm_compute; reflexivity. Qed.

(** C2, on the code: with the five declarations of the scenario (and
    equally with the whole class of the tests) the first parse gives
    [bar == 4] and [baz == ["foo", "bar"]] but [foo] reads None, not
    ["foo"], because the body of [foo] is [...] and the wrapper returns
    what the body returns; the second parse gives [bar == 1] and
    [baz == []]; the empty string raises SystemExit. *)
Lemma C2_scenario_on_the_code (float_of : string -> option value)
    (value_eq : value -> value -> bool) :
  let call := builtin_call float_of in
  (∀ body, body = scenario_body ∨ body = Argument_body ->
     read_after call value_eq body basic_args "foo" = Ok VNone ∧
     read_after call value_eq body basic_args "bar" = Ok (VInt 4) ∧
     read_after call value_eq body basic_args "baz"
     = Ok (VList [VStr "foo"; VStr "bar"]) ∧
     read_after call value_eq body required_only "bar" = Ok (VInt 1) ∧
     read_after call value_eq body required_only "baz" = Ok (VList []) ∧
     snd (run_scenario call value_eq body "") = Raise SystemExit) ∧
  snd (get_property (test_parsed basic_args) 0 "foo") = Ok VNone ∧
  calls (fst (get_property (test_parsed basic_args) 0 "foo"))
  = [("foo", [VStr "foo"])].
Proof.
  split; [|split; vm_compute; reflexivity].
  intros body [-> | ->]; repeat split; vm_compute; reflexivity.
Qed.

(** ** Sequence numbers and the order of registration *)

Lemma decorate_ok (num num' : nat) (d : accessor_def) (w : wrapper) :
  decorate num d = (Ok w, num') ->
  num' = S num ∧ number w = num ∧
  info_getter_name (w_info w) = g_name (acc_getter d) ∧
  w_getter w = acc_getter d.
Proof.
  rewrite decorate_compile. unfold generate.
  destruct (compile _ _) as [[b kw]|e]; [|discriminate].
  by intros [= <- <-].
Qed.

Lemma decorate_raise (num num' : nat) (d : accessor_def) (e : exn) :
  decorate num d = (Raise e, num') -> num' = num.
Proof.
  rewrite decorate_compile. unfold generate.
  destruct (compile _ _) as [[b kw]|e']; [discriminate|].
  by intros [= _ <-].
Qed.

Lemma class_body_counter (body : list accessor_def) :
  ∀ num dict r num',
    class_body num body dict = (r, num') -> (num <= num')%nat.
Proof.
  induction body as [|d body IH]; intros num dict r num'; simpl.
  - intros [= _ <-]. lia.
  - destruct (decorate num d) as [[w|e] n] eqn:Hd.
    + apply decorate_ok in Hd as (-> & _). intros H%IH. lia.
    + apply decorate_raise in Hd as ->. intros [= _ <-]. lia.
Qed.

(** The properties a class body leaves bound: each is the wrapper of the
    last definition of its name, numbered by the position of that
    definition. *)
Lemma class_body_spec (body : list accessor_def) :
  ∀ num dict0 dict num',
    class_body num body dict0 = (Ok dict, num') ->
    num' = (num + length body)%nat ∧
    ∀ name w, dict !! name = Some w ->
      (dict0 !! name = Some w ∧
       ∀ k d, body !! k = Some d -> g_name (acc_getter d) ≠ name) ∨
      (∃ k d, body !! k = Some d ∧ g_name (acc_getter d) = name ∧
              decorate (num + k) d = (Ok w, S (num + k)) ∧
              ∀ k' d', (k < k')%nat -> body !! k' = Some d' ->
                       g_name (acc_getter d') ≠ name).
Proof.
  induction body as [|d body IH]; intros num dict0 dict num'; simpl.
  - intros [= <- <-]. split; [lia|]. intros name w Hw. left. split; [done|].
    intros k d' Hk. by rewrite lookup_nil in Hk.
  - destruct (decorate num d) as [[w0|e] n] eqn:Hd; [|discriminate].
    pose proof (decorate_ok _ _ _ _ Hd) as (-> & _).
    intros Hbody. destruct (IH _ _ _ _ Hbody) as [-> Hdict].
    split; [lia|]. intros name w Hw.
    destruct (Hdict name w Hw) as [[H0 Hno]|(k & d' & Hk & Hn & Hdec & Hlast)].
    + destruct (decide (g_name (acc_getter d) = name)) as [Heq|Hne].
      * rewrite Heq, lookup_insert_eq in H0. injection H0 as <-.
        right. exists 0%nat, d. rewrite Nat.add_0_r.
        split; [done|]. split; [done|]. split; [done|].
        intros [|k'] d' Hlt Hk'; [lia|]. simpl in Hk'. by eapply Hno.
      * rewrite lookup_insert_ne in H0 by done. left. split; [done|].
        intros [|k] d' Hk; simpl in Hk; [by injection Hk as <-|by eapply Hno].
    + right. exists (S k), d'. rewrite Nat.add_succ_r.
      split; [done|]. split; [done|]. split; [done|].
      intros [|k'] d'' Hlt Hk'; [lia|]. simpl in Hk'.
      eapply Hlast; [|done]. lia.
Qed.

Lemma initial_classes_ok : classes_ok initial_world.
Proof.
  split.
  - intros [|c] cd H; [|by destruct c]. injection H as <-. by exists [].
  - intros [|c] cd name w H; [|by destruct c]. injection H as <-.
    simpl. by rewrite lookup_empty.
  - intros [|c] cd name w H; [|by destruct c]. injection H as <-.
    simpl. by rewrite lookup_empty.
  - intros [|c] cd n1 n2 w1 w2 H; [|by destruct c]. injection H as <-.
    simpl. by rewrite lookup_empty.
  - intros [|c1] c2 cd1 cd2 n1 n2 w1 w2 H; [|by destruct c1].
    injection H as <-. simpl. by rewrite lookup_empty.
Qed.

(** A state with the same classes and a counter that has not gone back. *)
Lemma classes_ok_same (σ σ' : world) :
  classes_ok σ ->
  (∀ c, (classes σ' !! c ≫= fun cd => Some (cls_mro cd, cls_dict cd))
        = (classes σ !! c ≫= fun cd => Some (cls_mro cd, cls_dict cd))) ->
  (num_arguments σ <= num_arguments σ')%nat ->
  classes_ok σ'.
Proof.
  intros [Hmro Hname Hdec Hown Hlater] Hsame Hnum.
  assert (Hcd : ∀ c cd', classes σ' !! c = Some cd' ->
            ∃ cd, classes σ !! c = Some cd ∧ cls_mro cd = cls_mro cd' ∧
                  cls_dict cd = cls_dict cd').
  { intros c cd' Hc. specialize (Hsame c). rewrite Hc in Hsame. simpl in Hsame.
    destruct (classes σ !! c) as [cd|]; [|discriminate].
    simpl in Hsame. injection Hsame as Hm Hd. by exists cd. }
  split.
  - intros c cd' (cd & Hc & Hm & _)%Hcd. rewrite <- Hm. by eapply Hmro.
  - intros c cd' name w (cd & Hc & _ & Hd)%Hcd Hw. rewrite <- Hd in Hw.
    destruct (Hname c cd name w Hc Hw) as (? & ? & ?). repeat split; [done..|lia].
  - intros c cd' name w (cd & Hc & _ & Hd)%Hcd. rewrite <- Hd. by eapply Hdec.
  - intros c cd' n1 n2 w1 w2 (cd & Hc & _ & Hd)%Hcd. rewrite <- Hd.
    by eapply Hown.
  - intros c1 c2 cd1' cd2' n1 n2 w1 w2 (cd1 & Hc1 & _ & Hd1)%Hcd
      (cd2 & Hc2 & _ & Hd2)%Hcd. rewrite <- Hd1, <- Hd2. by eapply Hlater.
Qed.

Lemma define_class_ok (σ : world) (parent : nat) (body : list accessor_def) :
  classes_ok σ -> classes_ok (fst (define_class σ parent body)).
Proof.
  intros Hok. unfold define_class.
  destruct (classes σ !! parent) as [pd|] eqn:Hp; [|done].
  destruct (class_body (num_arguments σ) body ∅) as [[dict|e] num] eqn:Hbody.
  2:{ simpl. apply (classes_ok_same σ); [done|done|].
      simpl. by eapply class_body_counter. }
  simpl. destruct (class_body_spec _ _ _ _ _ Hbody) as [-> Hdict].
  destruct Hok as [Hmro Hname Hdec Hown Hlater].
  assert (Hnew : ∀ name w, dict !! name = Some w ->
            ∃ k d, body !! k = Some d ∧ g_name (acc_getter d) = name ∧
                   number w = (num_arguments σ + k)%nat ∧
                   w_getter w = acc_getter d ∧
                   info_getter_name (w_info w) = name ∧
                   decorate (number w) d = (Ok w, S (number w))).
  { intros name w Hw. destruct (Hdict name w Hw) as [[H0 _]|(k & d & H)].
    - by rewrite lookup_empty in H0.
    - destruct H as (Hk & Hn & Hd & _).
      destruct (decorate_ok _ _ _ _ Hd) as (_ & Hnum & Hi & Hg).
      exists k, d. rewrite Hnum. repeat split; try done. congruence. }
  assert (Hcase : ∀ c cd,
            (classes σ ++ [{| cls_mro := length (classes σ) :: cls_mro pd;
                              cls_dict := dict; cls_object := None |}]) !! c
            = Some cd ->
            classes σ !! c = Some cd ∧ (c < length (classes σ))%nat ∨
            c = length (classes σ) ∧
            cd = {| cls_mro := length (classes σ) :: cls_mro pd;
                    cls_dict := dict; cls_object := None |}).
  { intros c cd Hc. apply lookup_app_Some in Hc as [Hc|[Hge Hc]].
    - left. split; [done|]. by eapply lookup_lt_Some.
    - right. apply list_lookup_singleton_Some in Hc as [Hc <-].
      split; [lia|done]. }
  split; simpl.
  - intros c cd [[Hc _]|[-> ->]]%Hcase; [by eapply Hmro|]. simpl.
    destruct (Hmro parent pd Hp) as (tail & -> & Htail).
    eexists. split; [done|]. apply lookup_lt_Some in Hp.
    constructor; [done|]. eapply Forall_impl; [done|]. simpl. lia.
  - intros c cd name w [[Hc _]|[-> ->]]%Hcase Hw.
    + destruct (Hname c cd name w Hc Hw) as (? & ? & ?).
      repeat split; [done..|lia].
    + simpl in Hw.
      destruct (Hnew name w Hw) as (k & d & Hk & Hn & Hnum & Hg & Hi & _).
      apply lookup_lt_Some in Hk. rewrite Hg. repeat split; [done..|lia].
  - intros c cd name w [[Hc _]|[-> ->]]%Hcase Hw; [by eapply Hdec|].
    simpl in Hw. destruct (Hnew name w Hw) as (k & d & _ & _ & _ & _ & _ & Hd).
    by exists d.
  - intros c cd n1 n2 w1 w2 [[Hc _]|[-> ->]]%Hcase Hw1 Hw2 Hne;
      [by eapply Hown|].
    simpl in Hw1, Hw2.
    destruct (Hnew n1 w1 Hw1) as (k1 & d1 & Hk1 & Hn1 & Hnum1 & _).
    destruct (Hnew n2 w2 Hw2) as (k2 & d2 & Hk2 & Hn2 & Hnum2 & _).
    intros Heq. assert (k1 = k2) as -> by lia. congruence.
  - intros c1 c2 cd1 cd2 n1 n2 w1 w2 [[Hc1 Hlt1]|[-> ->]]%Hcase
      [[Hc2 Hlt2]|[-> ->]]%Hcase Hw1 Hw2 Hlt; [| |lia..].
    + exact (Hlater _ _ _ _ _ _ _ _ Hc1 Hc2 Hw1 Hw2 Hlt).
    + simpl in Hw2.
      destruct (Hnew n2 w2 Hw2) as (k2 & d2 & _ & _ & Hnum2 & _).
      destruct (Hname c1 cd1 n1 w1 Hc1 Hw1) as (_ & _ & ?). lia.
Qed.


Lemma same_classes_refl (σ : world) : same_classes σ σ.
Proof. by split. Qed.

Lemma same_classes_trans (σ1 σ2 σ3 : world) :
  same_classes σ1 σ2 -> same_classes σ2 σ3 -> same_classes σ1 σ3.
Proof. intros [H1 N1] [H2 N2]. split; [intros c|]; congruence. Qed.

Lemma new_same_classes (σ : world) (cls : nat) :
  same_classes σ (fst (new σ cls)).
Proof.
  unfold new. destruct (classes σ !! cls) as [cd|] eqn:Hc;
    [|apply same_classes_refl].
  destruct (lookup_object σ cls) as [[id|]|]; try apply same_classes_refl.
  split; [|done]. intros c. simpl.
  destruct (decide (c = cls)) as [->|Hne].
  - rewrite list_lookup_insert_eq by (by eapply lookup_lt_Some). by rewrite Hc.
  - by rewrite list_lookup_insert_ne.
Qed.

Section RunsPreserve.

Context (call_type : hint -> string -> option value).
Context (value_eq : value -> value -> bool).
Context (fmt : formatter).

Lemma init_same_classes (σ : world) (self : nat) (po : parser_options) (lazy : bool)
    (argv : list string) :
  same_classes σ (fst (init call_type value_eq fmt σ self po lazy argv)).
Proof.
  unfold init. destruct (heap σ !! self); [|apply same_classes_refl].
  destruct (register_all _ _); [|apply same_classes_refl].
  destruct lazy; [by split|].
  destruct (parse_args _ _ _ _ _); by split.
Qed.

Lemma construct_same_classes (σ : world) (cls : nat) (po : parser_options) (lazy : bool)
    (argv : list string) :
  same_classes σ (fst (construct call_type value_eq fmt σ cls po lazy argv)).
Proof.
  unfold construct.
  pose proof (new_same_classes σ cls) as Hnew.
  destruct (new σ cls) as [σ1 [obj|e]]; [|done].
  destruct (isinstance σ1 obj cls); [|done].
  pose proof (init_same_classes σ1 obj po lazy argv) as Hinit.
  destruct (init call_type value_eq fmt σ1 obj po lazy argv) as [σ2 [[]|e]];
    by apply (same_classes_trans σ σ1).
Qed.

Lemma method_parse_args_same_classes (σ : world) (self : nat)
    (parameter : string) :
  same_classes σ (fst (method_parse_args call_type value_eq fmt σ self parameter)).
Proof.
  unfold method_parse_args.
  destruct (heap σ !! self) as [inst|]; [|by split].
  destruct (i_parser inst); [|by split].
  destruct (parse_args _ _ _ _ _); by split.
Qed.

Lemma get_property_same_classes (σ : world) (self : nat) (name : string) :
  same_classes σ (fst (get_property σ self name)).
Proof.
  unfold get_property. destruct (heap σ !! self) as [inst|]; [|by split].
  destruct (class_getattr σ (i_class inst) name) as [w|]; [|by split].
  unfold call_wrapper. destruct (self_arguments σ self) as [ns|]; [|by split].
  destruct (ns_getattr ns _) as [v|]; [|by split].
  destruct (w_const w); [destruct v|]; by split.
Qed.

Lemma classes_ok_same_classes (σ σ' : world) :
  classes_ok σ -> same_classes σ σ' -> classes_ok σ'.
Proof.
  intros Hok [Hsame Hnum]. apply (classes_ok_same σ); [done| |lia].
  intros c. specialize (Hsame c). unfold class_shape in Hsame.
  by destruct (classes σ' !! c), (classes σ !! c).
Qed.

Lemma step_classes_ok (σ σ' : world) :
  step call_type value_eq fmt σ σ' -> classes_ok σ -> classes_ok σ'.
Proof.
  intros Hstep Hok. destruct Hstep.
  - by apply define_class_ok.
  - eapply classes_ok_same_classes; [done|apply construct_same_classes].
  - eapply classes_ok_same_classes; [done|apply method_parse_args_same_classes].
  - eapply classes_ok_same_classes; [done|apply get_property_same_classes].
Qed.

Lemma reachable_classes_ok (σ : world) :
  reachable call_type value_eq fmt σ -> classes_ok σ.
Proof.
  unfold reachable. revert σ.
  apply (rtc_ind_r (fun σ => classes_ok σ)); [apply initial_classes_ok|].
  intros σ σ' _ Hstep Hok. by eapply step_classes_ok.
Qed.

End RunsPreserve.

Lemma first_some_Some {A B} (f : A -> option B) (l : list A) (b : B) :
  first_some f l = Some b -> ∃ x, x ∈ l ∧ f x = Some b.
Proof.
  induction l as [|x l IH]; simpl; [done|].
  destruct (f x) as [b'|] eqn:Hx.
  - intros [= <-]. exists x. split; [apply elem_of_cons; by left|done].
  - intros (y & Hy & Hfy)%IH. exists y. split; [apply elem_of_cons; by right|done].
Qed.

Lemma class_getattr_Some (σ : world) (cls : nat) (name : string) (w : wrapper) :
  class_getattr σ cls name = Some w ->
  ∃ c cd, c ∈ mro σ cls ∧ classes σ !! c = Some cd ∧ cls_dict cd !! name = Some w.
Proof.
  unfold class_getattr. intros (c & Hc & Hf)%first_some_Some.
  destruct (classes σ !! c) as [cd|] eqn:Hcd; [|done].
  exists c, cd. by repeat split.
Qed.

Lemma dir_names_NoDup (σ : world) (cls : nat) : NoDup (dir_names σ cls).
Proof.
  unfold dir_names. rewrite merge_sort_Permutation. apply NoDup_elements.
Qed.

Lemma elem_of_dir_names (σ : world) (cls : nat) (name : string) :
  name ∈ dir_names σ cls ↔
  ∃ c cd, c ∈ mro σ cls ∧ classes σ !! c = Some cd ∧ name ∈ dom (cls_dict cd).
Proof.
  unfold dir_names. rewrite merge_sort_Permutation, elem_of_elements,
    elem_of_union_list.
  split.
  - intros (X & HX & Hname). apply list_elem_of_In, in_map_iff in HX
      as (c & <- & Hc%list_elem_of_In).
    destruct (classes σ !! c) as [cd|] eqn:Hcd; [|by apply elem_of_empty in Hname].
    by exists c, cd.
  - intros (c & cd & Hc & Hcd & Hname).
    exists (dom (cls_dict cd)). split; [|done].
    apply list_elem_of_In, in_map_iff. exists c.
    rewrite Hcd. split; [done|by apply list_elem_of_In].
Qed.

Lemma first_some_is_Some {A B} (f : A -> option B) (l : list A) (x : A) :
  x ∈ l -> is_Some (f x) -> is_Some (first_some f l).
Proof.
  induction l as [|y l IH]; simpl; [by intros ?%elem_of_nil|].
  intros [->|Hin]%elem_of_cons Hx.
  - destruct Hx as [b ->]. by eexists.
  - destruct (f y); [by eexists|by apply IH].
Qed.

(** The declarations [__init__] collects are the properties [getattr]
    finds on the class: its own and the inherited ones that are not
    overridden. *)
Lemma elem_of_collect (σ : world) (cls : nat) (w : wrapper) :
  w ∈ collect σ cls ↔ ∃ name, class_getattr σ cls name = Some w.
Proof.
  unfold collect. rewrite list_elem_of_omap. split.
  - intros (name & _ & H). by exists name.
  - intros (name & H). exists name. split; [|done].
    destruct (class_getattr_Some σ cls name w H) as (c & cd & Hc & Hcd & Hw).
    apply elem_of_dir_names. exists c, cd. repeat split; [done..|].
    apply elem_of_dom. by eexists.
Qed.

Lemma NoDup_omap_key {A B} (f : A -> option B) (key : B -> nat) (l : list A) :
  NoDup l ->
  (∀ a1 a2 b1 b2, a1 ≠ a2 -> f a1 = Some b1 -> f a2 = Some b2 ->
                  key b1 ≠ key b2) ->
  NoDup (key <$> omap f l).
Proof.
  intros Hnd Hkey. induction Hnd as [|a l Hnotin Hnd IH]; simpl; [constructor|].
  destruct (f a) as [b|] eqn:Hfa; [|done].
  rewrite fmap_cons. constructor; [|done].
  intros (b' & Hk & (a' & Ha' & Hfa')%list_elem_of_omap)%list_elem_of_fmap.
  apply (Hkey a a' b b'); [|done..]. intros ->. done.
Qed.

Lemma collect_numbers_NoDup (σ : world) (cls : nat) :
  classes_ok σ -> NoDup (number <$> collect σ cls).
Proof.
  intros Hok. apply NoDup_omap_key; [apply dir_names_NoDup|].
  intros n1 n2 w1 w2 Hne
    (c1 & cd1 & _ & Hc1 & Hw1)%class_getattr_Some
    (c2 & cd2 & _ & Hc2 & Hw2)%class_getattr_Some.
  destruct (Nat.lt_total c1 c2) as [Hlt|[->|Hlt]].
  - pose proof (ok_later σ Hok _ _ _ _ _ _ _ _ Hc1 Hc2 Hw1 Hw2 Hlt). lia.
  - rewrite Hc1 in Hc2. injection Hc2 as <-.
    by apply (ok_own σ Hok _ _ _ _ _ _ Hc1 Hw1 Hw2).
  - pose proof (ok_later σ Hok _ _ _ _ _ _ _ _ Hc2 Hc1 Hw2 Hw1 Hlt). lia.
Qed.

#[local] Instance number_le_trans : Transitive number_le.
Proof. unfold number_le. intros a b c. lia. Qed.

#[local] Instance number_le_total : Total number_le.
Proof. unfold number_le. intros a b. lia. Qed.


Lemma StronglySorted_strict (l : list registration) :
  StronglySorted number_le l -> NoDup (reg_number <$> l) ->
  StronglySorted number_lt l.
Proof.
  induction 1 as [|a l Hs IH Hall]; [constructor|].
  rewrite fmap_cons. intros [Hnotin Hnd]%NoDup_cons.
  constructor; [by apply IH|].
  apply Forall_forall. intros b Hb.
  pose proof (proj1 (Forall_forall _ _) Hall b Hb) as Hle.
  unfold number_le in Hle. unfold number_lt.
  assert (reg_number a ≠ reg_number b); [|lia].
  intros Heq. apply Hnotin. rewrite Heq. by apply list_elem_of_fmap_2.
Qed.

Lemma reg_number_registration_of (w : wrapper) :
  reg_number (registration_of w) = number w.
Proof. unfold registration_of. by destruct (info_name (w_info w)). Qed.

(** The list [__init__] registers is the collected declarations in
    strictly ascending sequence-number order. *)
Lemma sorted_registrations_spec (σ : world) (cls : nat) :
  classes_ok σ ->
  StronglySorted number_lt (sorted_registrations σ cls) ∧
  sorted_registrations σ cls ≡ₚ registration_of <$> collect σ cls.
Proof.
  intros Hok. unfold sorted_registrations.
  split; [|apply merge_sort_Permutation].
  apply StronglySorted_strict; [apply StronglySorted_merge_sort; apply _|].
  rewrite merge_sort_Permutation, <- list_fmap_compose.
  rewrite (list_fmap_ext _ number (collect σ cls));
    [by apply collect_numbers_NoDup|].
  intros i w _. apply reg_number_registration_of.
Qed.


Lemma make_action_fields (args : list string) (dest : string)
    (k : action_kind) (kw : kwds) (a : action) :
  k ≠ HelpAction ->
  make_action args dest k kw = Ok a ->
  a_option_strings a = args ∧ a_dest a = dest ∧ a_kind a = k.
Proof.
  intros Hk. unfold make_action.
  destruct (negb (keywords_accepted k kw)); [discriminate|].
  destruct k; [| | |done].
  - destruct (read_nargs kw) as [n|]; [|discriminate]. simpl.
    destruct (read_type kw) as [t|]; [|discriminate]. simpl.
    destruct (read_choices kw) as [c|]; [|discriminate]. simpl.
    destruct n as [|[]| |]; try discriminate;
      destruct (kw_value "const" kw) as [[]|]; try discriminate;
      by intros [= <-].
  - by intros [= <-].
  - by intros [= <-].
Qed.

Lemma read_action_kind_not_help (kw : kwds) (k : action_kind) :
  read_action_kind kw = Ok k -> k ≠ HelpAction.
Proof.
  unfold read_action_kind.
  destruct (kw !! "action") as [[[| | | |s|]|]|]; try discriminate;
    try (by intros [= <-]).
  destruct (String.eqb s "store"); [by intros [= <-]|].
  destruct (String.eqb s "store_const"); [by intros [= <-]|].
  destruct (String.eqb s "store_true"); [by intros [= <-]|discriminate].
Qed.

(** What a successful [add_argument] does to the parser. *)
Lemma add_argument_inv (p p' : parser) (args : list string) (kw : kwds) :
  add_argument p args kw = Ok p' ->
  ∃ a dest k,
    registration_dest args kw = Ok dest ∧
    read_action_kind kw = Ok k ∧
    make_action args dest k (delete "action" (delete "dest" kw)) = Ok a ∧
    (∀ s, s ∈ args -> p_option_string_actions p !! s = None) ∧
    p_actions p' = p_actions p ++ [a] ∧
    p_option_string_actions p'
    = foldl (fun m s => <[s := length (p_actions p)]> m)
            (p_option_string_actions p) args ∧
    type_callable (a_type a) = true ∧
    p_options p' = p_options p.
Proof.
  unfold add_argument.
  destruct (negb (forallb head_is_dash args)); [discriminate|].
  fold (registration_dest args kw).
  destruct (registration_dest args kw) as [dest|]; [|discriminate]. simpl.
  destruct (read_action_kind kw) as [k|]; [|discriminate]. simpl.
  destruct (make_action _ _ _ _) as [a|] eqn:Hm; [|discriminate]. simpl.
  destruct (type_callable (a_type a)) eqn:Hcall; [|discriminate]. simpl.
  destruct (existsb _ args) eqn:Hex; [discriminate|].
  intros [= <-]. exists a, dest, k.
  do 3 (split; [done|]). split; [|done].
  intros s Hs. apply eq_None_not_Some. intros Hsome.
  assert (existsb (fun s => bool_decide (is_Some (p_option_string_actions p !! s)))
            args = true); [|congruence].
  apply existsb_exists. exists s. split; [by apply list_elem_of_In|].
  by apply bool_decide_eq_true.
Qed.

Lemma add_argument_actions (p p' : parser) (args : list string) (kw : kwds) :
  add_argument p args kw = Ok p' ->
  a_option_strings <$> p_actions p'
  = (a_option_strings <$> p_actions p) ++ [args].
Proof.
  intros (a & dest & k & _ & Hk & Ha & _ & -> & _)%add_argument_inv.
  apply read_action_kind_not_help in Hk.
  destruct (make_action_fields _ _ _ _ _ Hk Ha) as (Hs & _).
  by rewrite fmap_app, <- Hs.
Qed.

(** [__init__] hands the registrations to the engine in list order: the
    parser's actions after [-h/--help] carry their option strings in that
    order. *)
Lemma register_all_actions (regs : list registration) :
  ∀ p p', register_all p regs = Ok p' ->
    a_option_strings <$> p_actions p'
    = (a_option_strings <$> p_actions p) ++ (reg_flags <$> regs).
Proof.
  induction regs as [|r regs IH]; intros p p'; simpl.
  - intros [= <-]. by rewrite app_nil_r.
  - destruct (add_argument p _ (reg_kwds r)) as [p1|] eqn:Hadd; [|discriminate].
    simpl. intros Hrest%IH. rewrite Hrest.
    rewrite (add_argument_actions _ _ _ _ Hadd), <- app_assoc. done.
Qed.

(** Registering flags leaves the texts of the parser alone. *)
Lemma register_all_options (regs : list registration) :
  ∀ p p', register_all p regs = Ok p' -> p_options p' = p_options p.
Proof.
  induction regs as [|r regs IH]; intros p p'; simpl.
  - by intros [= <-].
  - destruct (add_argument p _ (reg_kwds r)) as [p1|] eqn:Hadd; [|discriminate].
    simpl. intros Hrest%IH. rewrite Hrest.
    by destruct (add_argument_inv _ _ _ _ Hadd)
      as (a & dest & k & _ & _ & _ & _ & _ & _ & _ & Ho).
Qed.

Lemma first_some_ext {A B} (f g : A -> option B) (l : list A) :
  (∀ x, x ∈ l -> f x = g x) -> first_some f l = first_some g l.
Proof.
  induction l as [|x l IH]; intros H; simpl; [done|].
  rewrite (H x) by (apply elem_of_cons; by left).
  rewrite IH; [done|]. intros y Hy. apply H, elem_of_cons. by right.
Qed.

(** The registrations of a class depend on its MRO and on the
    dictionaries of the classes on it, and on nothing else. *)
Lemma sorted_registrations_ext (σ σ' : world) (cls : nat) :
  mro σ' cls = mro σ cls ->
  (∀ c, c ∈ mro σ cls ->
        cls_dict <$> classes σ' !! c = cls_dict <$> classes σ !! c) ->
  sorted_registrations σ' cls = sorted_registrations σ cls.
Proof.
  intros Hmro Hdict.
  assert (Hdir : dir_names σ' cls = dir_names σ cls).
  { unfold dir_names. rewrite Hmro. do 3 f_equal.
    apply map_ext_in. intros c Hc%list_elem_of_In.
    specialize (Hdict c Hc).
    destruct (classes σ' !! c), (classes σ !! c); simpl in Hdict;
      try discriminate; [|done]. by injection Hdict as ->. }
  assert (Hget : ∀ name, class_getattr σ' cls name = class_getattr σ cls name).
  { intros name. unfold class_getattr. rewrite Hmro.
    apply first_some_ext. intros c Hc. specialize (Hdict c Hc).
    destruct (classes σ' !! c), (classes σ !! c); simpl in Hdict;
      try discriminate; [|done]. simpl. by injection Hdict as ->. }
  unfold sorted_registrations, collect. rewrite Hdir. do 2 f_equal.
  apply list_omap_ext, Forall_Forall2_diag, Forall_forall. by intros.
Qed.

Lemma same_classes_sorted_registrations (σ σ' : world) (cls : nat) :
  same_classes σ σ' ->
  sorted_registrations σ' cls = sorted_registrations σ cls.
Proof.
  intros [Hsame _].
  assert (Hfield : ∀ c, cls_mro <$> classes σ' !! c = cls_mro <$> classes σ !! c
                        ∧ cls_dict <$> classes σ' !! c = cls_dict <$> classes σ !! c).
  { intros c. specialize (Hsame c).
    destruct (classes σ' !! c), (classes σ !! c); simpl in *; try discriminate;
      [|done]. by injection Hsame as -> ->. }
  apply sorted_registrations_ext.
  - unfold mro. destruct (Hfield cls) as [H _].
    destruct (classes σ' !! cls), (classes σ !! cls); simpl in H;
      try discriminate; [|done]. by injection H.
  - intros c _. apply Hfield.
Qed.

Lemma same_classes_is_Some (σ σ' : world) (c : nat) :
  same_classes σ σ' -> is_Some (classes σ !! c) -> is_Some (classes σ' !! c).
Proof.
  intros [Hsame _] [cd Hc]. specialize (Hsame c). rewrite Hc in Hsame.
  destruct (classes σ' !! c); [by eexists|discriminate].
Qed.

(** Steps that only add objects, or replace one object by another of the
    same class whose parser is kept or built by [__init__], keep
    [instances_ok]. *)
Lemma instances_ok_same_classes (σ σ' : world) :
  instances_ok σ -> same_classes σ σ' ->
  (∀ self inst', heap σ' !! self = Some inst' ->
     heap σ !! self = Some inst' ∨
     (is_Some (classes σ !! i_class inst') ∧
      ∀ p, i_parser inst' = Some p ->
           register_all (new_parser (p_options p))
                        (sorted_registrations σ (i_class inst')) = Ok p)) ->
  instances_ok σ'.
Proof.
  intros Hok Hsame Hheap self inst' Hself.
  rewrite (same_classes_sorted_registrations σ σ') by done.
  destruct (Hheap self inst' Hself) as [Hold|[Hc Hp]].
  - destruct (Hok self inst' Hold) as [Hc Hp].
    split; [by eapply same_classes_is_Some|done].
  - split; [by eapply same_classes_is_Some|done].
Qed.

Lemma define_class_instances_ok (σ : world) (parent : nat)
    (body : list accessor_def) :
  classes_ok σ -> instances_ok σ ->
  instances_ok (fst (define_class σ parent body)).
Proof.
  intros Hcok Hok. unfold define_class.
  destruct (classes σ !! parent) as [pd|] eqn:Hp; [|done].
  destruct (class_body (num_arguments σ) body ∅) as [[dict|e] num] eqn:Hbody;
    [|done].
  simpl.
  set (σ' := {| num_arguments := num;
                classes := classes σ ++ [_]; heap := heap σ;
                calls := calls σ |}).
  intros self inst Hself. simpl in Hself.
  destruct (Hok self inst Hself) as [[cd Hc] Hparser].
  assert (Hold : ∀ c, (c < length (classes σ))%nat ->
                      classes σ' !! c = classes σ !! c).
  { intros c Hlt. simpl. by rewrite lookup_app_l. }
  assert (Hlt : (i_class inst < length (classes σ))%nat)
    by (by eapply lookup_lt_Some).
  split; [rewrite (Hold _ Hlt); by eexists|].
  assert (Hmro : mro σ' (i_class inst) = mro σ (i_class inst)).
  { unfold mro. by rewrite (Hold _ Hlt). }
  rewrite (sorted_registrations_ext σ σ'); [done|done|].
  intros c Hin. rewrite Hold; [done|].
  unfold mro in Hin. rewrite Hc in Hin.
  destruct (ok_mro σ Hcok _ _ Hc) as (tail & Htail & Hall).
  rewrite Htail in Hin. apply elem_of_cons in Hin as [->|Hin]; [done|].
  pose proof (proj1 (Forall_forall _ _) Hall c Hin). simpl in *. lia.
Qed.

Section InstancesPreserve.

Context (call_type : hint -> string -> option value).
Context (value_eq : value -> value -> bool).
Context (fmt : formatter).

Lemma new_instances_ok (σ : world) (cls : nat) :
  instances_ok σ -> instances_ok (fst (new σ cls)).
Proof.
  intros Hok. apply (instances_ok_same_classes σ);
    [done|apply new_same_classes|].
  intros self inst'. unfold new.
  destruct (classes σ !! cls) as [cd|] eqn:Hc; [|by left].
  destruct (lookup_object σ cls) as [[id|]|]; try by left.
  simpl. intros [?|[_ Hnew]]%lookup_app_Some; [by left|]. right.
  apply list_lookup_singleton_Some in Hnew as [_ <-]. simpl.
  split; [by eexists|done].
Qed.

Lemma init_instances_ok (σ : world) (self : nat) (po : parser_options) (lazy : bool)
    (argv : list string) :
  instances_ok σ ->
  instances_ok (fst (init call_type value_eq fmt σ self po lazy argv)).
Proof.
  intros Hok. apply (instances_ok_same_classes σ);
    [done|apply init_same_classes|].
  intros self' inst'. unfold init.
  destruct (heap σ !! self) as [inst|] eqn:Hself; [|by left].
  destruct (register_all _ _) as [p|] eqn:Hreg; [|by left].
  destruct (Hok self inst Hself) as [Hc _].
  assert (Hins : ∀ args,
    <[self := {| i_class := i_class inst; i_arguments := args;
                 i_parser := Some p |}]> (heap σ) !! self' = Some inst' ->
    heap σ !! self' = Some inst' ∨
    (is_Some (classes σ !! i_class inst') ∧
     ∀ p0, i_parser inst' = Some p0 ->
       register_all (new_parser (p_options p0))
                    (sorted_registrations σ (i_class inst')) = Ok p0)).
  { intros args Hl. apply list_lookup_insert_Some in Hl as [(-> & <- & _)|[_ Hl]];
      [|by left].
    right. simpl. split; [done|]. intros p0 [= <-].
    pose proof (register_all_options _ _ _ Hreg) as Ho. simpl in Ho.
    by rewrite Ho. }
  destruct lazy; [apply Hins|].
  destruct (parse_args _ _ _ _ _); [apply Hins|by left].
Qed.

Lemma construct_instances_ok (σ : world) (cls : nat) (po : parser_options) (lazy : bool)
    (argv : list string) :
  instances_ok σ ->
  instances_ok (fst (construct call_type value_eq fmt σ cls po lazy argv)).
Proof.
  intros Hok. unfold construct.
  pose proof (new_instances_ok σ cls Hok) as Hnew.
  destruct (new σ cls) as [σ1 [obj|e]]; [|done].
  destruct (isinstance σ1 obj cls); [|done].
  pose proof (init_instances_ok σ1 obj po lazy argv Hnew) as Hinit.
  by destruct (init call_type value_eq fmt σ1 obj po lazy argv) as [σ2 [[]|e]].
Qed.

Lemma method_parse_args_instances_ok (σ : world) (self : nat)
    (parameter : string) :
  instances_ok σ ->
  instances_ok (fst (method_parse_args call_type value_eq fmt σ self parameter)).
Proof.
  intros Hok. apply (instances_ok_same_classes σ);
    [done|apply method_parse_args_same_classes|].
  intros self' inst'. unfold method_parse_args.
  destruct (heap σ !! self) as [inst|] eqn:Hself; [|by left].
  destruct (i_parser inst) as [p|] eqn:Hp; [|by left].
  destruct (parse_args _ _ _ _ _); [|by left]. simpl.
  destruct (Hok self inst Hself) as [Hc Hparser].
  intros [(-> & <- & _)|[_ Hl]]%list_lookup_insert_Some; [|by left].
  right. simpl. split; [done|]. intros p0 [= <-]. by apply Hparser.
Qed.

Lemma get_property_instances_ok (σ : world) (self : nat) (name : string) :
  instances_ok σ -> instances_ok (fst (get_property σ self name)).
Proof.
  intros Hok. apply (instances_ok_same_classes σ);
    [done|apply get_property_same_classes|].
  intros self' inst'. unfold get_property.
  destruct (heap σ !! self) as [inst|]; [|by left].
  destruct (class_getattr σ (i_class inst) name) as [w|]; [|by left].
  unfold call_wrapper. destruct (self_arguments σ self) as [ns|]; [|by left].
  destruct (ns_getattr ns _) as [v|]; [|by left].
  destruct (w_const w); [destruct v|]; by left.
Qed.

(** Every reachable state satisfies both invariants. *)
Lemma reachable_ok (σ : world) :
  reachable call_type value_eq fmt σ -> classes_ok σ ∧ instances_ok σ.
Proof.
  unfold reachable. revert σ.
  apply (rtc_ind_r (fun σ => classes_ok σ ∧ instances_ok σ)).
  - split; [apply initial_classes_ok|]. intros self inst H.
    by destruct self.
  - intros σ σ' _ Hstep [Hc Hi].
    split; [by eapply step_classes_ok|]. destruct Hstep.
    + by apply define_class_instances_ok.
    + by apply construct_instances_ok.
    + by apply method_parse_args_instances_ok.
    + by apply get_property_instances_ok.
Qed.

End InstancesPreserve.

Section Order.

Context (call_type : hint -> string -> option value).
Context (value_eq : value -> value -> bool).
Context (fmt : formatter).

(** Sequence numbers and registrations. In every reachable state: a class
    statement numbers the accessors of its body consecutively from the
    current counter, in definition order (each bound property carries the
    number of the position of its definition); numbers grow strictly from
    the declarations of a class to those of every class defined after it,
    and the ancestors of a class are defined before it; the list
    [__init__] registers is the collected declarations (own and
    inherited) in strictly ascending number order; and the parser of
    every object that has one holds, after [-h/--help], the flags of
    exactly that list for the class of the object, in that order. *)
Lemma sequence_numbers_and_registration (σ : world) :
  reachable call_type value_eq fmt σ ->
  (∀ parent body σ' cls,
     define_class σ parent body = (σ', Ok cls) ->
     num_arguments σ' = (num_arguments σ + length body)%nat ∧
     ∀ cd name w,
       classes σ' !! cls = Some cd -> cls_dict cd !! name = Some w ->
       ∃ k d, body !! k = Some d ∧ g_name (acc_getter d) = name ∧
              number w = (num_arguments σ + k)%nat ∧
              decorate (num_arguments σ + k) d
              = (Ok w, S (num_arguments σ + k)) ∧
              ∀ k' d', (k < k')%nat -> body !! k' = Some d' ->
                       g_name (acc_getter d') ≠ name) ∧
  (∀ c1 c2 cd1 cd2 n1 n2 w1 w2,
     classes σ !! c1 = Some cd1 -> classes σ !! c2 = Some cd2 ->
     cls_dict cd1 !! n1 = Some w1 -> cls_dict cd2 !! n2 = Some w2 ->
     (c1 < c2)%nat -> (number w1 < number w2)%nat) ∧
  (∀ c cd, classes σ !! c = Some cd ->
     ∃ tail, cls_mro cd = c :: tail ∧ Forall (fun c' => (c' < c)%nat) tail) ∧
  (∀ cls,
     StronglySorted number_lt (sorted_registrations σ cls) ∧
     sorted_registrations σ cls ≡ₚ registration_of <$> collect σ cls ∧
     ∀ w, w ∈ collect σ cls ↔ ∃ name, class_getattr σ cls name = Some w) ∧
  (∀ self inst p,
     heap σ !! self = Some inst -> i_parser inst = Some p ->
     a_option_strings <$> p_actions p
     = ["-h"; "--help"] :: (reg_flags <$> sorted_registrations σ (i_class inst))).
Proof.
  intros [Hcok Hiok]%reachable_ok. split; [|split; [|split; [|split]]].
  - intros parent body σ' cls. unfold define_class.
    destruct (classes σ !! parent) as [pd|]; [|discriminate].
    destruct (class_body (num_arguments σ) body ∅) as [[dict|e] num] eqn:Hbody;
      [|discriminate].
    destruct (class_body_spec _ _ _ _ _ Hbody) as [-> Hdict].
    intros [= <- <-]. simpl. split; [done|]. intros cd name w.
    rewrite lookup_app_r, Nat.sub_diag by done. simpl. intros [= <-]. simpl.
    intros Hw. destruct (Hdict name w Hw) as [[H0 _]|(k & d & Hk & Hn & Hd & Hl)].
    + by rewrite lookup_empty in H0.
    + exists k, d. destruct (decorate_ok _ _ _ _ Hd) as (_ & Hnum & _).
      by repeat split.
  - apply (ok_later σ Hcok).
  - apply (ok_mro σ Hcok).
  - intros cls. destruct (sorted_registrations_spec σ cls Hcok) as [Hs Hp].
    split; [done|]. split; [done|]. apply elem_of_collect.
  - intros self inst p Hself Hp.
    destruct (Hiok self inst Hself) as [_ Hreg].
    by rewrite (register_all_actions _ _ _ (Hreg p Hp)).
Qed.

End Order.

Lemma test_instance_reachable : reachable demo_call py_eq prints test_instance.
Proof.
  unfold reachable, test_instance, test_module.
  eapply rtc_l; [apply step_define|].
  eapply rtc_l; [apply step_define|].
  eapply rtc_l; [apply step_construct|].
  apply rtc_refl.
Qed.

Lemma sorted_registrations_of_the_tests :
  StronglySorted number_lt (sorted_registrations test_instance AdditionalArgument).
Proof.
  exact (proj1 (proj1 (proj2 (proj2 (proj2
           (sequence_numbers_and_registration demo_call py_eq prints
              test_instance test_instance_reachable)))) AdditionalArgument)).
Qed.

(** C8, at the failing input: [More] is a subclass of [Numbers] with the
    declaration [foo] of its own; its collected declarations are
    [numbers] and [foo], numbered 0 and 1. Once [Numbers] has been
    constructed, the call [More(lazy_parsing=True)] returns the object of
    [Numbers] (see C5) without running [__init__]: no second object
    exists, the parser of the object returned holds [--numbers] only, and
    [--foo] is refused as an unknown flag. Constructed first, [More]
    registers both flags in the order of their numbers. *)
Lemma C8_subclass_flags_not_registered :
  let r1 := construct demo_call py_eq prints more_module Numbers
              no_parser_options true [] in
  let r2 := construct demo_call py_eq prints (fst r1) More
              no_parser_options true [] in
  reg_number <$> sorted_registrations more_module More = [0; 1]%nat ∧
  reg_flags <$> sorted_registrations more_module More
  = [["--numbers"]; ["--foo"]] ∧
  snd r1 = Ok 0%nat ∧ snd r2 = Ok 0%nat ∧
  length (heap (fst r2)) = 1%nat ∧
  registered_flags (fst r2) 0 = Some [["-h"; "--help"]; ["--numbers"]] ∧
  snd (method_parse_args demo_call py_eq prints (fst r2) 0
         "--numbers 1 --foo x") = Raise SystemExit ∧
  registered_flags
    (fst (construct demo_call py_eq prints more_module More
            no_parser_options true [])) 0
  = Some [["-h"; "--help"]; ["--numbers"]; ["--foo"]].
Proof. repeat split; vm_compute; reflexivity. Qed.

(** ** The engine: what a parse leaves in the namespace *)

Lemma last_event_seen (i : nat) (evs : list event) :
  seen evs i = true ↔ is_Some (last_event i evs).
Proof.
  unfold seen. induction evs as [|ev evs IH]; simpl.
  - split; [done|by intros [? ?]].
  - destruct (last_event i evs) as [e|].
    + split; [by eexists|]. intros _. rewrite (proj2 IH) by (by eexists).
      apply orb_true_r.
    + destruct (ev_action ev =? i)%nat; simpl; [split; [by eexists|done]|].
      rewrite IH. done.
Qed.

Lemma last_event_action (i : nat) (evs : list event) (ev : event) :
  last_event i evs = Some ev -> ev_action ev = i ∧ ev ∈ evs.
Proof.
  induction evs as [|e evs IH]; simpl; [done|].
  destruct (last_event i evs) as [e'|].
  - intros [= <-]. destruct (IH eq_refl) as [? ?].
    split; [done|]. apply elem_of_cons. by right.
  - destruct (Nat.eqb_spec (ev_action e) i); [|done].
    intros [= <-]. split; [done|]. apply elem_of_cons. by left.
Qed.

Lemma initial_namespace_quiet (d : string) (l : list action) :
  Forall (quiet d) l ->
  ∀ ns : Namespace,
    foldl (fun (ns : Namespace) a =>
             match a_default a, ns !! a_dest a with
             | Some d0, None => <[a_dest a := d0]> ns
             | _, _ => ns
             end) ns l !! d = ns !! d.
Proof.
  induction 1 as [|b l Hb _ IH]; intros ns; simpl; [done|].
  rewrite IH. destruct Hb as [Hne|[_ Hdef]].
  - destruct (a_default b), (ns !! a_dest b); try done.
    by rewrite lookup_insert_ne.
  - by rewrite Hdef.
Qed.

Lemma owns_dest_split (p : parser) (i : nat) (a : action) :
  owns_dest p i a ->
  ∃ l1 l2, p_actions p = l1 ++ a :: l2 ∧ length l1 = i ∧
           Forall (quiet (a_dest a)) l1 ∧ Forall (quiet (a_dest a)) l2.
Proof.
  intros [Hi Hq]. exists (take i (p_actions p)), (drop (S i) (p_actions p)).
  split; [by rewrite take_drop_middle|].
  split; [apply length_take_le; apply lookup_lt_Some in Hi; lia|].
  split; apply Forall_forall; intros b Hb.
  - apply list_elem_of_lookup in Hb as [j Hj].
    pose proof (lookup_lt_Some _ _ _ Hj) as Hlt. rewrite length_take in Hlt.
    rewrite lookup_take_lt in Hj by lia. apply (Hq j b Hj). lia.
  - apply list_elem_of_lookup in Hb as [j Hj]. rewrite lookup_drop in Hj.
    apply (Hq _ b Hj). lia.
Qed.

(** Before any action is taken the destination holds the default. *)
Lemma initial_namespace_lookup (p : parser) (i : nat) (a : action) :
  owns_dest p i a ->
  initial_namespace p !! a_dest a = a_default a.
Proof.
  intros (l1 & l2 & Hp & _ & Hq1 & Hq2)%owns_dest_split.
  unfold initial_namespace. rewrite Hp, foldl_app. simpl.
  rewrite initial_namespace_quiet by done.
  pose proof (initial_namespace_quiet (a_dest a) l1 Hq1 ∅) as H1.
  rewrite lookup_empty in H1. rewrite H1.
  destruct (a_default a) as [v|]; [by rewrite lookup_insert_eq|done].
Qed.

Section Namespace.

Context (call_type : hint -> string -> option value).
Context (value_eq : value -> value -> bool).
Context (fmt : formatter).

Lemma take_action_quiet (p : parser) (ns ns' : Namespace) (ev : event)
    (b : action) (d : string) :
  take_action call_type value_eq fmt p ns ev = Ok ns' ->
  p_actions p !! ev_action ev = Some b -> quiet d b ->
  ns' !! d = ns !! d.
Proof.
  unfold take_action, get_action. intros H Hb Hq. rewrite Hb in H. simpl in H.
  destruct (get_values _ _ b _) as [v|]; [|discriminate]. simpl in H.
  destruct Hq as [Hne|[Hk _]].
  - destruct (a_kind b); try discriminate; injection H as <-;
      by rewrite lookup_insert_ne.
  - by rewrite Hk in H.
Qed.

Lemma take_action_own (p : parser) (ns ns' : Namespace) (ev : event)
    (a : action) :
  take_action call_type value_eq fmt p ns ev = Ok ns' ->
  p_actions p !! ev_action ev = Some a ->
  ∃ v, get_values call_type value_eq a (ev_args ev) = Ok v ∧
       ns' !! a_dest a = Some (stored a v).
Proof.
  unfold take_action, get_action, stored. intros H Ha. rewrite Ha in H.
  simpl in H.
  destruct (get_values _ _ a _) as [v|]; [|discriminate]. simpl in H.
  exists v. split; [done|].
  destruct (a_kind a); try discriminate; injection H as <-;
    by rewrite lookup_insert_eq.
Qed.

Lemma take_action_valid (p : parser) (ns ns' : Namespace) (ev : event) :
  take_action call_type value_eq fmt p ns ev = Ok ns' ->
  is_Some (p_actions p !! ev_action ev).
Proof.
  unfold take_action, get_action.
  destruct (p_actions p !! ev_action ev); [by eexists|discriminate].
Qed.

(** After the actions are taken the destination holds what the last
    occurrence of its action stored, or what it held before. *)
Lemma take_actions_lookup (p : parser) (i : nat) (a : action)
    (evs : list event) :
  owns_dest p i a ->
  ∀ ns ns', take_actions call_type value_eq fmt p ns evs = Ok ns' ->
    match last_event i evs with
    | Some ev => ∃ v, get_values call_type value_eq a (ev_args ev) = Ok v ∧
                      ns' !! a_dest a = Some (stored a v)
    | None => ns' !! a_dest a = ns !! a_dest a
    end.
Proof.
  intros [Hi Hq]. induction evs as [|ev evs IH]; intros ns ns'; simpl.
  - by intros [= <-].
  - destruct (take_action call_type value_eq fmt p ns ev) as [ns1|] eqn:Hev;
      [|discriminate]. simpl. intros Hrest.
    specialize (IH ns1 ns' Hrest).
    destruct (last_event i evs) as [e|]; [done|].
    rewrite IH. destruct (Nat.eqb_spec (ev_action ev) i) as [Heq|Hne].
    + rewrite <- Heq in Hi. by apply (take_action_own p ns ns1 ev a).
    + destruct (take_action_valid p ns ns1 ev Hev) as [b Hb].
      apply (take_action_quiet p ns ns1 ev b); [done..|]. by apply (Hq _ b Hb).
Qed.

Lemma finish_quiet (d : string) (evs : list event) (l : list action) :
  Forall (quiet d) l ->
  ∀ k ns ns', finish call_type evs k l ns = Ok ns' -> ns' !! d = ns !! d.
Proof.
  induction 1 as [|b l Hb _ IH]; intros k ns ns'; simpl; [by intros [= <-]|].
  destruct (seen evs k); [apply IH|].
  destruct (a_required b); [discriminate|].
  destruct (a_default b) as [[]|] eqn:Hdef; try apply IH.
  destruct (is_str s (ns !! a_dest b)); [|apply IH].
  destruct (get_value call_type b s) as [v|]; [|discriminate]. simpl.
  intros ->%IH. destruct Hb as [Hne|[_ Hnone]]; [|congruence].
  by rewrite lookup_insert_ne.
Qed.

(** The closing pass: a seen action's destination is left alone; an unseen
    action is not required, and its destination changes only when it still
    holds the action's string default, which is then converted. *)
Lemma finish_lookup (evs : list event) (a : action) (l1 l2 : list action) :
  Forall (quiet (a_dest a)) l1 -> Forall (quiet (a_dest a)) l2 ->
  ∀ k ns ns',
    finish call_type evs k (l1 ++ a :: l2) ns = Ok ns' ->
    if seen evs (k + length l1)
    then ns' !! a_dest a = ns !! a_dest a
    else a_required a = false ∧
         match a_default a with
         | Some (VStr s) =>
             if is_str s (ns !! a_dest a)
             then ∃ v, get_value call_type a s = Ok v ∧
                       ns' !! a_dest a = Some v
             else ns' !! a_dest a = ns !! a_dest a
         | _ => ns' !! a_dest a = ns !! a_dest a
         end.
Proof.
  intros Hq1 Hq2. induction Hq1 as [|b l1 Hb _ IH]; intros k ns ns'; simpl.
  - rewrite Nat.add_0_r. destruct (seen evs k); [by apply finish_quiet|].
    destruct (a_required a); [discriminate|]. intros H. split; [done|].
    destruct (a_default a) as [[]|]; try by eapply finish_quiet.
    destruct (is_str s (ns !! a_dest a)); [|by eapply finish_quiet].
    destruct (get_value call_type a s) as [v|]; [|discriminate]. simpl in H.
    exists v. split; [done|].
    rewrite (finish_quiet _ _ _ Hq2 _ _ _ H). by rewrite lookup_insert_eq.
  - replace (k + S (length l1))%nat with (S k + length l1)%nat by lia.
    assert (Hstep : ∀ ns1, ns1 !! a_dest a = ns !! a_dest a ->
              finish call_type evs (S k) (l1 ++ a :: l2) ns1 = Ok ns' ->
              if seen evs (S k + length l1)
              then ns' !! a_dest a = ns !! a_dest a
              else a_required a = false ∧
                   match a_default a with
                   | Some (VStr s) =>
                       if is_str s (ns !! a_dest a)
                       then ∃ v, get_value call_type a s = Ok v ∧
                                 ns' !! a_dest a = Some v
                       else ns' !! a_dest a = ns !! a_dest a
                   | _ => ns' !! a_dest a = ns !! a_dest a
                   end).
    { intros ns1 Heq H1. specialize (IH (S k) ns1 ns' H1).
      by rewrite Heq in IH. }
    destruct (seen evs k); [by apply Hstep|].
    destruct (a_required b); [discriminate|].
    destruct (a_default b) as [[]|] eqn:Hdef; try by apply Hstep.
    destruct (is_str s (ns !! a_dest b)); [|by apply Hstep].
    destruct (get_value call_type b s) as [v|]; [|discriminate]. simpl.
    apply Hstep. destruct Hb as [Hne|[_ Hnone]]; [|congruence].
    by rewrite lookup_insert_ne.
Qed.

End Namespace.

(** ** The engine: how a parse fails *)

Lemma new_parser_ok (o : parser_options) : parser_ok (new_parser o).
Proof.
  intros s i. unfold new_parser. simpl.
  intros [[_ <-]|[_ [[_ <-]|[_ H]]%lookup_insert_Some]]%lookup_insert_Some;
    [by eexists..|by rewrite lookup_empty in H].
Qed.

Lemma foldl_insert_lookup (idx : nat) (args : list string) :
  ∀ (m : gmap string nat) s i,
    foldl (fun m s => <[s := idx]> m) m args !! s = Some i ->
    i = idx ∨ m !! s = Some i.
Proof.
  induction args as [|t args IH]; intros m s i; simpl; [by right|].
  intros [->|H]%IH; [by left|].
  apply lookup_insert_Some in H as [[_ <-]|[_ H]]; [by left|by right].
Qed.

Lemma add_argument_ok (p p' : parser) (args : list string) (kw : kwds) :
  parser_ok p -> add_argument p args kw = Ok p' -> parser_ok p'.
Proof.
  intros Hok (a & dest & k & _ & _ & _ & _ & Hacts & Hmap & _)%add_argument_inv.
  intros s i. rewrite Hmap, Hacts. intros [->|H]%foldl_insert_lookup.
  - rewrite lookup_app_r, Nat.sub_diag by done. by eexists.
  - destruct (Hok s i H) as [b Hb]. exists b. by apply lookup_app_l_Some.
Qed.

Lemma register_all_ok (regs : list registration) :
  ∀ p p', parser_ok p -> register_all p regs = Ok p' -> parser_ok p'.
Proof.
  induction regs as [|r regs IH]; intros p p' Hok; simpl.
  - by intros [= <-].
  - destruct (add_argument p _ (reg_kwds r)) as [p1|] eqn:Hadd; [|discriminate].
    simpl. apply IH. by eapply add_argument_ok.
Qed.

Lemma get_option_tuples_valid (p : parser) (s : string) i k e :
  parser_ok p -> (i, k, e) ∈ get_option_tuples p s ->
  is_Some (p_actions p !! i).
Proof.
  intros Hok. unfold get_option_tuples.
  destruct (long_option s).
  - destruct (split_first "=" s) as [[a b]|];
      intros ([k' i'] & Hin & Hf)%list_elem_of_omap;
      apply elem_of_map_to_list in Hin;
      destruct (starts_with _ k'); try discriminate;
      injection Hf as <- _ _; by eapply Hok.
  - intros ([k' i'] & Hin & Hf)%list_elem_of_omap.
    apply elem_of_map_to_list in Hin.
    destruct (String.eqb k' _); [injection Hf as <- _ _; by eapply Hok|].
    destruct (starts_with s k'); [|discriminate].
    injection Hf as <- _ _; by eapply Hok.
Qed.

Lemma parse_optional_spec (p : parser) (s : string) :
  parser_ok p ->
  match parse_optional p s with
  | Ok c => tok_valid p c
  | Raise e => e = ArgumentError
  end.
Proof.
  intros Hok. unfold parse_optional.
  destruct (String.eqb s ""); [done|].
  destruct (negb (head_is_dash s)); [done|].
  destruct (p_option_string_actions p !! s) as [i|] eqn:Hs; [by eapply Hok|].
  destruct (String.length s =? 1)%nat; [done|].
  destruct (split_first "=" s) as [[os ea]|].
  - destruct (p_option_string_actions p !! os) as [i|] eqn:Hos; [by eapply Hok|].
    destruct (get_option_tuples p s) as [|[[i k] e] [|? ?]] eqn:Ht; [|..|done].
    + destruct (negative_number s && _); [done|].
      by destruct (str_contains _ s).
    + simpl. eapply (get_option_tuples_valid p s i k e); [done|].
      rewrite Ht. apply elem_of_cons. by left.
  - destruct (get_option_tuples p s) as [|[[i k] e] [|? ?]] eqn:Ht; [|..|done].
    + destruct (negative_number s && _); [done|].
      by destruct (str_contains _ s).
    + simpl. eapply (get_option_tuples_valid p s i k e); [done|].
      rewrite Ht. apply elem_of_cons. by left.
Qed.

Lemma classify_spec (p : parser) (toks : list string) :
  parser_ok p ->
  match classify p toks with
  | Ok pat => Forall (tok_valid p) pat
  | Raise e => e = ArgumentError
  end.
Proof.
  intros Hok. induction toks as [|t toks IH]; simpl; [done|].
  destruct (String.eqb t "--").
  - constructor; [done|]. apply Forall_forall.
    intros c (? & <- & _)%list_elem_of_In%in_map_iff. done.
  - pose proof (parse_optional_spec p t Hok) as Ht.
    destruct (parse_optional p t) as [c|]; [|done]. simpl.
    destruct (classify p toks) as [cs|]; [|done]. simpl. by constructor.
Qed.

Lemma match_argument_raise (a : action) (pat : list tok_class) (e : exn) :
  match_argument a pat = Raise e -> e = ArgumentError.
Proof.
  unfold match_argument, error.
  destruct (a_nargs a); repeat case_match; try discriminate; by intros [= <-].
Qed.

Lemma consume_plain_spec (p : parser) (rest : list string)
    (pat : list tok_class) (i : nat) :
  is_Some (p_actions p !! i) ->
  match consume_plain p rest pat i with
  | Ok (evs, _) => Forall (event_valid p) evs
  | Raise e => e = ArgumentError
  end.
Proof.
  intros [a Ha]. unfold consume_plain, get_action. rewrite Ha. simpl.
  destruct (match_argument a pat) as [n|e] eqn:Hm; simpl.
  - constructor; [|done]. by exists a.
  - by eapply match_argument_raise.
Qed.

Lemma consume_explicit_spec (p : parser) (rest : list string)
    (pat : list tok_class) (e : string) :
  parser_ok p ->
  ∀ i option_string, is_Some (p_actions p !! i) ->
    match consume_explicit p rest pat i option_string e with
    | Ok (evs, _) => Forall (event_valid p) evs
    | Raise x => x = ArgumentError
    end.
Proof.
  intros Hok. induction e as [|c e IH]; intros i os [a Ha]; simpl;
    unfold get_action; rewrite Ha; simpl.
  - destruct (match_argument a [TokA]) as [n|x] eqn:Hm; simpl;
      [|by eapply match_argument_raise].
    rewrite andb_false_r.
    destruct (n =? 1)%nat; [|done]. constructor; [by exists a|done].
  - destruct (match_argument a [TokA]) as [n|x] eqn:Hm; simpl;
      [|by eapply match_argument_raise].
    destruct ((n =? 0)%nat && negb (long_option os) && nonempty (String c e)).
    + destruct (p_option_string_actions p !! String dash (String c "")) as [j|]
        eqn:Hj; [|done].
      pose proof (Hok _ _ Hj) as Hvalid.
      assert (Hsub : match (match e with
                            | "" => consume_plain p rest pat j
                            | String _ _ =>
                                consume_explicit p rest pat j
                                  (String dash (String c "")) e
                            end) with
                     | Ok (evs, _) => Forall (event_valid p) evs
                     | Raise x => x = ArgumentError
                     end).
      { destruct e; [by apply consume_plain_spec|by apply IH]. }
      destruct (match e with "" => _ | String _ _ => _ end) as [[evs n']|x];
        [|done]. simpl. constructor; [by exists a|done].
    + destruct (n =? 1)%nat; [|done]. constructor; [by exists a|done].
Qed.

Lemma scan_spec (p : parser) (toks : list string) :
  parser_ok p ->
  ∀ pat skip, Forall (tok_valid p) pat ->
    match scan p toks pat skip with
    | Ok (evs, _) => Forall (event_valid p) evs
    | Raise e => e = ArgumentError
    end.
Proof.
  intros Hok. induction toks as [|t toks IH]; intros pat skip Hpat; simpl;
    [done|].
  destruct pat as [|c pat]; [done|].
  apply Forall_cons in Hpat as [Hc Hpat].
  destruct skip as [|k]; [|by apply IH].
  assert (Hextra : match (scan p toks pat 0 ≫= fun '(evs, extras) =>
                            Ok (evs, t :: extras)) with
                   | Ok (evs, _) => Forall (event_valid p) evs
                   | Raise e => e = ArgumentError
                   end).
  { specialize (IH pat 0%nat Hpat).
    by destruct (scan p toks pat 0) as [[evs ex]|]. }
  destruct c as [| |[i|] os ea]; try done.
  assert (Hfirst : match (match ea with
                          | None => consume_plain p toks pat i
                          | Some e => consume_explicit p toks pat i os e
                          end) with
                   | Ok (evs, _) => Forall (event_valid p) evs
                   | Raise e => e = ArgumentError
                   end).
  { destruct ea; [by apply consume_explicit_spec|by apply consume_plain_spec]. }
  destruct (match ea with None => _ | Some e => _ end) as [[evs1 n]|]; [|done].
  simpl. specialize (IH pat n Hpat).
  destruct (scan p toks pat n) as [[evs ex]|]; [|done]. simpl.
  by apply Forall_app.
Qed.

Section Exits.

Context (call_type : hint -> string -> option value).
Context (value_eq : value -> value -> bool).
Context (fmt : formatter).

Lemma get_value_raise (a : action) (s : string) (e : exn) :
  get_value call_type a s = Raise e -> e = ArgumentError.
Proof.
  unfold get_value, error. destruct (a_type a); [|discriminate].
  destruct (call_type _ s); [discriminate|]. by intros [= <-].
Qed.

Lemma get_checked_raise (a : action) (s : string) (e : exn) :
  get_checked call_type value_eq a s = Raise e -> e = ArgumentError.
Proof.
  unfold get_checked.
  destruct (get_value call_type a s) as [v|x] eqn:Hv; simpl;
    [|intros [= <-]; by eapply get_value_raise].
  unfold check_value, error. destruct (a_choices a); [|discriminate].
  destruct (existsb _ _); [discriminate|]. by intros [= <-].
Qed.

Lemma get_all_raise (a : action) (args : list string) (e : exn) :
  get_all call_type value_eq a args = Raise e -> e = ArgumentError.
Proof.
  induction args as [|s args IH]; simpl; [discriminate|].
  destruct (get_checked call_type value_eq a s) as [v|x] eqn:Hv; simpl;
    [|intros [= <-]; by eapply get_checked_raise].
  destruct (get_all call_type value_eq a args); [discriminate|].
  simpl. intros [= <-]. by apply IH.
Qed.

Lemma get_values_raise (a : action) (args : list string) (e : exn) :
  get_values call_type value_eq a args = Raise e -> e = ArgumentError.
Proof.
  unfold get_values.
  assert (Hall : ∀ l, (get_all call_type value_eq a l ≫= fun vs => Ok (VList vs))
                      = Raise e -> e = ArgumentError).
  { intros l. destruct (get_all call_type value_eq a l) eqn:Hl; [discriminate|].
    simpl. intros [= <-]. by eapply get_all_raise. }
  destruct (a_nargs a); try apply Hall.
  destruct (remove_first "--" args) as [|s [|? ?]]; try apply Hall.
  apply get_checked_raise.
Qed.

Lemma take_actions_raise (p : parser) (evs : list event) :
  Forall (event_valid p) evs ->
  ∀ ns e, take_actions call_type value_eq fmt p ns evs = Raise e ->
          e = ArgumentError ∨ e = help_exit fmt p.
Proof.
  induction 1 as [|ev evs [a Ha] _ IH]; intros ns e; simpl; [discriminate|].
  destruct (take_action call_type value_eq fmt p ns ev) as [ns1|x] eqn:Hev; simpl;
    [apply IH|].
  intros [= <-]. unfold take_action, get_action in Hev. rewrite Ha in Hev.
  simpl in Hev.
  destruct (get_values call_type value_eq a (ev_args ev)) as [v|y] eqn:Hv;
    simpl in Hev.
  - destruct (a_kind a); try discriminate. injection Hev as <-. by right.
  - injection Hev as <-. left. by eapply get_values_raise.
Qed.

Lemma take_actions_app (p : parser) (evs1 evs2 : list event) :
  ∀ ns, take_actions call_type value_eq fmt p ns (evs1 ++ evs2)
        = take_actions call_type value_eq fmt p ns evs1 ≫=
            fun ns1 => take_actions call_type value_eq fmt p ns1 evs2.
Proof.
  induction evs1 as [|ev evs1 IH]; intros ns; simpl; [done|].
  destruct (take_action call_type value_eq fmt p ns ev) as [ns1|]; simpl;
    [apply IH|done].
Qed.

Lemma finish_raise (evs : list event) (l : list action) :
  ∀ k ns e, finish call_type evs k l ns = Raise e -> e = ArgumentError.
Proof.
  induction l as [|b l IH]; intros k ns e; simpl; [discriminate|].
  destruct (seen evs k); [apply IH|].
  destruct (a_required b); [by intros [= <-]|].
  destruct (a_default b) as [[]|]; try apply IH.
  destruct (is_str s _); [|apply IH].
  destruct (get_value call_type b s) as [v|x] eqn:Hv; simpl; [apply IH|].
  intros [= <-]. by eapply get_value_raise.
Qed.

(** The loop takes the actions of the occurrences it finds, in their
    order: it succeeds exactly when the occurrences are found and the
    actions can be taken one after the other. *)
Lemma run_Ok (p : parser) (toks : list string) :
  ∀ pat skip ns ns' evs extras,
    run call_type value_eq fmt p toks pat skip ns = Ok (ns', evs, extras) ↔
    scan p toks pat skip = Ok (evs, extras) ∧
    take_actions call_type value_eq fmt p ns evs = Ok ns'.
Proof.
  induction toks as [|t toks IH]; intros pat skip ns ns' evs extras; simpl.
  - split; [by intros [= <- <- <-]|]. by intros [[= <- <-] [= <-]].
  - destruct pat as [|c pat].
    { split; [by intros [= <- <- <-]|]. by intros [[= <- <-] [= <-]]. }
    destruct skip as [|k]; [|apply IH].
    assert (Hextra :
      (run call_type value_eq fmt p toks pat 0 ns ≫=
         fun '(ns2, evs0, extras0) => Ok (ns2, evs0, t :: extras0))
      = Ok (ns', evs, extras) ↔
      (scan p toks pat 0 ≫= fun '(evs0, extras0) => Ok (evs0, t :: extras0))
      = Ok (evs, extras) ∧
      take_actions call_type value_eq fmt p ns evs = Ok ns').
    { split.
      - destruct (run call_type value_eq fmt p toks pat 0 ns)
          as [[[ns2 evs0] extras0]|] eqn:Hrun; [|discriminate].
        simpl. intros [= <- <- <-].
        apply IH in Hrun as [-> Ht]. done.
      - destruct (scan p toks pat 0) as [[evs0 extras0]|] eqn:Hscan;
          [|by intros [? _]].
        simpl. intros [[= <- <-] Ht].
        by rewrite (proj2 (IH pat 0%nat ns ns' evs0 extras0) (conj Hscan Ht)). }
    destruct c as [| |[i|] os ea]; try exact Hextra.
    destruct (match ea with
              | None => consume_plain p toks pat i
              | Some e => consume_explicit p toks pat i os e
              end) as [[evs1 n]|]; simpl; [|by split; [|intros [? _]]].
    split.
    + destruct (take_actions call_type value_eq fmt p ns evs1) as [ns1|]
        eqn:Ht1; [|discriminate]. simpl.
      destruct (run call_type value_eq fmt p toks pat n ns1)
        as [[[ns2 evs0] extras0]|] eqn:Hrun; [|discriminate].
      simpl. intros [= <- <- <-].
      apply IH in Hrun as [-> Ht]. split; [done|].
      by rewrite take_actions_app, Ht1.
    + destruct (scan p toks pat n) as [[evs0 extras0]|] eqn:Hscan;
        [|by intros [? _]].
      simpl. intros [[= <- <-] Ht]. rewrite take_actions_app in Ht.
      destruct (take_actions call_type value_eq fmt p ns evs1) as [ns1|];
        [|discriminate]. simpl in Ht. simpl.
      by rewrite (proj2 (IH pat n ns1 ns' evs0 extras0) (conj Hscan Ht)).
Qed.

Lemma run_raise (p : parser) (toks : list string) :
  parser_ok p ->
  ∀ pat skip ns e, Forall (tok_valid p) pat ->
    run call_type value_eq fmt p toks pat skip ns = Raise e ->
    e = ArgumentError ∨ e = help_exit fmt p.
Proof.
  intros Hok. induction toks as [|t toks IH]; intros pat skip ns e Hpat; simpl;
    [discriminate|].
  destruct pat as [|c pat]; [discriminate|].
  apply Forall_cons in Hpat as [Hc Hpat].
  destruct skip as [|k]; [|by apply IH].
  assert (Hextra :
    (run call_type value_eq fmt p toks pat 0 ns ≫=
       fun '(ns2, evs0, extras0) => Ok (ns2, evs0, t :: extras0)) = Raise e ->
    e = ArgumentError ∨ e = help_exit fmt p).
  { destruct (run call_type value_eq fmt p toks pat 0 ns)
      as [[[ns2 evs0] extras0]|x] eqn:Hrun; [discriminate|].
    simpl. intros [= <-]. by eapply IH. }
  destruct c as [| |[i|] os ea]; try exact Hextra.
  assert (Hfirst : match (match ea with
                          | None => consume_plain p toks pat i
                          | Some e => consume_explicit p toks pat i os e
                          end) with
                   | Ok (evs, _) => Forall (event_valid p) evs
                   | Raise e => e = ArgumentError
                   end).
  { destruct ea; [by apply consume_explicit_spec|by apply consume_plain_spec]. }
  destruct (match ea with None => _ | Some e => _ end) as [[evs1 n]|x]; simpl;
    [|intros [= <-]; by left].
  destruct (take_actions call_type value_eq fmt p ns evs1) as [ns1|x] eqn:Ht1;
    simpl; [|intros [= <-]; by eapply take_actions_raise].
  destruct (run call_type value_eq fmt p toks pat n ns1)
    as [[[ns2 evs0] extras0]|x] eqn:Hrun; [discriminate|].
  simpl. intros [= <-]. by eapply IH.
Qed.

(** A successful parse is one in which the occurrences are found, with
    nothing left over, their actions are taken in order and the closing
    pass succeeds. *)
Lemma parse_args_Ok (p : parser) (toks : list string) (ns : Namespace) :
  parse_args call_type value_eq fmt p toks = Ok ns ↔
  ∃ evs ns1,
    occurrences p toks = Ok (evs, []) ∧
    take_actions call_type value_eq fmt p (initial_namespace p) evs = Ok ns1 ∧
    finish call_type evs 0 (p_actions p) ns1 = Ok ns.
Proof.
  unfold parse_args, parse_known_args, occurrences.
  destruct (classify p toks) as [pat|x]; simpl.
  - split.
    + destruct (run call_type value_eq fmt p toks pat 0 (initial_namespace p))
        as [[[ns1 evs] extras]|x] eqn:Hrun; simpl; [|by destruct x].
      apply run_Ok in Hrun as [Hscan Ht].
      destruct (finish call_type evs 0 (p_actions p) ns1) as [ns2|x] eqn:Hf;
        simpl; [|by destruct x].
      destruct extras; [|discriminate]. intros [= <-]. by exists evs, ns1.
    + intros (evs & ns1 & Hscan & Ht & Hf).
      rewrite (proj2 (run_Ok p toks pat 0 _ ns1 evs []) (conj Hscan Ht)).
      simpl. by rewrite Hf.
  - split; [by destruct x|]. by intros (evs & ns1 & ? & _).
Qed.

(** The engine signals every rejected input by what [parser.error]
    raises, or by what the help action raises. *)
Lemma parse_args_raise (p : parser) (toks : list string) (e : exn) :
  parser_ok p ->
  parse_args call_type value_eq fmt p toks = Raise e ->
  e = usage_error fmt p ∨ e = help_exit fmt p.
Proof.
  intros Hok. unfold parse_args, parse_known_args.
  pose proof (classify_spec p toks Hok) as Hc.
  destruct (classify p toks) as [pat|x]; simpl;
    [|subst x; intros [= <-]; by left].
  destruct (run call_type value_eq fmt p toks pat 0 (initial_namespace p))
    as [[[ns1 evs] extras]|x] eqn:Hrun; simpl.
  - destruct (finish call_type evs 0 (p_actions p) ns1) as [ns2|x] eqn:Hf;
      simpl.
    + destruct extras; [discriminate|]. intros [= <-]. by left.
    + apply finish_raise in Hf as ->. intros [= <-]. by left.
  - apply (run_raise p toks Hok pat 0 _ x Hc) in Hrun as [-> | ->].
    + intros [= <-]. by left.
    + destruct (help_exit fmt p) eqn:Hh; intros [= <-]; auto.
Qed.

(** What a successful parse leaves at the destination of an action that
    alone writes it: the value stored by the last occurrence of the action,
    or, when the action does not occur, its default (converted when it is a
    string); an action that does not occur is not required. *)
Lemma parse_args_lookup (p : parser) (i : nat) (a : action)
    (toks : list string) (ns : Namespace) :
  owns_dest p i a ->
  parse_args call_type value_eq fmt p toks = Ok ns ->
  ∃ evs, occurrences p toks = Ok (evs, []) ∧
    match last_event i evs with
    | Some ev => ∃ v, get_values call_type value_eq a (ev_args ev) = Ok v ∧
                      ns !! a_dest a = Some (stored a v)
    | None =>
        a_required a = false ∧
        match a_default a with
        | Some (VStr s) => ∃ v, get_value call_type a s = Ok v ∧
                                ns !! a_dest a = Some v
        | d => ns !! a_dest a = d
        end
    end.
Proof.
  intros Hown (evs & ns1 & Hocc & Ht & Hf)%parse_args_Ok.
  exists evs. split; [done|].
  pose proof (take_actions_lookup call_type value_eq fmt p i a evs Hown _ _ Ht) as Hl.
  destruct (owns_dest_split p i a Hown) as (l1 & l2 & Hp & Hlen & Hq1 & Hq2).
  rewrite Hp in Hf.
  pose proof (finish_lookup call_type evs a l1 l2 Hq1 Hq2 _ _ _ Hf) as Hfin.
  simpl in Hfin. rewrite Hlen in Hfin.
  pose proof (last_event_seen i evs) as Hseen.
  destruct (last_event i evs) as [ev|].
  - rewrite (proj2 Hseen) in Hfin by (by eexists).
    destruct Hl as (v & Hv & Hns). exists v. split; [done|]. congruence.
  - destruct (seen evs i); [by destruct (proj1 Hseen eq_refl)|].
    destruct Hfin as [Hreq Hfin]. split; [done|].
    rewrite (initial_namespace_lookup p i a Hown) in Hl.
    rewrite Hl in Hfin.
    destruct (a_default a) as [[]|]; try congruence.
    unfold is_str in Hfin. rewrite String.eqb_refl in Hfin. done.
Qed.

End Exits.

(** ** From a declaration to its action *)

Lemma register_all_made (regs : list registration) :
  ∀ p p', register_all p regs = Ok p' ->
    ∃ acts, p_actions p' = p_actions p ++ acts ∧ Forall2 made_from regs acts.
Proof.
  induction regs as [|r regs IH]; intros p p'; simpl.
  - intros [= <-]. exists []. by rewrite app_nil_r.
  - destruct (add_argument p _ (reg_kwds r)) as [p1|] eqn:Hadd; [|discriminate].
    simpl. intros (acts & Hacts & Hall)%IH.
    apply add_argument_inv in Hadd
      as (a & dest & k & Hd & Hk & Ha & _ & Hp1 & _).
    exists (a :: acts). split.
    + by rewrite Hacts, Hp1, <- app_assoc.
    + constructor; [|done]. by exists dest, k.
Qed.

Lemma made_from_fields (r : registration) (a : action) :
  made_from r a ->
  a_option_strings a = reg_flags r ∧ a_kind a ≠ HelpAction ∧
  registration_dest (reg_flags r) (reg_kwds r) = Ok (a_dest a).
Proof.
  intros (dest & k & Hd & Hk & Ha).
  pose proof (read_action_kind_not_help _ _ Hk) as Hnh.
  destruct (make_action_fields _ _ _ _ _ Hnh Ha) as (Hs & Hdest & Hkind).
  rewrite Hkind, Hdest. done.
Qed.

Lemma collect_bound (σ : world) (cls : nat) (w : wrapper) :
  classes_ok σ -> w ∈ collect σ cls ->
  class_getattr σ cls (g_name (w_getter w)) = Some w.
Proof.
  intros Hok (name & Hget)%elem_of_collect.
  destruct (class_getattr_Some σ cls name w Hget) as (c & cd & _ & Hc & Hw).
  destruct (ok_name σ Hok c cd name w Hc Hw) as (-> & _). done.
Qed.

Lemma dests_ok_elem (σ : world) (cls : nat) (w : wrapper) :
  dests_ok σ cls = true -> w ∈ collect σ cls ->
  registration_dest (reg_flags (registration_of w)) (reg_kwds (registration_of w))
  = Ok (g_name (w_getter w)).
Proof.
  unfold dests_ok. rewrite forallb_forall. intros Hall Hw%list_elem_of_In.
  specialize (Hall w Hw). unfold dest_ok in Hall.
  destruct (registration_dest _ _) as [d|]; [|done].
  by apply String.eqb_eq in Hall as ->.
Qed.

(** In the parser [__init__] builds, a declaration of the class has its
    action, and when the destinations are the getter names no other action
    writes that destination. *)
Lemma accessor_owns_dest (σ : world) (cls : nat) (p : parser) (name : string)
    (w : wrapper) :
  classes_ok σ ->
  register_all (new_parser (p_options p)) (sorted_registrations σ cls) = Ok p ->
  dests_ok σ cls = true ->
  class_getattr σ cls name = Some w ->
  ∃ i a, owns_dest p i a ∧ made_from (registration_of w) a ∧ a_dest a = name.
Proof.
  intros Hok Hreg Hdests Hget.
  assert (Hw : w ∈ collect σ cls) by (apply elem_of_collect; by exists name).
  assert (Hname : g_name (w_getter w) = name).
  { pose proof (collect_bound σ cls w Hok Hw) as Hb.
    destruct (class_getattr_Some σ cls name w Hget) as (c & cd & _ & Hc & Hcw).
    by destruct (ok_name σ Hok c cd name w Hc Hcw) as (-> & _). }
  destruct (register_all_made _ _ _ Hreg) as (acts & Hacts & Hall).
  destruct (sorted_registrations_spec σ cls Hok) as [Hsorted Hperm].
  assert (Hnd : NoDup (sorted_registrations σ cls)).
  { apply (NoDup_fmap_1 reg_number). rewrite Hperm, <- list_fmap_compose.
    rewrite (list_fmap_ext _ number (collect σ cls));
      [by apply collect_numbers_NoDup|].
    intros ? ? _. apply reg_number_registration_of. }
  assert (Hin : registration_of w ∈ sorted_registrations σ cls).
  { rewrite Hperm. by apply list_elem_of_fmap_2. }
  apply list_elem_of_lookup in Hin as [k Hk].
  destruct (Forall2_lookup_l _ _ _ _ _ Hall Hk) as (a & Ha & Hmade).
  destruct (made_from_fields _ _ Hmade) as (_ & _ & Hdest).
  rewrite (dests_ok_elem σ cls w Hdests Hw), Hname in Hdest.
  injection Hdest as Hdest.
  exists (S k), a. split; [|done]. split.
  - rewrite Hacts. simpl. done.
  - intros j b Hj Hne. rewrite Hacts in Hj. destruct j as [|j]; simpl in Hj.
    + injection Hj as <-. right. done.
    + left. destruct (Forall2_lookup_r _ _ _ _ _ Hall Hj) as (r' & Hr' & Hmade').
      assert (Hin' : r' ∈ registration_of <$> collect σ cls).
      { rewrite <- Hperm. by eapply list_elem_of_lookup_2. }
      apply list_elem_of_fmap in Hin' as (w' & -> & Hw').
      destruct (made_from_fields _ _ Hmade') as (_ & _ & Hdest').
      rewrite (dests_ok_elem σ cls w' Hdests Hw') in Hdest'.
      injection Hdest' as Hdest'. rewrite <- Hdest', <- Hdest.
      intros Heq. pose proof (collect_bound σ cls w' Hok Hw') as Hb'.
      rewrite Heq, Hget in Hb'. injection Hb' as <-.
      pose proof (NoDup_lookup _ _ _ _ Hnd Hk Hr'). lia.
Qed.

Lemma decorate_wrapper (n n' : nat) (d : accessor_def) (w : wrapper) :
  decorate n d = (Ok w, n') ->
  w_getter w = acc_getter d ∧
  info_name (w_info w) = acc_options d ≫= opt_name ∧
  compile (acc_getter d) (decorator_kwds d)
  = Ok (w_const w, info_kwds (w_info w)).
Proof.
  rewrite decorate_compile. unfold generate.
  destruct (compile _ _) as [[b kw]|]; [|discriminate].
  by intros [= <- _].
Qed.

(** The keys [argument] never sets. *)
Lemma decorator_kwds_None (d : accessor_def) (k : string) :
  k ≠ "nargs" -> k ≠ "const" -> k ≠ "choices" -> k ≠ "metavar" ->
  decorator_kwds d !! k = None.
Proof.
  intros. unfold decorator_kwds, argument_kwds.
  destruct (acc_options d) as [o|]; [|apply lookup_empty].
  destruct (opt_metavar o), (opt_choices o), (opt_const o), (opt_nargs o);
    by simplify_map_eq.
Qed.

Lemma decorator_kwds_nargs (d : accessor_def) :
  decorator_kwds d !! "nargs" = nargs_obj <$> (acc_options d ≫= opt_nargs).
Proof.
  unfold decorator_kwds, argument_kwds.
  destruct (acc_options d) as [o|]; [|apply lookup_empty]. simpl.
  destruct (opt_metavar o), (opt_choices o), (opt_const o), (opt_nargs o);
    by simplify_map_eq.
Qed.

Lemma decorator_kwds_choices (d : accessor_def) :
  decorator_kwds d !! "choices"
  = (fun c => OVal (VList c)) <$> (acc_options d ≫= opt_choices).
Proof.
  unfold decorator_kwds, argument_kwds.
  destruct (acc_options d) as [o|]; [|apply lookup_empty]. simpl.
  destruct (opt_metavar o), (opt_choices o), (opt_const o), (opt_nargs o);
    by simplify_map_eq.
Qed.

Lemma decorator_kwds_const_lookup (d : accessor_def) :
  decorator_kwds d !! "const" = if is_const d then Some kw_true else None.
Proof.
  unfold decorator_kwds, argument_kwds, is_const.
  destruct (acc_options d) as [o|]; [|apply lookup_empty]. simpl.
  destruct (opt_metavar o), (opt_choices o), (opt_const o), (opt_nargs o);
    by simplify_map_eq.
Qed.

Ltac kw_lookup :=
  repeat first
    [ rewrite lookup_delete_eq
    | rewrite lookup_insert_eq
    | rewrite lookup_delete_ne by done
    | rewrite lookup_insert_ne by done ].



(** ** Reading a property after a parse *)

Section Reading.

Context (call_type : hint -> string -> option value).
Context (value_eq : value -> value -> bool).
Context (fmt : formatter).


Lemma method_parse_args_cases (σ : world) (self : nat) (inst : instance)
    (p : parser) (parameter : string) :
  heap σ !! self = Some inst -> i_parser inst = Some p -> parser_ok p ->
  (∃ e, refusal fmt p e ∧
        method_parse_args call_type value_eq fmt σ self parameter
        = (σ, Raise e)) ∧
  (∀ ns, parse_args call_type value_eq fmt p (split_ws parameter) ≠ Ok ns)
  ∨
  ∃ ns, parse_args call_type value_eq fmt p (split_ws parameter) = Ok ns ∧
        method_parse_args call_type value_eq fmt σ self parameter
        = (set_heap σ (<[self := {| i_class := i_class inst;
                                   i_arguments := Some ns;
                                   i_parser := Some p |}]> (heap σ)), Ok ()).
Proof.
  intros Hself Hp Hok. unfold method_parse_args. rewrite Hself, Hp.
  destruct (parse_args call_type value_eq fmt p (split_ws parameter)) as [ns|e] eqn:Hparse.
  - right. by exists ns.
  - left. split; [|by intros ns]. exists e. split; [|done].
    exact (parse_args_raise call_type value_eq fmt p _ e Hok Hparse).
Qed.

(** What the wrapper of a declaration returns on an instance whose
    namespace holds [raw] under the function's name. *)
Lemma get_property_raw (σ : world) (self : nat) (inst : instance)
    (name : string) (w : wrapper) (ns : Namespace) (raw : value) :
  heap σ !! self = Some inst ->
  i_arguments inst = Some ns ->
  class_getattr σ (i_class inst) name = Some w ->
  ns !! g_name (w_getter w) = Some raw ->
  class_getattr σ (i_class inst) "arguments" = None ->
  get_property σ self name
  = if w_const w
    then match raw with
         | VNone => (σ, Ok VNone)
         | _ => (log_call σ (g_name (w_getter w)) [],
                 g_body (w_getter w) ns [])
         end
    else (log_call σ (g_name (w_getter w)) [raw],
          g_body (w_getter w) ns [raw]).
Proof.
  intros Hself Hargs Hw Hraw Hplain.
  unfold get_property, call_wrapper, self_arguments, get_arguments,
    ns_getattr.
  by rewrite Hself, Hw, Hplain, Hargs, Hraw.
Qed.

End Reading.

(** ** Destinations of ordinary names *)

Lemma replace_char_back (s : string) :
  str_contains dash s = false ->
  replace_char dash underscore (replace_char underscore dash s) = s.
Proof.
  induction s as [|c s IH]; simpl; [done|].
  intros [Hc Hs]%orb_false_elim. rewrite IH by done. f_equal.
  destruct (Ascii.eqb_spec c underscore) as [->|Hne]; [done|].
  destruct (Ascii.eqb_spec c dash) as [->|_]; [|done].
  by vm_compute in Hc.
Qed.

Lemma lstrip_char_plain (name : string) :
  plain_name name = true ->
  lstrip_char dash (replace_char underscore dash name)
  = replace_char underscore dash name
  /\ replace_char underscore dash name <> "".
Proof.
  unfold plain_name. intros [Hhead _]%andb_true_iff.
  destruct name as [|c name]; [done|].
  apply andb_true_iff in Hhead as [Hu%negb_true_iff Hd%negb_true_iff].
  cbn [replace_char lstrip_char]. rewrite Hu.
  rewrite Ascii.eqb_sym, Hd. done.
Qed.

Lemma infer_dest_plain (name : string) (args : list string) :
  plain_name name = true ->
  infer_dest (("--" +:+ replace_char underscore dash name) :: args) = Ok name.
Proof.
  intros Hplain. destruct (lstrip_char_plain name Hplain) as [Hstrip Hne].
  unfold infer_dest.
  rewrite filter_cons_True by done.
  change (lstrip_char dash ("--" +:+ ?y)) with (lstrip_char dash y).
  rewrite Hstrip.
  destruct (String.eqb_spec (replace_char underscore dash name) "") as [|_];
    [done|].
  f_equal. apply replace_char_back.
  unfold plain_name in Hplain.
  by apply andb_true_iff in Hplain as [_ ?%negb_true_iff].
Qed.

Lemma bind_Ok {A B : Type} (k : A -> result B) (r : result A) (b : B) :
  r ≫= k = Ok b -> ∃ a, r = Ok a ∧ k a = Ok b.
Proof. destruct r as [a|e]; [by exists a | discriminate]. Qed.

(** [__call__] never sets [dest]. *)
Lemma compile_dest (g : getter) (kw0 kw : kwds) (c : bool) :
  compile g kw0 = Ok (c, kw) -> kw !! "dest" = kw0 !! "dest".
Proof.
  unfold compile. intros H.
  apply bind_Ok in H as ([c1 kw1] & H1 & H).
  apply bind_Ok in H as ([t2 kw2] & H2 & H).
  injection H as _ <-.
  assert (E1 : kw1 !! "dest" = kw0 !! "dest").
  { destruct (kw_get_truthy _ _).
    - injection H1 as _ <-. destruct (g_doc g); by kw_lookup.
    - destruct (g_hint g); [|discriminate].
      injection H1 as _ <-. destruct (g_doc g); by kw_lookup. }
  assert (E2 : kw2 !! "dest" = kw1 !! "dest").
  { destruct (is_bool_hint _); [injection H2 as _ <-; by kw_lookup|].
    destruct (get_origin _) as [[]|].
    - destruct (_ <? _)%nat; [discriminate|].
      destruct (get_args _); [discriminate|].
      injection H2 as _ <-. by kw_lookup.
    - apply bind_Ok in H2 as (bad & _ & H2).
      destruct bad; [discriminate|].
      destruct (get_args _); [discriminate|].
      injection H2 as _ <-. by kw_lookup.
    - by injection H2 as _ <-.
    - by injection H2 as _ <-. }
  rewrite <- E1, <- E2.
  destruct t2; [|done]. destruct (g_default g); by kw_lookup.
Qed.

(** A declaration whose function has an ordinary name, or that gives an
    explicit [name], gets the function's name as destination. *)
Lemma dest_ok_plain (n n' : nat) (d : accessor_def) (w : wrapper) :
  decorate n d = (Ok w, n') ->
  is_Some (acc_options d ≫= opt_name)
  ∨ plain_name (g_name (acc_getter d)) = true ->
  dest_ok w = true.
Proof.
  intros Hd Hname.
  pose proof Hd as (Hg & Hn & Hc)%decorate_wrapper.
  apply compile_dest in Hc.
  rewrite decorator_kwds_None in Hc by done.
  rewrite decorate_compile in Hd. unfold generate in Hd.
  destruct (compile _ _) as [[b kw]|]; [|discriminate].
  injection Hd as <- _. simpl in *.
  unfold dest_ok, registration_of, registration_dest, reg_flags, kw_value.
  simpl.
  destruct (acc_options d ≫= opt_name) as [name|]; simpl.
  - rewrite lookup_insert_eq. simpl. apply String.eqb_refl.
  - rewrite Hc. destruct Hname as [[? [=]]|Hplain].
    rewrite infer_dest_plain by done. apply String.eqb_refl.
Qed.

(** Classes whose accessors have ordinary names or explicit [name]s give
    every declaration its function's name as destination. *)
Lemma plain_names_dests_ok (σ : world) (cls : nat) :
  classes_ok σ ->
  (∀ w, w ∈ collect σ cls ->
        is_Some (info_name (w_info w))
        ∨ plain_name (g_name (w_getter w)) = true) ->
  dests_ok σ cls = true.
Proof.
  intros Hok Hnames. unfold dests_ok. apply forallb_forall.
  intros w Hw%list_elem_of_In.
  pose proof Hw as (name & Hget)%elem_of_collect.
  destruct (class_getattr_Some σ cls name w Hget) as (c & cd & _ & Hc & Hd).
  destruct (ok_decorated σ Hok c cd name w Hc Hd) as (d & Hdec).
  pose proof Hdec as (Hg & Hn & _)%decorate_wrapper.
  apply (dest_ok_plain _ _ d w Hdec).
  rewrite <- Hg, <- Hn. by apply Hnames.
Qed.

(** ** Where the argument strings of an occurrence come from *)

Lemma foldl_insert_lookup_eq (m : gmap string nat) (args : list string)
    (x : nat) (s : string) :
  foldl (fun m s => <[s := x]> m) m args !! s
  = if decide (s ∈ args) then Some x else m !! s.
Proof.
  revert m. induction args as [|t args IH]; intros m.
  - simpl. destruct (decide (s ∈ [])) as [[]%elem_of_nil|]; done.
  - cbn [foldl]. rewrite IH.
    destruct (decide (s ∈ args)) as [Hin|Hnin];
      destruct (decide (s ∈ t :: args)) as [Hin'|Hnin']; try done.
    + exfalso. apply Hnin', elem_of_cons. by right.
    + apply elem_of_cons in Hin' as [->|?]; [|done].
      by rewrite lookup_insert_eq.
    + rewrite lookup_insert_ne; [done|]. intros <-.
      apply Hnin', elem_of_cons. by left.
Qed.

Lemma new_parser_strings_ok (o : parser_options) :
  strings_ok (new_parser o).
Proof.
  intros [|i] a s; simpl; [|by rewrite lookup_nil].
  intros [= <-]. simpl.
  intros [->|[->|[]%elem_of_nil]%elem_of_cons]%elem_of_cons; by split.
Qed.

Lemma add_argument_strings_ok (p p' : parser) (args : list string) (kw : kwds) :
  strings_ok p -> add_argument p args kw = Ok p' -> strings_ok p'.
Proof.
  intros Hok Hadd.
  assert (Hdash : forallb head_is_dash args = true).
  { unfold add_argument in Hadd.
    destruct (forallb head_is_dash args); [done|discriminate]. }
  pose proof Hadd as (a & dest & k & _ & Hk & Ha & Hfree & Hacts & Hmap & _)%add_argument_inv.
  apply read_action_kind_not_help in Hk.
  destruct (make_action_fields _ _ _ _ _ Hk Ha) as (Hs & _).
  intros i b s Hi Hin. rewrite Hmap, foldl_insert_lookup_eq.
  rewrite Hacts in Hi. apply lookup_app_Some in Hi as [Hi|[Hlen Hi]].
  - destruct (Hok i b s Hi Hin) as [Hd Hl]. split; [done|].
    rewrite decide_False; [done|]. intros Hargs.
    specialize (Hfree s Hargs). congruence.
  - destruct (i - length (p_actions p))%nat as [|j] eqn:Hj; simpl in Hi;
      [|by rewrite lookup_nil in Hi].
    injection Hi as <-. rewrite Hs in Hin. split.
    + rewrite forallb_forall in Hdash. by apply Hdash, list_elem_of_In.
    + rewrite decide_True by done. f_equal. lia.
Qed.

Lemma register_all_strings_ok (regs : list registration) :
  ∀ p p', strings_ok p -> register_all p regs = Ok p' -> strings_ok p'.
Proof.
  induction regs as [|r regs IH]; intros p p' Hok; simpl.
  - by intros [= <-].
  - destruct (add_argument p _ (reg_kwds r)) as [p1|] eqn:Hadd; [|discriminate].
    simpl. apply IH. by eapply add_argument_strings_ok.
Qed.





Section ListAccessors.

Context (call_type : hint -> string -> option value).
Context (value_eq : value -> value -> bool).
Context (fmt : formatter).


End ListAccessors.

(** ** Const-mode accessors *)

Lemma const_action_fields (n n' : nat) (d : accessor_def) (w : wrapper)
    (a : action) :
  decorate n d = (Ok w, n') ->
  const_accessor d ->
  made_from (registration_of w) a ->
  w_const w = true ∧
  a_kind a = StoreConstAction ∧ a_nargs a = NargsCount 0 ∧
  a_const a = VBool true ∧ a_default a = Some VNone ∧ a_required a = false.
Proof.
  intros (Hg & Hn & Hc)%decorate_wrapper [Hconst Hh] (dest & k & _ & Hk & Ha).
  rewrite (compile_const_untyped _ _ ) in Hc;
    [|by rewrite decorator_kwds_const|done].
  injection Hc as Hwc Hkw. split; [done|].
  set (flags := reg_flags _) in Ha. clearbody flags.
  assert (Hact : reg_kwds (registration_of w) !! "action"
                 = Some (kw_str "store_const")).
  { unfold registration_of. rewrite <- Hkw.
    destruct (info_name (w_info w)); simpl; by kw_lookup. }
  unfold read_action_kind in Hk. rewrite Hact in Hk. injection Hk as <-.
  set (kw := delete "action" (delete "dest" (reg_kwds (registration_of w)))) in *.
  assert (Hl_const : kw !! "const" = Some kw_true).
  { unfold kw, registration_of. rewrite <- Hkw.
    destruct (info_name (w_info w)), (g_doc (acc_getter d)); simpl; kw_lookup;
      by rewrite decorator_kwds_const_lookup, Hconst. }
  assert (Hl_default : kw !! "default" = None).
  { unfold kw, registration_of. rewrite <- Hkw.
    destruct (info_name (w_info w)), (g_doc (acc_getter d)); simpl; kw_lookup;
      by apply decorator_kwds_None. }
  assert (Hl_required : kw !! "required" = Some kw_false).
  { unfold kw, registration_of. rewrite <- Hkw.
    destruct (info_name (w_info w)); simpl; by kw_lookup. }
  unfold make_action in Ha.
  destruct (negb (keywords_accepted StoreConstAction kw)); [discriminate|].
  unfold kw_value, kw_bool in Ha.
  rewrite Hl_const, Hl_default, Hl_required in Ha. by injection Ha as <-.
Qed.


Lemma consume_plain_nothing (p : parser) (rest : list string)
    (pat : list tok_class) (i : nat) (evs : list event) (n : nat) :
  consume_plain p rest pat i = Ok (evs, n) -> Forall (takes_nothing p) evs.
Proof.
  unfold consume_plain, get_action.
  destruct (p_actions p !! i) as [a|] eqn:Ha; [|discriminate]. simpl.
  destruct (match_argument a pat) as [m|] eqn:Hm; [|discriminate]. simpl.
  intros [= <- <-]. constructor; [|done]. intros a' Ha' Hn. simpl in *.
  rewrite Ha in Ha'. injection Ha' as <-.
  unfold match_argument in Hm. rewrite Hn in Hm. simpl in Hm.
  by injection Hm as <-.
Qed.

Lemma consume_explicit_nothing (p : parser) (rest : list string)
    (pat : list tok_class) (e : string) :
  ∀ i option_string evs n,
    consume_explicit p rest pat i option_string e = Ok (evs, n) ->
    Forall (takes_nothing p) evs.
Proof.
  induction e as [|c e IH]; intros i os evs n; simpl; unfold get_action;
    destruct (p_actions p !! i) as [a|] eqn:Ha; try discriminate; simpl;
    destruct (match_argument a [TokA]) as [m|] eqn:Hm; try discriminate; simpl.
  - rewrite andb_false_r. destruct (Nat.eqb_spec m 1); [|discriminate].
    intros [= <- <-]. constructor; [|done]. intros a' Ha' Hn. simpl in *.
    rewrite Ha in Ha'. injection Ha' as <-.
    unfold match_argument in Hm. rewrite Hn in Hm. simpl in Hm.
    injection Hm as <-. lia.
  - destruct ((m =? 0)%nat && negb (long_option os) && nonempty (String c e)).
    + destruct (p_option_string_actions p !! String dash (String c ""))
        as [j|]; [|discriminate].
      destruct (match e with "" => _ | String _ _ => _ end)
        as [[evs' n']|] eqn:Hsub; [|discriminate].
      simpl. intros [= <- <-]. constructor; [by intros a' _ _|].
      destruct e; [by eapply consume_plain_nothing|by eapply IH].
    + destruct (Nat.eqb_spec m 1); [|discriminate].
      intros [= <- <-]. constructor; [|done]. intros a' Ha' Hn. simpl in *.
      rewrite Ha in Ha'. injection Ha' as <-.
      unfold match_argument in Hm. rewrite Hn in Hm. simpl in Hm.
      injection Hm as <-. lia.
Qed.

Lemma scan_nothing (p : parser) (toks : list string) :
  ∀ pat skip evs extras,
    scan p toks pat skip = Ok (evs, extras) -> Forall (takes_nothing p) evs.
Proof.
  induction toks as [|t toks IH]; intros pat skip evs extras; simpl.
  - by intros [= <- <-].
  - destruct pat as [|c pat]; [by intros [= <- <-]|].
    destruct skip as [|k]; [|apply IH].
    assert (Hextra : (scan p toks pat 0 ≫= fun '(evs, extras) =>
                        Ok (evs, t :: extras)) = Ok (evs, extras) ->
                     Forall (takes_nothing p) evs).
    { destruct (scan p toks pat 0) as [[evs0 ex0]|] eqn:Hs; [|discriminate].
      simpl. intros [= <- <-]. by eapply IH. }
    destruct c as [| |[i|] os ea]; try done.
    destruct (match ea with None => _ | Some e => _ end) as [[evs1 n]|] eqn:H1;
      [|discriminate]. simpl.
    destruct (scan p toks pat n) as [[evs2 ex2]|] eqn:H2; [|discriminate].
    simpl. intros [= <- <-]. apply Forall_app. split; [|by eapply IH].
    destruct ea; [by eapply consume_explicit_nothing
                 |by eapply consume_plain_nothing].
Qed.

Lemma occurrences_nothing (p : parser) (toks : list string)
    (evs : list event) (extras : list string) :
  occurrences p toks = Ok (evs, extras) -> Forall (takes_nothing p) evs.
Proof.
  unfold occurrences. destruct (classify p toks) as [pat|]; [|discriminate].
  simpl. apply scan_nothing.
Qed.

Section ConstAccessors.

Context (call_type : hint -> string -> option value).
Context (value_eq : value -> value -> bool).
Context (fmt : formatter).

(** Const-mode accessors in a class whose declarations have their getter
    names as destinations and that declares no property named
    [arguments]: after a successful parse in which the flag does
    not occur the property is None and the state, with its log of calls, is
    untouched; after one in which it occurs the flag has taken no argument
    string and the property is the decorated function called without a
    value. *)
Lemma const_accessor_semantics (σ : world) (self : nat) (inst : instance)
    (p : parser) (name : string) (w : wrapper) (d : accessor_def)
    (n n' : nat) :
  reachable call_type value_eq fmt σ ->
  heap σ !! self = Some inst -> i_parser inst = Some p ->
  class_getattr σ (i_class inst) name = Some w ->
  decorate n d = (Ok w, n') ->
  const_accessor d ->
  dests_ok σ (i_class inst) = true ->
  reads_namespace σ (i_class inst) ->
  ∃ i a,
    p_actions p !! i = Some a ∧
    a_option_strings a = reg_flags (registration_of w) ∧
    ∀ parameter σ',
      method_parse_args call_type value_eq fmt σ self parameter = (σ', Ok ()) ->
      ∃ evs ns,
        occurrences p (split_ws parameter) = Ok (evs, []) ∧
        get_arguments σ' self = Ok ns ∧
        match last_event i evs with
        | None => get_property σ' self name = (σ', Ok VNone)
        | Some ev =>
            ev_args ev = [] ∧
            get_property σ' self name
            = (log_call σ' name [], g_body (acc_getter d) ns [])
        end.
Proof.
  intros [Hcok Hiok]%reachable_ok Hself Hp Hget Hdec Hconst Hdests Hplain.
  destruct (Hiok self inst Hself) as [_ Hreg]. specialize (Hreg p Hp).
  destruct (accessor_owns_dest σ _ p name w Hcok Hreg Hdests Hget)
    as (i & a & Hown & Hmade & Hdest).
  destruct (const_action_fields n n' d w a Hdec Hconst Hmade)
    as (Hwc & Hkind & Hna & Hac & Hdef & Hreq).
  destruct (made_from_fields _ _ Hmade) as (Hflags & _ & _).
  destruct (decorate_wrapper _ _ _ _ Hdec) as (Hg & _ & _).
  assert (Hgname : g_name (w_getter w) = name).
  { destruct (class_getattr_Some σ _ name w Hget) as (c & cd & _ & Hc & Hcw).
    by destruct (ok_name σ Hcok c cd name w Hc Hcw) as (-> & _). }
  assert (Hpok : parser_ok p)
    by (eapply register_all_ok; [apply new_parser_ok|done]).
  exists i, a. split; [apply Hown|]. split; [done|]. intros parameter σ' Hcall.
  destruct (method_parse_args_cases call_type value_eq fmt σ self inst p parameter
              Hself Hp Hpok) as [[(e & _ & Hr) _]|(ns & Hparse & Hr)];
    [congruence|].
  rewrite Hr in Hcall. injection Hcall as <-.
  destruct (parse_args_lookup call_type value_eq fmt p i a _ ns Hown Hparse)
    as (evs & Hocc & Hlast).
  exists evs, ns. split; [done|].
  set (σ' := set_heap σ _).
  assert (Hself' : heap σ' !! self
                   = Some {| i_class := i_class inst; i_arguments := Some ns;
                             i_parser := Some p |}).
  { simpl. apply list_lookup_insert_eq. by eapply lookup_lt_Some. }
  split; [unfold get_arguments; by rewrite Hself'|].
  pose proof (occurrences_nothing p _ evs [] Hocc) as Hnothing.
  destruct (last_event i evs) as [ev|] eqn:Hev.
  - destruct Hlast as (v & _ & Hns).
    destruct (last_event_action i evs ev Hev) as [Hi Hin].
    split.
    + apply (proj1 (Forall_forall _ _) Hnothing ev Hin a); [|done].
      rewrite Hi. apply Hown.
    + rewrite (get_property_raw σ' self _ name w ns (VBool true) Hself'
                 eq_refl Hget).
      * by rewrite Hwc, Hgname, Hg.
      * rewrite Hgname, <- Hdest, Hns. unfold stored. by rewrite Hkind, Hac.
      * exact Hplain.
  - destruct Hlast as [_ Hlast]. rewrite Hdef in Hlast.
    rewrite (get_property_raw σ' self _ name w ns VNone Hself' eq_refl Hget).
    + by rewrite Hwc.
    + by rewrite Hgname, <- Hdest.
    + exact Hplain.
Qed.

End ConstAccessors.

(** ** The two small classes *)




(** C3, at the failing input: the const-mode accessor [_quiet] gets the
    flag [---quiet], for which the engine infers the destination [quiet];
    the wrapper reads [_quiet]. So after a parse without the flag the
    namespace holds None under [quiet], and after a parse with the flag it
    holds True there, but reading the property raises AttributeError in
    both cases instead of giving None and [40]. *)
Lemma C3_underscore_const_unreadable :
  let absent := fst (method_parse_args demo_call py_eq prints quiet_instance 0 "") in
  let present :=
    fst (method_parse_args demo_call py_eq prints quiet_instance 0 "---quiet") in
  snd (method_parse_args demo_call py_eq prints quiet_instance 0 "") = Ok () ∧
  raw_value absent "quiet" = Some VNone ∧
  raw_value absent "_quiet" = None ∧
  snd (get_property absent 0 "_quiet") = Raise AttributeError ∧
  snd (method_parse_args demo_call py_eq prints quiet_instance 0 "---quiet") = Ok () ∧
  raw_value present "quiet" = Some (VBool true) ∧
  snd (get_property present 0 "_quiet") = Raise AttributeError ∧
  dests_ok quiet_instance 1 = false.
Proof. repeat split; vm_compute; reflexivity. Qed.

(** The const-mode accessor of the tests, whose name has no leading
    underscore, behaves as documented. *)
Lemma const_accessor_of_the_tests :
  snd (get_property (test_parsed required_only) 0 "const") = Ok VNone ∧
  calls (fst (get_property (test_parsed required_only) 0 "const")) = [] ∧
  snd (get_property (test_parsed "--foo foo --nargs 1 2 3 --const") 0 "const")
  = Ok (VInt 40) ∧
  calls (fst (get_property (test_parsed "--foo foo --nargs 1 2 3 --const")
                0 "const")) = [("const", [])] ∧
  snd (method_parse_args demo_call py_eq prints test_instance 0
         "--foo foo --nargs 1 2 3 --const 5") = Raise SystemExit.
Proof. repeat split; vm_compute; reflexivity. Qed.

(** ** The cached instance *)

Section Singleton.

Context (call_type : hint -> string -> option value).
Context (value_eq : value -> value -> bool).
Context (fmt : formatter).

Lemma init_classes (σ : world) (self : nat) (po : parser_options) (lazy : bool) (argv : list string) :
  classes (fst (init call_type value_eq fmt σ self po lazy argv)) = classes σ.
Proof.
  unfold init. destruct (heap σ !! self); [|done].
  destruct (register_all _ _); [|done].
  destruct lazy; [done|]. by destruct (parse_args _ _ _ _ _).
Qed.

Lemma lookup_object_classes (σ σ' : world) (cls : nat) :
  classes σ' = classes σ -> lookup_object σ' cls = lookup_object σ cls.
Proof. unfold lookup_object, mro. by intros ->. Qed.

(** After [__new__] the class resolves [__object__] to the object
    returned. *)
Lemma new_caches (σ σ1 : world) (cls obj : nat) :
  classes_ok σ -> new σ cls = (σ1, Ok obj) ->
  lookup_object σ1 cls = Some (Some obj).
Proof.
  intros Hok. unfold new.
  destruct (classes σ !! cls) as [cd|] eqn:Hc; [|discriminate].
  destruct (lookup_object σ cls) as [[id|]|] eqn:Hl; [| |discriminate].
  - by intros [= <- <-].
  - intros [= <- <-]. unfold lookup_object, mro. simpl.
    rewrite list_lookup_insert_eq by (by eapply lookup_lt_Some). simpl.
    destruct (ok_mro σ Hok cls cd Hc) as (tail & -> & _). simpl.
    by rewrite list_lookup_insert_eq by (by eapply lookup_lt_Some).
Qed.

(** The part of C5 that holds: in a reachable state, a second call of the
    same class gets from [__new__] the object the first call returned. *)
Lemma construct_twice_same_object (σ σ1 : world) (cls obj : nat)
    (po po' : parser_options) (lazy lazy' : bool) (argv argv' : list string) :
  reachable call_type value_eq fmt σ ->
  construct call_type value_eq fmt σ cls po lazy argv = (σ1, Ok obj) ->
  new σ1 cls = (σ1, Ok obj) ∧
  (∃ σ2, construct call_type value_eq fmt σ1 cls po' lazy' argv' = (σ2, Ok obj)) ∨
  (∃ σ2 e, construct call_type value_eq fmt σ1 cls po' lazy' argv' = (σ2, Raise e)).
Proof.
  intros Hr Hc.
  assert (Hok : classes_ok σ) by (by eapply reachable_classes_ok).
  assert (Hcache : lookup_object σ1 cls = Some (Some obj)).
  { unfold construct in Hc.
    destruct (new σ cls) as [σ0 [o|e]] eqn:Hnew; [|discriminate].
    pose proof (new_caches σ σ0 cls o Hok Hnew) as Hl.
    destruct (isinstance σ0 o cls).
    - pose proof (init_classes σ0 o po lazy argv) as Hcl.
      destruct (init call_type value_eq fmt σ0 o po lazy argv) as [σ2 [[]|e]];
        [|discriminate]. injection Hc as <- <-.
      by rewrite (lookup_object_classes σ0 σ2 cls Hcl).
    - by injection Hc as <- <-. }
  assert (Hcls : is_Some (classes σ1 !! cls)).
  { unfold lookup_object, mro in Hcache.
    destruct (classes σ1 !! cls); [by eexists|done]. }
  assert (Hnew : new σ1 cls = (σ1, Ok obj)).
  { unfold new. rewrite Hcache. by destruct Hcls as [cd ->]. }
  unfold construct. rewrite Hnew.
  destruct (isinstance σ1 obj cls).
  - destruct (init call_type value_eq fmt σ1 obj po' lazy' argv') as [σ2 [[]|e]].
    + left. split; [done|]. by exists σ2.
    + right. by exists σ2, e.
  - left. split; [done|]. by exists σ1.
Qed.

End Singleton.

(** * Further properties of the decorator and of the parser class *)

Lemma made_from_default (r : registration) (a : action) :
  made_from r a -> is_Some (a_default a).
Proof.
  intros (dest & k & _ & Hk & Ha).
  pose proof (read_action_kind_not_help _ _ Hk) as Hnh.
  unfold make_action in Ha.
  destruct (negb (keywords_accepted k _)); [discriminate|].
  destruct k; [| | |done].
  - destruct (read_nargs _) as [n|]; [|discriminate]. simpl in Ha.
    destruct (read_type _) as [t|]; [|discriminate]. simpl in Ha.
    destruct (read_choices _) as [c|]; [|discriminate]. simpl in Ha.
    destruct n as [|[]| |]; try discriminate;
      destruct (kw_value "const" _) as [[]|]; try discriminate;
      injection Ha as <-; by eexists.
  - injection Ha as <-. by eexists.
  - injection Ha as <-. by eexists.
Qed.

Section DeclaredReads.

Context (call_type : hint -> string -> option value).
Context (value_eq : value -> value -> bool).
Context (fmt : formatter).

(** A declared property of an initialised instance, in a class whose
    destinations are the getter names and that declares no property named
    [arguments]: its action, and for every
    parameter string what the namespace holds for it after a successful
    parse and what reading the property gives. *)
Lemma declared_read (σ : world) (self : nat) (inst : instance) (p : parser)
    (name : string) (w : wrapper) :
  reachable call_type value_eq fmt σ ->
  heap σ !! self = Some inst -> i_parser inst = Some p ->
  class_getattr σ (i_class inst) name = Some w ->
  dests_ok σ (i_class inst) = true ->
  reads_namespace σ (i_class inst) ->
  ∃ i a,
    owns_dest p i a ∧ made_from (registration_of w) a ∧ a_dest a = name ∧
    g_name (w_getter w) = name ∧
    ∀ parameter,
      let r := method_parse_args call_type value_eq fmt σ self parameter in
      (∃ e, refusal fmt p e ∧ r = (σ, Raise e)) ∨
      snd r = Ok () ∧
      ∃ evs ns raw,
        occurrences p (split_ws parameter) = Ok (evs, []) ∧
        get_arguments (fst r) self = Ok ns ∧
        ns !! name = Some raw ∧
        get_property (fst r) self name = wrapper_outcome w (fst r) ns raw ∧
        match last_event i evs with
        | Some ev =>
            ∃ v, get_values call_type value_eq a (ev_args ev) = Ok v ∧
                 raw = stored a v
        | None =>
            a_required a = false ∧
            match a_default a with
            | Some (VStr s) => get_value call_type a s = Ok raw
            | Some dflt => raw = dflt
            | None => False
            end
        end.
Proof.
  intros [Hcok Hiok]%reachable_ok Hself Hp Hget Hdests Hplain.
  destruct (Hiok self inst Hself) as [_ Hreg]. specialize (Hreg p Hp).
  destruct (accessor_owns_dest σ _ p name w Hcok Hreg Hdests Hget)
    as (i & a & Hown & Hmade & Hdest).
  assert (Hgname : g_name (w_getter w) = name).
  { destruct (class_getattr_Some σ _ name w Hget) as (c & cd & _ & Hc & Hcw).
    by destruct (ok_name σ Hcok c cd name w Hc Hcw) as (-> & _). }
  assert (Hpok : parser_ok p)
    by (eapply register_all_ok; [apply new_parser_ok|done]).
  exists i, a. do 4 (split; [done|]). intros parameter r.
  destruct (method_parse_args_cases call_type value_eq fmt σ self inst p parameter
              Hself Hp Hpok) as [[Hr Hno]|(ns & Hparse & Hr)];
    [by left|right].
  subst r. rewrite Hr. simpl. split; [done|].
  destruct (parse_args_lookup call_type value_eq fmt p i a _ ns Hown Hparse)
    as (evs & Hocc & Hlast).
  set (σ' := set_heap σ _).
  assert (Hself' : heap σ' !! self
                   = Some {| i_class := i_class inst; i_arguments := Some ns;
                             i_parser := Some p |}).
  { simpl. apply list_lookup_insert_eq. by eapply lookup_lt_Some. }
  assert (Hread : ∀ raw, ns !! a_dest a = Some raw ->
            ns !! name = Some raw ∧
            get_property σ' self name = wrapper_outcome w σ' ns raw).
  { intros raw Hraw. split; [by rewrite <- Hdest|].
    rewrite (get_property_raw σ' self _ name w ns raw Hself' eq_refl Hget);
      [done|by rewrite Hgname, <- Hdest|exact Hplain]. }
  destruct (made_from_default _ _ Hmade) as [dflt Hdflt].
  destruct (last_event i evs) as [ev|] eqn:Hle.
  - destruct Hlast as (v & Hv & Hns).
    exists evs, ns, (stored a v). split; [done|].
    split; [unfold get_arguments; by rewrite Hself'|].
    destruct (Hread _ Hns) as [? ?]. do 2 (split; [done|]).
    rewrite Hle. by exists v.
  - destruct Hlast as [Hrq Hlast]. rewrite Hdflt in Hlast.
    assert (∃ raw, ns !! a_dest a = Some raw ∧
                   match dflt with
                   | VStr s => get_value call_type a s = Ok raw
                   | _ => raw = dflt
                   end) as (raw & Hraw & Hval).
    { destruct dflt; simpl in Hlast;
        try (by eexists; split; [exact Hlast|]).
      destruct Hlast as (v & Hv & Hns). by exists v. }
    exists evs, ns, raw. split; [done|].
    split; [unfold get_arguments; by rewrite Hself'|].
    destruct (Hread _ Hraw) as [? ?]. do 2 (split; [done|]).
    rewrite Hle. split; [done|]. rewrite Hdflt. by destruct dflt.
Qed.

End DeclaredReads.

(** ** The arity of an occurrence *)

Lemma classify_length (p : parser) (toks : list string) :
  ∀ pat, classify p toks = Ok pat -> length pat = length toks.
Proof.
  induction toks as [|t toks IH]; intros pat; simpl; [by intros [= <-]|].
  destruct (String.eqb t "--").
  - intros [= <-]. simpl. by rewrite length_map.
  - destruct (parse_optional p t) as [c|]; [|discriminate]. simpl.
    destruct (classify p toks) as [cs|]; [|discriminate]. simpl.
    intros [= <-]. simpl. by rewrite (IH cs).
Qed.


Lemma match_argument_bound (a : action) (pat : list tok_class) (m : nat) :
  match_argument a pat = Ok m ->
  (m <= count_A pat)%nat ∧
  match a_nargs a with
  | NargsNone => m = 1%nat
  | NargsCount n => m = Z.to_nat n
  | NargsZeroOrMore => True
  | NargsOneOrMore => (1 <= m)%nat
  end.
Proof.
  unfold match_argument. destruct (a_nargs a) as [|n| |].
  - destruct (Nat.leb_spec 1 (count_A pat)); [|discriminate].
    intros [= <-]. by split.
  - destruct (Nat.leb_spec (Z.to_nat n) (count_A pat)); [|discriminate].
    intros [= <-]. by split.
  - intros [= <-]. by split.
  - destruct (Nat.leb_spec 1 (count_A pat)); [|discriminate].
    intros [= <-]. by split.
Qed.


Lemma match_argument_one (a : action) (m : nat) :
  match_argument a [TokA] = Ok m -> (m <= 1)%nat.
Proof. intros [H _]%match_argument_bound. simpl in H. lia. Qed.






(** ** The keywords [__call__] compiles *)

(** The type the engine is asked to convert with: the element type of a
    list, the first alternative of a union, the class itself; none for
    [bool] and for a function without a typed [value]. *)
Lemma compile_keys (g : getter) (kw0 kw : kwds) (c : bool) :
  compile g kw0 = Ok (c, kw) ->
  kw0 !! "action" = None -> kw0 !! "type" = None -> kw0 !! "default" = None ->
  let h := g_hint g in
  let ty := match h with
            | Some (HClass c_bool) | None => None
            | Some (HList (t :: _)) | Some (HUnion (t :: _)) => Some t
            | Some t => Some t
            end in
  c = kw_get_truthy "const" kw0 ∧
  kw !! "required"
  = Some (OVal (VBool (negb c && negb (is_bool_hint h) && negb (is_typing_union h)
                       && bool_decide (g_default g = None)))) ∧
  kw !! "action"
  = (if is_bool_hint h then Some (kw_str "store_true")
     else if c then Some (kw_str "store_const") else None) ∧
  kw !! "type" = OType <$> ty ∧
  kw !! "default" = (match ty with
                     | Some _ => OVal <$> g_default g
                     | None => None
                     end) ∧
  kw !! "nargs" = (match h with
                   | Some (HList _) => Some (default (kw_str "*") (kw0 !! "nargs"))
                   | _ => kw0 !! "nargs"
                   end) ∧
  kw !! "help" = (match g_doc g with
                  | Some doc => Some (kw_str doc)
                  | None => kw0 !! "help"
                  end) ∧
  ∀ k, k ≠ "required" -> k ≠ "action" -> k ≠ "type" -> k ≠ "default" ->
       k ≠ "nargs" -> k ≠ "help" -> kw !! k = kw0 !! k.
Proof.
  intros H Ha Ht Hd. unfold compile in H. rewrite compile_const_test in H.
  set (kw1 := match g_doc g with
              | Some doc => <["help" := kw_str doc]> (<["required" := kw_true]> kw0)
              | None => <["required" := kw_true]> kw0
              end) in *.
  assert (H1n : kw1 !! "nargs" = kw0 !! "nargs")
    by (unfold kw1; destruct (g_doc g); by kw_lookup).
  assert (H1h : kw1 !! "help" = match g_doc g with
                                | Some doc => Some (kw_str doc)
                                | None => kw0 !! "help"
                                end)
    by (unfold kw1; destruct (g_doc g); by kw_lookup).
  assert (H1a : kw1 !! "action" = None)
    by (unfold kw1; destruct (g_doc g); by kw_lookup).
  assert (H1t : kw1 !! "type" = None)
    by (unfold kw1; destruct (g_doc g); by kw_lookup).
  assert (H1d : kw1 !! "default" = None)
    by (unfold kw1; destruct (g_doc g); by kw_lookup).
  assert (H1r : kw1 !! "required" = Some kw_true)
    by (unfold kw1; destruct (g_doc g); by kw_lookup).
  assert (H1o : ∀ k, k ≠ "required" -> k ≠ "help" -> kw1 !! k = kw0 !! k).
  { intros k ? ?. unfold kw1. destruct (g_doc g); by kw_lookup. }
  clearbody kw1. intros h ty. subst h ty.
  destruct (kw_get_truthy "const" kw0) eqn:Hc;
    destruct (g_hint g) as [[[]|[|t [|t' l]]|[|t [|t2 [|t3 l]]]|ts]|];
    simpl in H; try discriminate;
    try (destruct (isinstance_None t2) as [[]|]; simpl in H; try discriminate);
    injection H as <- <-; simpl;
    (split; [done|]);
    destruct (g_default g) as [dflt|]; simpl;
    repeat (split; [kw_lookup;
                    rewrite ?H1r, ?H1a, ?H1t, ?H1d, ?H1n, ?H1h;
                    try done; by case_bool_decide|]);
    intros k ? ? ? ? ? ?;
    kw_lookup; by apply H1o.
Qed.

Lemma decorate_keys (n n' : nat) (d : accessor_def) (w : wrapper) :
  decorate n d = (Ok w, n') ->
  let h := g_hint (acc_getter d) in
  let kw := info_kwds (w_info w) in
  let ty := match h with
            | Some (HClass c_bool) | None => None
            | Some (HList (t :: _)) | Some (HUnion (t :: _)) => Some t
            | Some t => Some t
            end in
  w_const w = is_const d ∧
  kw !! "required"
  = Some (OVal (VBool (negb (is_const d) && negb (is_bool_hint h)
                       && negb (is_typing_union h)
                       && bool_decide (g_default (acc_getter d) = None)))) ∧
  kw !! "action"
  = (if is_bool_hint h then Some (kw_str "store_true")
     else if is_const d then Some (kw_str "store_const") else None) ∧
  kw !! "type" = OType <$> ty ∧
  kw !! "default" = (match ty with
                     | Some _ => OVal <$> g_default (acc_getter d)
                     | None => None
                     end) ∧
  kw !! "nargs"
  = (match h with
     | Some (HList _) =>
         Some (default (kw_str "*") (nargs_obj <$> (acc_options d ≫= opt_nargs)))
     | _ => nargs_obj <$> (acc_options d ≫= opt_nargs)
     end) ∧
  kw !! "choices"
  = (fun c => OVal (VList c)) <$> (acc_options d ≫= opt_choices) ∧
  kw !! "const" = (if is_const d then Some kw_true else None) ∧
  kw !! "dest" = None.
Proof.
  intros (Hg & Hn & Hc)%decorate_wrapper h kw ty.
  destruct (compile_keys _ _ _ _ Hc) as (Hw & Hr & Ha & Ht & Hd & Hna & _ & Ho);
    try (by apply decorator_kwds_None).
  rewrite decorator_kwds_const in Hw. rewrite Hw in Hr, Ha.
  rewrite decorator_kwds_nargs in Hna.
  do 6 (split; [done|]).
  split; [rewrite Ho by done; apply decorator_kwds_choices|].
  split; [rewrite Ho by done; apply decorator_kwds_const_lookup|].
  rewrite Ho by done. by apply decorator_kwds_None.
Qed.





(** ** The compiled declaration *)

(** X1. What the decorator compiles for a declaration it accepts. The
    declaration is required exactly when it is not const-mode, its value
    type is neither [bool] nor a [typing.Union], and the parameter has no
    default. The action is [store_true] for a [bool] value, else
    [store_const] in const mode, else left to the engine. The conversion
    type is the element type of a list, the first alternative of a
    [typing.Union], or else the annotation itself, be it a class or a
    union written [X | Y] (which is not taken for a union, so that the
    declaration stays required); there is none for [bool] or an untyped
    function. The parameter default is passed on only together with a
    type; a list gets [nargs="*"] unless [nargs] is given; and [dest] is
    never set. *)
Theorem X1_compiled_keywords (n n' : nat) (d : accessor_def) (w : wrapper) :
  decorate n d = (Ok w, n') ->
  let h := g_hint (acc_getter d) in
  let kw := info_kwds (w_info w) in
  let ty := match h with
            | Some (HClass c_bool) | None => None
            | Some (HList (t :: _)) | Some (HUnion (t :: _)) => Some t
            | Some t => Some t
            end in
  w_const w = is_const d ∧
  kw !! "required"
  = Some (OVal (VBool (negb (is_const d) && negb (is_bool_hint h)
                       && negb (is_typing_union h)
                       && bool_decide (g_default (acc_getter d) = None)))) ∧
  kw !! "action"
  = (if is_bool_hint h then Some (kw_str "store_true")
     else if is_const d then Some (kw_str "store_const") else None) ∧
  kw !! "type" = OType <$> ty ∧
  kw !! "default" = (match ty with
                     | Some _ => OVal <$> g_default (acc_getter d)
                     | None => None
                     end) ∧
  kw !! "nargs"
  = (match h with
     | Some (HList _) =>
         Some (default (kw_str "*") (nargs_obj <$> (acc_options d ≫= opt_nargs)))
     | _ => nargs_obj <$> (acc_options d ≫= opt_nargs)
     end) ∧
  kw !! "dest" = None.
Proof.
  intros Hdec h kw ty.
  destruct (decorate_keys n n' d w Hdec)
    as (H1 & H2 & H3 & H4 & H5 & H6 & _ & _ & H9).
  by repeat split.
Qed.

Lemma X1_compiled_keywords_witness :
  ∃ w, decorate 0 int_or_None = (Ok w, 1%nat) ∧
       info_kwds (w_info w) !! "required" = Some kw_true ∧
       info_kwds (w_info w) !! "type"
       = Some (OType (HUnionType [HClass c_int; HClass c_NoneType])).
Proof.
  assert (H : ∃ w, decorate 0 int_or_None = (Ok w, 1%nat))
    by (eexists; vm_compute; reflexivity).
  destruct H as [w Hw]. exists w. split; [exact Hw|].
  destruct (X1_compiled_keywords 0 1 int_or_None w Hw)
    as (_ & Hr & _ & Ht & _).
  split; [exact Hr | exact Ht].
Defined.

(** ** Accessors with a single value *)


Section ScalarAccessors.

Context (call_type : hint -> string -> option value).
Context (value_eq : value -> value -> bool).
Context (fmt : formatter).



End ScalarAccessors.

(** ** Accessors with a [bool] value *)


Section BoolAccessors.

Context (call_type : hint -> string -> option value).
Context (value_eq : value -> value -> bool).
Context (fmt : formatter).


End BoolAccessors.

(** ** Lists of a given arity *)


Section SizedLists.

Context (call_type : hint -> string -> option value).
Context (value_eq : value -> value -> bool).
Context (fmt : formatter).



End SizedLists.

(** ** The cached object of a class *)

Section Objects.

Context (call_type : hint -> string -> option value).
Context (value_eq : value -> value -> bool).
Context (fmt : formatter).

Lemma define_class_objects_ok (σ : world) (parent : nat)
    (body : list accessor_def) :
  objects_ok σ -> objects_ok (fst (define_class σ parent body)).
Proof.
  intros Hok. unfold define_class.
  destruct (classes σ !! parent) as [pd|]; [|done].
  destruct (class_body _ _ _) as [[dict|e] num]; [|done].
  simpl. intros c cd id Hc Hobj. simpl in *.
  apply lookup_app_Some in Hc as [Hc|[_ Hc]]; [by eapply Hok|].
  destruct (c - length (classes σ))%nat; simpl in Hc;
    [|by rewrite lookup_nil in Hc].
  injection Hc as <-. done.
Qed.

Lemma new_objects_ok (σ : world) (cls : nat) :
  objects_ok σ -> objects_ok (fst (new σ cls)).
Proof.
  intros Hok. unfold new.
  destruct (classes σ !! cls) as [cd0|] eqn:Hcls; [|done].
  destruct (lookup_object σ cls) as [[id0|]|]; [done| |done].
  simpl. intros c cd id Hc Hobj. simpl in *.
  destruct (decide (c = cls)) as [->|Hne].
  - rewrite list_lookup_insert_eq in Hc by (by eapply lookup_lt_Some).
    injection Hc as <-. simpl in Hobj. injection Hobj as <-.
    eexists. split; [by rewrite lookup_app_r, Nat.sub_diag|done].
  - rewrite list_lookup_insert_ne in Hc by done.
    destruct (Hok c cd id Hc Hobj) as (inst & Hi & Hcl).
    exists inst. split; [|done]. by apply lookup_app_l_Some.
Qed.

Lemma objects_ok_insert (σ : world) (self : nat) (inst inst' : instance) :
  objects_ok σ -> heap σ !! self = Some inst -> i_class inst' = i_class inst ->
  objects_ok (set_heap σ (<[self := inst']> (heap σ))).
Proof.
  intros Hok Hself Hcl c cd id Hc Hobj. simpl in *.
  destruct (Hok c cd id Hc Hobj) as (i0 & Hi & Hci).
  destruct (decide (id = self)) as [->|Hne].
  - exists inst'. rewrite list_lookup_insert_eq by (by eapply lookup_lt_Some).
    split; [done|]. congruence.
  - exists i0. by rewrite list_lookup_insert_ne.
Qed.

Lemma init_objects_ok (σ : world) (self : nat) (po : parser_options) (lazy : bool)
    (argv : list string) :
  objects_ok σ -> objects_ok (fst (init call_type value_eq fmt σ self po lazy argv)).
Proof.
  intros Hok. unfold init.
  destruct (heap σ !! self) as [inst|] eqn:Hself; [|done].
  destruct (register_all _ _) as [p|]; [|done].
  destruct lazy; [by eapply objects_ok_insert|].
  destruct (parse_args _ _ _ _ _); [|done]. by eapply objects_ok_insert.
Qed.

Lemma construct_objects_ok (σ : world) (cls : nat) (po : parser_options) (lazy : bool)
    (argv : list string) :
  objects_ok σ ->
  objects_ok (fst (construct call_type value_eq fmt σ cls po lazy argv)).
Proof.
  intros Hok. unfold construct.
  pose proof (new_objects_ok σ cls Hok) as Hnew.
  destruct (new σ cls) as [σ1 [obj|e]]; [|done]. simpl in Hnew.
  destruct (isinstance σ1 obj cls); [|done].
  pose proof (init_objects_ok σ1 obj po lazy argv Hnew) as Hinit.
  by destruct (init call_type value_eq fmt σ1 obj po lazy argv) as [σ2 [[]|e]].
Qed.

Lemma method_parse_args_objects_ok (σ : world) (self : nat)
    (parameter : string) :
  objects_ok σ ->
  objects_ok (fst (method_parse_args call_type value_eq fmt σ self parameter)).
Proof.
  intros Hok. unfold method_parse_args.
  destruct (heap σ !! self) as [inst|] eqn:Hself; [|done].
  destruct (i_parser inst); [|done].
  destruct (parse_args _ _ _ _ _); [|done]. by eapply objects_ok_insert.
Qed.

Lemma get_property_objects_ok (σ : world) (self : nat) (name : string) :
  objects_ok σ -> objects_ok (fst (get_property σ self name)).
Proof.
  intros Hok. unfold get_property.
  destruct (heap σ !! self) as [inst|]; [|done].
  destruct (class_getattr _ _ _) as [w|]; [|done].
  unfold call_wrapper. destruct (self_arguments σ self) as [ns|]; [|done].
  destruct (ns_getattr _ _) as [v|]; [|done].
  destruct (w_const w); [destruct v|]; done.
Qed.

Lemma reachable_objects_ok (σ : world) :
  reachable call_type value_eq fmt σ -> objects_ok σ.
Proof.
  unfold reachable. revert σ.
  apply (rtc_ind_r (fun σ => objects_ok σ)).
  - intros [|c] cd id; simpl; [|by rewrite lookup_nil].
    by intros [= <-].
  - intros σ σ' _ Hstep Hok. destruct Hstep.
    + by apply define_class_objects_ok.
    + by apply construct_objects_ok.
    + by apply method_parse_args_objects_ok.
    + by apply get_property_objects_ok.
Qed.

Lemma mro_bound (σ : world) (c c' : nat) :
  classes_ok σ -> c' ∈ mro σ c -> (c' <= c)%nat.
Proof.
  intros Hok. unfold mro.
  destruct (classes σ !! c) as [cd|] eqn:Hc; [|by intros ?%elem_of_nil].
  destruct (ok_mro σ Hok c cd Hc) as (tail & -> & Hall).
  intros [->|Hin]%elem_of_cons; [done|].
  rewrite Forall_forall in Hall. specialize (Hall c' Hin). lia.
Qed.

(** X5. A class that has no [__object__] entry of its own while an
    ancestor has a cached instance gets that instance from its
    constructor: the call returns the ancestor's object, which is no
    instance of the class, runs no [__init__] and changes nothing. *)
Theorem X5_inherited_instance (σ : world) (cls obj : nat) (cd : class_def)
    (po : parser_options) (lazy : bool) (argv : list string) :
  reachable call_type value_eq fmt σ ->
  classes σ !! cls = Some cd -> cls_object cd = None ->
  lookup_object σ cls = Some (Some obj) ->
  construct call_type value_eq fmt σ cls po lazy argv = (σ, Ok obj) ∧
  isinstance σ obj cls = false ∧
  ∃ inst, heap σ !! obj = Some inst ∧
          i_class inst ∈ mro σ cls ∧ (i_class inst < cls)%nat.
Proof.
  intros Hreach Hcls Hown Hlook.
  pose proof (reachable_objects_ok σ Hreach) as Hobj.
  pose proof (reachable_classes_ok call_type value_eq fmt σ Hreach) as Hcok.
  destruct (ok_mro σ Hcok cls cd Hcls) as (tail & Hmro & Hall).
  pose proof Hlook as Hlook'. unfold lookup_object in Hlook'.
  apply first_some_Some in Hlook' as (c & Hc & Hfound).
  destruct (classes σ !! c) as [cd'|] eqn:Hcd'; [|done]. simpl in Hfound.
  assert (Hlt : (c < cls)%nat).
  { unfold mro in Hc. rewrite Hcls, Hmro in Hc.
    apply elem_of_cons in Hc as [->|Hin].
    - rewrite Hcls in Hcd'. injection Hcd' as <-. congruence.
    - rewrite Forall_forall in Hall. by apply Hall. }
  destruct (Hobj c cd' obj Hcd' Hfound) as (inst & Hinst & Hclass).
  assert (Hisn : isinstance σ obj cls = false).
  { unfold isinstance. rewrite Hinst. apply bool_decide_eq_false.
    rewrite Hclass. intros Hin%(mro_bound σ c cls Hcok). lia. }
  assert (Hnew : new σ cls = (σ, Ok obj)).
  { unfold new. by rewrite Hcls, Hlook. }
  split; [|split; [done|]].
  - unfold construct. by rewrite Hnew, Hisn.
  - exists inst. split; [done|]. rewrite Hclass. done.
Qed.

End Objects.

(** ** Constructor calls *)

Section Construction.

Context (call_type : hint -> string -> option value).
Context (value_eq : value -> value -> bool).
Context (fmt : formatter).

Lemma set_heap_id (σ : world) : set_heap σ (heap σ) = σ.
Proof. by destruct σ. Qed.

Lemma new_cached (σ : world) (cls obj : nat) :
  lookup_object σ cls = Some (Some obj) -> is_Some (classes σ !! cls) ->
  new σ cls = (σ, Ok obj).
Proof. intros Hl [cd Hc]. unfold new. by rewrite Hc, Hl. Qed.

Lemma lookup_object_is_Some (σ : world) (cls : nat) (o : option nat) :
  lookup_object σ cls = Some o -> is_Some (classes σ !! cls).
Proof.
  unfold lookup_object, mro. destruct (classes σ !! cls); [by eexists|done].
Qed.

(** What a constructor call that runs [__init__] amounts to. *)
Lemma construct_init (σ σ1 : world) (cls obj : nat) (po : parser_options) (lazy : bool)
    (argv : list string) :
  classes_ok σ ->
  construct call_type value_eq fmt σ cls po lazy argv = (σ1, Ok obj) ->
  ∃ σ0, new σ cls = (σ0, Ok obj) ∧
        lookup_object σ0 cls = Some (Some obj) ∧
        classes σ1 = classes σ0 ∧
        (isinstance σ0 obj cls = false ∧ σ1 = σ0 ∨
         isinstance σ0 obj cls = true ∧
         init call_type value_eq fmt σ0 obj po lazy argv = (σ1, Ok ())).
Proof.
  intros Hok Hc. unfold construct in Hc.
  destruct (new σ cls) as [σ0 [o|e]] eqn:Hnew; [|discriminate].
  pose proof (new_caches σ σ0 cls o Hok Hnew) as Hl.
  destruct (isinstance σ0 o cls) eqn:Hi.
  - pose proof (init_classes call_type value_eq fmt σ0 o po lazy argv) as Hcl.
    destruct (init call_type value_eq fmt σ0 o po lazy argv) as [σ2 [[]|e]] eqn:Hinit;
      [|discriminate].
    injection Hc as <- <-. exists σ0. do 2 (split; [done|]).
    split; [done|]. right. by split.
  - injection Hc as <- <-. exists σ0. do 3 (split; [done|]). by left.
Qed.

(** A constructor call that runs [__init__] (the object it returns is an
    instance of the class called) gives that object the parser made from
    the options of the call and the declarations collected for the class,
    registered in ascending order of their numbers. *)
Lemma construct_registers (σ σ1 : world) (cls obj : nat)
    (po : parser_options) (lazy : bool) (argv : list string) :
  reachable call_type value_eq fmt σ ->
  construct call_type value_eq fmt σ cls po lazy argv = (σ1, Ok obj) ->
  isinstance σ1 obj cls = true ->
  ∃ inst p,
    heap σ1 !! obj = Some inst ∧ i_class inst = cls ∧
    i_parser inst = Some p ∧
    register_all (new_parser po) (sorted_registrations σ cls) = Ok p ∧
    a_option_strings <$> p_actions p
    = ["-h"; "--help"] :: (reg_flags <$> sorted_registrations σ cls).
Proof.
  intros Hreach Hc Hi1.
  pose proof (reachable_classes_ok call_type value_eq fmt σ Hreach) as Hcok.
  pose proof (reachable_objects_ok call_type value_eq fmt σ Hreach) as Hobj.
  destruct (construct_init σ σ1 cls obj po lazy argv Hcok Hc)
    as (σ0 & Hnew & Hl & Hcl & [[Hi ->]|[Hi Hinit]]); [congruence|].
  assert (Hsame : same_classes σ σ0).
  { pose proof (new_same_classes σ cls) as H. by rewrite Hnew in H. }
  assert (Hcok0 : classes_ok σ0) by (by eapply classes_ok_same_classes).
  assert (Hobj0 : objects_ok σ0).
  { pose proof (new_objects_ok σ cls Hobj) as H. by rewrite Hnew in H. }
  unfold init in Hinit.
  destruct (heap σ0 !! obj) as [inst0|] eqn:Hinst0; [|discriminate].
  assert (Hclass : i_class inst0 = cls).
  { unfold lookup_object in Hl.
    apply first_some_Some in Hl as (c & Hc' & Hfound).
    destruct (classes σ0 !! c) as [cd|] eqn:Hcd; [|done]. simpl in Hfound.
    destruct (Hobj0 c cd obj Hcd Hfound) as (inst' & Hinst' & Hcls').
    rewrite Hinst0 in Hinst'. injection Hinst' as <-.
    unfold isinstance in Hi. rewrite Hinst0 in Hi.
    apply bool_decide_eq_true in Hi. rewrite Hcls' in Hi |- *.
    pose proof (mro_bound σ0 cls c Hcok0 Hc').
    pose proof (mro_bound σ0 c cls Hcok0 Hi). lia. }
  destruct (register_all (new_parser po)
              (sorted_registrations σ0 (i_class inst0)))
    as [p|] eqn:Hreg; [|discriminate].
  rewrite Hclass, (same_classes_sorted_registrations σ σ0 cls Hsame) in Hreg.
  assert (∃ args, heap σ1 !! obj
                  = Some {| i_class := i_class inst0; i_arguments := args;
                            i_parser := Some p |}) as [args Hobj1].
  { destruct lazy.
    - injection Hinit as <-. eexists. simpl.
      apply list_lookup_insert_eq. by eapply lookup_lt_Some.
    - destruct (parse_args _ _ _ _ _) as [ns|]; [|discriminate].
      injection Hinit as <-. eexists. simpl.
      apply list_lookup_insert_eq. by eapply lookup_lt_Some. }
  eexists _, p. split; [exact Hobj1|]. simpl. do 3 (split; [done|]).
  by rewrite (register_all_actions _ _ _ Hreg).
Qed.

(** X6. Calling the constructor of a class again with
    [lazy_parsing=True] and the same options returns the same object and
    changes nothing: the rebuilt parser is the one the instance has and
    its namespace is kept. *)
Theorem X6_lazy_construct_idempotent (σ σ1 : world) (cls obj : nat)
    (po : parser_options) (argv argv' : list string) :
  reachable call_type value_eq fmt σ ->
  construct call_type value_eq fmt σ cls po true argv = (σ1, Ok obj) ->
  construct call_type value_eq fmt σ1 cls po true argv' = (σ1, Ok obj).
Proof.
  intros Hreach Hc.
  pose proof (reachable_classes_ok call_type value_eq fmt σ Hreach) as Hcok.
  destruct (construct_init σ σ1 cls obj po true argv Hcok Hc)
    as (σ0 & Hnew & Hl & Hcl & [[Hi ->]|[Hi Hinit]]).
  - unfold construct.
    rewrite (new_cached σ0 cls obj Hl) by (by eapply lookup_object_is_Some).
    by rewrite Hi.
  - assert (Hl1 : lookup_object σ1 cls = Some (Some obj))
      by (by rewrite (lookup_object_classes σ0 σ1 cls Hcl)).
    unfold construct.
    rewrite (new_cached σ1 cls obj Hl1) by (by eapply lookup_object_is_Some).
    unfold init in Hinit.
    destruct (heap σ0 !! obj) as [inst|] eqn:Hobj; [|discriminate].
    destruct (register_all (new_parser po)
                (sorted_registrations σ0 (i_class inst)))
      as [p|] eqn:Hreg; [|discriminate].
    injection Hinit as <-.
    assert (Hobj1 : heap (set_heap σ0
                            (<[obj := {| i_class := i_class inst;
                                         i_arguments := i_arguments inst;
                                         i_parser := Some p |}]> (heap σ0)))
                    !! obj
                    = Some {| i_class := i_class inst;
                              i_arguments := i_arguments inst;
                              i_parser := Some p |}).
    { simpl. apply list_lookup_insert_eq. by eapply lookup_lt_Some. }
    assert (Hi1 : isinstance (set_heap σ0
                               (<[obj := {| i_class := i_class inst;
                                            i_arguments := i_arguments inst;
                                            i_parser := Some p |}]> (heap σ0)))
                    obj cls = true).
    { unfold isinstance in *. rewrite Hobj1. by rewrite Hobj in Hi. }
    rewrite Hi1. unfold init. rewrite Hobj1.
    change (sorted_registrations (set_heap σ0 ?h) ?c)
      with (sorted_registrations σ0 c).
    simpl. rewrite Hreg. simpl.
    by rewrite list_insert_insert_eq.
Qed.

(** X7. In a reachable state, when the lazy constructor call of a class
    returns an object that is an instance of that class (so that
    [__init__] runs), the call that parses the command line, with the
    same options, is the lazy call followed by [parse_args] on the same
    words: when that parse succeeds the two give the same state and
    object; when it raises, the eager call raises the same exception and
    leaves the state that [__new__] produced. *)
Theorem X7_eager_is_lazy_then_parse (σ σ1 : world) (cls obj : nat)
    (po : parser_options) (argv0 : list string) (parameter : string) :
  reachable call_type value_eq fmt σ ->
  construct call_type value_eq fmt σ cls po true argv0 = (σ1, Ok obj) ->
  isinstance σ1 obj cls = true ->
  construct call_type value_eq fmt σ cls po false (split_ws parameter)
  = match method_parse_args call_type value_eq fmt σ1 obj parameter with
    | (σ2, Ok _) => (σ2, Ok obj)
    | (_, Raise e) => (fst (new σ cls), Raise e)
    end.
Proof.
  intros Hreach Hc Hinst.
  pose proof (reachable_classes_ok call_type value_eq fmt σ Hreach) as Hcok.
  destruct (construct_init σ σ1 cls obj po true argv0 Hcok Hc)
    as (σ0 & Hnew & Hl & Hcl & [[Hi ->]|[Hi Hinit]]); [congruence|].
  unfold construct. rewrite Hnew, Hi. simpl.
  unfold init in *.
  destruct (heap σ0 !! obj) as [inst|] eqn:Hobj; [|discriminate].
  destruct (register_all (new_parser po)
              (sorted_registrations σ0 (i_class inst)))
    as [p|] eqn:Hreg; [|discriminate].
  injection Hinit as <-.
  unfold method_parse_args. simpl.
  rewrite list_lookup_insert_eq by (by eapply lookup_lt_Some). simpl.
  destruct (parse_args call_type value_eq fmt p (split_ws parameter)) as [ns|e];
    [|done].
  unfold set_heap. simpl. by rewrite list_insert_insert_eq.
Qed.


End Construction.

(** ** The words [parse_args] hands to the engine *)

Lemma string_app_cons_l (x : ascii) (a b : string) :
  String x a +:+ b = String x (a +:+ b).
Proof. reflexivity. Qed.

Lemma string_app_assoc (a b c : string) : (a +:+ b) +:+ c = a +:+ (b +:+ c).
Proof.
  induction a as [|x a IH]; [done|].
  rewrite !string_app_cons_l. by f_equal.
Qed.

Lemma string_app_nil_r (a : string) : a +:+ "" = a.
Proof.
  induction a as [|x a IH]; [done|]. rewrite string_app_cons_l. by f_equal.
Qed.

Lemma string_app_cons (a b : string) (c : ascii) :
  (a +:+ String c "") +:+ b = a +:+ String c b.
Proof. by rewrite string_app_assoc. Qed.

Lemma has_space_app (a b : string) :
  has_space (a +:+ b) = has_space a || has_space b.
Proof.
  induction a as [|x a IH]; [done|].
  rewrite string_app_cons_l. simpl. by rewrite IH, orb_assoc.
Qed.

Lemma split_ws_aux_words (s : string) :
  ∀ cur, has_space cur = false -> Forall word (split_ws_aux cur s).
Proof.
  induction s as [|c s IH]; intros cur Hcur; simpl.
  - destruct (String.eqb_spec cur ""); [done|]. by repeat constructor.
  - destruct (is_space c) eqn:Hc.
    + apply Forall_app. split; [|by apply IH].
      destruct (String.eqb_spec cur ""); [done|]. by repeat constructor.
    + apply IH. rewrite has_space_app, Hcur. simpl. by rewrite Hc.
Qed.

Lemma split_ws_aux_app (t rest : string) :
  has_space t = false ->
  ∀ cur, split_ws_aux cur (t +:+ rest) = split_ws_aux (cur +:+ t) rest.
Proof.
  induction t as [|c t IH]; intros Ht cur.
  - by rewrite string_app_nil_r.
  - simpl in Ht. apply orb_false_elim in Ht as [Hc Ht].
    rewrite string_app_cons_l. simpl.
    by rewrite Hc, (IH Ht), string_app_cons.
Qed.

(** X9. [parameter.split()] hands the engine words only: no argument
    string is empty or contains whitespace, whatever the parameter (there
    is no quoting, so no value can hold a space). Conversely, words
    joined by single spaces come back unchanged, so
    [parse_args(" ".join(words))] parses exactly [words]. *)
Theorem X9_split_words (parameter : string) (words : list string) :
  Forall word (split_ws parameter) ∧
  (Forall word words -> split_ws (String.concat " " words) = words) ∧
  split_ws "" = [].
Proof.
  split; [by apply split_ws_aux_words|]. split; [|done].
  unfold split_ws. induction 1 as [|t ts [Hne Hsp] Hts IH]; [done|].
  destruct ts as [|t' ts].
  - simpl. rewrite <- (string_app_nil_r t) at 1.
    rewrite (split_ws_aux_app t "" Hsp ""). change ("" +:+ t) with t.
    simpl. by destruct (String.eqb_spec t "").
  - change (String.concat " " (t :: t' :: ts))
      with (t +:+ String " " (String.concat " " (t' :: ts))).
    rewrite (split_ws_aux_app t _ Hsp ""). change ("" +:+ t) with t.
    cbn [split_ws_aux]. change (is_space " ") with true. cbv iota.
    destruct (String.eqb_spec t ""); [done|].
    cbn [app]. by rewrite IH.
Qed.

(** ** The flags of an initialised instance *)

Lemma NoDup_fmap_inj_on {A B} (f : A -> B) (l : list A) (x y : A) :
  NoDup (f <$> l) -> x ∈ l -> y ∈ l -> f x = f y -> x = y.
Proof.
  intros Hnd [i Hi]%list_elem_of_lookup [j Hj]%list_elem_of_lookup Heq.
  assert (Hfi : (f <$> l) !! i = Some (f x)) by (by rewrite list_lookup_fmap, Hi).
  assert (Hfj : (f <$> l) !! j = Some (f x))
    by (by rewrite list_lookup_fmap, Hj, Heq).
  pose proof (NoDup_lookup _ _ _ _ Hnd Hfi Hfj) as Hij. subst j. congruence.
Qed.

Section Flags.

Context (call_type : hint -> string -> option value).
Context (value_eq : value -> value -> bool).
Context (fmt : formatter).

(** X10. In an instance that [__init__] has given its parser, every
    collected declaration has its own action, whose option strings are
    [--] followed by the explicit [name], or else the function's name,
    with underscores turned into dashes, and then the alias flags; every
    flag starts with a dash and none is [-h] or [--help]; and no flag
    belongs to two declarations. (So a class with a property called
    [help], an alias [h], or one alias used twice is never
    initialised.) *)
Theorem X10_flags_distinct (σ : world) (self : nat) (inst : instance)
    (p : parser) :
  reachable call_type value_eq fmt σ ->
  heap σ !! self = Some inst -> i_parser inst = Some p ->
  (∀ w, w ∈ collect σ (i_class inst) ->
        ∃ i a, p_actions p !! S i = Some a ∧ a_kind a ≠ HelpAction ∧
               a_option_strings a
               = ("--" +:+ replace_char underscore dash
                             (default (g_name (w_getter w))
                                      (info_name (w_info w))))
                   :: info_args (w_info w)) ∧
  (∀ w s, w ∈ collect σ (i_class inst) ->
          s ∈ reg_flags (registration_of w) ->
          head_is_dash s = true ∧ s ≠ "-h" ∧ s ≠ "--help") ∧
  (∀ w1 w2 s, w1 ∈ collect σ (i_class inst) -> w2 ∈ collect σ (i_class inst) ->
              s ∈ reg_flags (registration_of w1) ->
              s ∈ reg_flags (registration_of w2) -> w1 = w2).
Proof.
  intros [Hcok Hiok]%reachable_ok Hself Hp.
  destruct (Hiok self inst Hself) as [_ Hreg]. specialize (Hreg p Hp).
  destruct (register_all_made _ _ _ Hreg) as (acts & Hacts & Hall).
  destruct (sorted_registrations_spec σ (i_class inst) Hcok) as [_ Hperm].
  assert (Hsok : strings_ok p)
    by (eapply register_all_strings_ok; [apply new_parser_strings_ok|done]).
  assert (Hact : ∀ w, w ∈ collect σ (i_class inst) ->
            ∃ k a, p_actions p !! S k = Some a ∧ a_kind a ≠ HelpAction ∧
                   a_option_strings a = reg_flags (registration_of w) ∧
                   sorted_registrations σ (i_class inst) !! k
                   = Some (registration_of w)).
  { intros w Hw.
    assert (Hin : registration_of w ∈ sorted_registrations σ (i_class inst)).
    { rewrite Hperm. by apply list_elem_of_fmap_2. }
    apply list_elem_of_lookup in Hin as [k Hk].
    destruct (Forall2_lookup_l _ _ _ _ _ Hall Hk) as (a & Ha & Hmade).
    destruct (made_from_fields _ _ Hmade) as (Hflags & Hnh & _).
    exists k, a. rewrite Hacts. by repeat split. }
  assert (Hhelp : ∀ s, s = "-h" ∨ s = "--help" ->
            p_option_string_actions p !! s = Some 0%nat).
  { intros s Hs. apply (Hsok 0%nat help_action s).
    - by rewrite Hacts.
    - simpl. destruct Hs as [-> | ->]; set_solver. }
  split; [|split].
  - intros w Hw. destruct (Hact w Hw) as (k & a & Ha & Hnh & Hfl & _).
    exists k, a. do 2 (split; [done|]). rewrite Hfl.
    apply elem_of_collect in Hw as (name & Hget).
    destruct (class_getattr_Some σ _ name w Hget) as (c & cd & _ & Hc & Hcw).
    destruct (ok_name σ Hcok c cd name w Hc Hcw) as (Hg & Hi & _).
    unfold reg_flags, registration_of. rewrite Hg, Hi.
    by destruct (info_name (w_info w)).
  - intros w s Hw Hs. destruct (Hact w Hw) as (k & a & Ha & _ & Hfl & _).
    rewrite <- Hfl in Hs. destruct (Hsok _ _ _ Ha Hs) as [Hd Hl].
    split; [done|].
    split; intros ->; rewrite Hhelp in Hl by auto; discriminate.
  - intros w1 w2 s Hw1 Hw2 Hs1 Hs2.
    destruct (Hact w1 Hw1) as (k1 & a1 & Ha1 & _ & Hfl1 & Hk1).
    destruct (Hact w2 Hw2) as (k2 & a2 & Ha2 & _ & Hfl2 & Hk2).
    rewrite <- Hfl1 in Hs1. rewrite <- Hfl2 in Hs2.
    destruct (Hsok _ _ _ Ha1 Hs1) as [_ Hl1].
    destruct (Hsok _ _ _ Ha2 Hs2) as [_ Hl2].
    rewrite Hl1 in Hl2. injection Hl2 as Hk. subst k2.
    rewrite Hk1 in Hk2. injection Hk2 as Hregs.
    apply (NoDup_fmap_inj_on number (collect σ (i_class inst)));
      [by apply collect_numbers_NoDup|done..|].
    by rewrite <- !reg_number_registration_of, Hregs.
Qed.

End Flags.

(** ** Reading after a parse *)

Section Readable.

Context (call_type : hint -> string -> option value).
Context (value_eq : value -> value -> bool).
Context (fmt : formatter).

(** X11. On an instance with its parser in a reachable state: when every
    declaration of the class either gives an explicit [name] or has a
    function name without a leading underscore, and no declaration of the
    class is named [arguments], a successful [parse_args] leaves a value
    in the namespace for every declared property, so no read of a
    declared property fails on the namespace: a const-mode property is
    None when that value is None and otherwise the function called
    without a value, any other property is the function called on that
    value. *)
Theorem X11_declared_properties_readable (σ σ' : world) (self : nat)
    (inst : instance) (p : parser) (parameter : string) :
  reachable call_type value_eq fmt σ ->
  heap σ !! self = Some inst -> i_parser inst = Some p ->
  (∀ w, w ∈ collect σ (i_class inst) ->
        is_Some (info_name (w_info w))
        ∨ plain_name (g_name (w_getter w)) = true) ->
  reads_namespace σ (i_class inst) ->
  method_parse_args call_type value_eq fmt σ self parameter = (σ', Ok ()) ->
  ∃ ns, get_arguments σ' self = Ok ns ∧
    ∀ name w, class_getattr σ (i_class inst) name = Some w ->
      ∃ raw, ns !! name = Some raw ∧
             get_property σ' self name
             = if w_const w
               then match raw with
                    | VNone => (σ', Ok VNone)
                    | _ => (log_call σ' name [], g_body (w_getter w) ns [])
                    end
               else (log_call σ' name [raw], g_body (w_getter w) ns [raw]).
Proof.
  intros Hreach Hself Hp Hplain Hread Hparse.
  pose proof (reachable_classes_ok call_type value_eq fmt σ Hreach) as Hcok.
  pose proof (plain_names_dests_ok σ (i_class inst) Hcok Hplain) as Hdests.
  assert (Hargs : ∃ ns, get_arguments σ' self = Ok ns).
  { unfold method_parse_args in Hparse. rewrite Hself, Hp in Hparse.
    destruct (parse_args _ _ _ _ _) as [ns|]; [|discriminate].
    injection Hparse as <-. exists ns. unfold get_arguments. simpl.
    by rewrite list_lookup_insert_eq by (by eapply lookup_lt_Some). }
  destruct Hargs as [ns Hns]. exists ns. split; [done|].
  intros name w Hget.
  destruct (declared_read call_type value_eq fmt σ self inst p name w
              Hreach Hself Hp Hget Hdests Hread)
    as (i & a & _ & _ & _ & Hgname & Hall).
  specialize (Hall parameter). rewrite Hparse in Hall. simpl in Hall.
  destruct Hall as [(e & _ & ?)|(_ & evs & ns' & raw & _ & Hns' & Hraw & Hprop & _)];
    [discriminate|].
  rewrite Hns in Hns'. injection Hns' as <-.
  exists raw. split; [done|]. rewrite Hprop. unfold wrapper_outcome.
  by rewrite Hgname.
Qed.


End Readable.

(** ** Declarations of a subclass *)

Lemma class_body_keeps (body : list accessor_def) (name : string) :
  ∀ num dict0 dict num',
    class_body num body dict0 = (Ok dict, num') ->
    is_Some (dict0 !! name) ∨ (∃ d, d ∈ body ∧ g_name (acc_getter d) = name) ->
    is_Some (dict !! name).
Proof.
  induction body as [|d body IH]; intros num dict0 dict num'; simpl.
  - intros [= <- <-] [?|(d & []%elem_of_nil & _)]. done.
  - destruct (decorate num d) as [[w|e] n] eqn:Hd; [|discriminate].
    intros Hbody Hor. apply (IH _ _ _ _ Hbody).
    destruct (decide (g_name (acc_getter d) = name)) as [<-|Hne].
    + left. rewrite lookup_insert_eq. by eexists.
    + destruct Hor as [?|(d' & [->|Hin]%elem_of_cons & Hn)].
      * left. by rewrite lookup_insert_ne.
      * done.
      * right. by exists d'.
Qed.

Section Subclass.

Context (call_type : hint -> string -> option value).
Context (value_eq : value -> value -> bool).
Context (fmt : formatter).

(** X13. The declarations a new class answers to: a name its body does
    not define resolves as on the parent (the declaration is inherited);
    a name its body defines resolves to the wrapper of the last
    definition of that name in the body, numbered by the position of that
    definition, whatever the parent declares under the name. *)
Theorem X13_subclass_declarations (σ σ' : world) (parent cls : nat)
    (body : list accessor_def) :
  reachable call_type value_eq fmt σ ->
  define_class σ parent body = (σ', Ok cls) ->
  cls = length (classes σ) ∧
  mro σ' cls = cls :: mro σ parent ∧
  (∀ name, (∀ d, d ∈ body -> g_name (acc_getter d) ≠ name) ->
           class_getattr σ' cls name = class_getattr σ parent name) ∧
  (∀ k d, body !! k = Some d ->
          (∀ k' d', (k < k')%nat -> body !! k' = Some d' ->
                    g_name (acc_getter d') ≠ g_name (acc_getter d)) ->
          ∃ w, class_getattr σ' cls (g_name (acc_getter d)) = Some w ∧
               decorate (num_arguments σ + k) d
               = (Ok w, S (num_arguments σ + k))).
Proof.
  intros Hreach Hdef.
  pose proof (reachable_classes_ok call_type value_eq fmt σ Hreach) as Hcok.
  unfold define_class in Hdef.
  destruct (classes σ !! parent) as [pd|] eqn:Hp; [|discriminate].
  destruct (class_body (num_arguments σ) body ∅) as [[dict|e] num] eqn:Hbody;
    [|discriminate].
  injection Hdef as <- <-.
  destruct (class_body_spec _ _ _ _ _ Hbody) as [-> Hdict].
  set (cls := length (classes σ)).
  set (σ' := {| num_arguments := _; classes := _; heap := _; calls := _ |}).
  assert (Hnew : classes σ' !! cls
                 = Some {| cls_mro := cls :: cls_mro pd; cls_dict := dict;
                           cls_object := None |}).
  { simpl. by rewrite lookup_app_r, Nat.sub_diag. }
  assert (Hmro : mro σ' cls = cls :: mro σ parent).
  { unfold mro. by rewrite Hnew, Hp. }
  assert (Hold : ∀ c, c ∈ cls_mro pd -> classes σ' !! c = classes σ !! c).
  { intros c Hc. simpl. apply lookup_app_l.
    assert (c ∈ mro σ parent) as Hin by (unfold mro; by rewrite Hp).
    pose proof (mro_bound σ parent c Hcok Hin).
    pose proof (lookup_lt_Some _ _ _ Hp). lia. }
  assert (Hget : ∀ name,
            class_getattr σ' cls name
            = match dict !! name with
              | Some w => Some w
              | None => class_getattr σ parent name
              end).
  { intros name. unfold class_getattr. rewrite Hmro. simpl.
    rewrite lookup_app_r, Nat.sub_diag by done. simpl.
    destruct (dict !! name); [done|].
    unfold mro. rewrite Hp. apply first_some_ext.
    intros c Hc. by rewrite <- (Hold c Hc). }
  split; [done|]. split; [done|]. split.
  - intros name Hno. rewrite Hget.
    destruct (dict !! name) as [w|] eqn:Hw; [|done].
    destruct (Hdict name w Hw) as [[H0 _]|(k & d & Hk & Hn & _)].
    + by rewrite lookup_empty in H0.
    + exfalso. apply (Hno d); [by eapply list_elem_of_lookup_2|done].
  - intros k d Hk Hlast.
    destruct (class_body_keeps body (g_name (acc_getter d)) _ _ _ _ Hbody)
      as [w Hw].
    { right. exists d. split; [by eapply list_elem_of_lookup_2|done]. }
    exists w. rewrite Hget, Hw. split; [done|].
    destruct (Hdict _ w Hw) as [[H0 _]|(k0 & d0 & Hk0 & Hn0 & Hdec & Hlast0)].
    { by rewrite lookup_empty in H0. }
    destruct (Nat.lt_total k k0) as [Hlt|[->|Hlt]].
    + by destruct (Hlast k0 d0 Hlt Hk0).
    + rewrite Hk in Hk0. by injection Hk0 as <-.
    + by destruct (Hlast0 k d Hlt Hk).
Qed.

End Subclass.

(** ** Parameters that are always refused *)

Lemma consume_plain_head (p : parser) (rest : list string)
    (pat : list tok_class) (i : nat) (evs : list event) (n : nat) :
  consume_plain p rest pat i = Ok (evs, n) ->
  (n <= count_A pat)%nat ∧ ∃ ev, ev ∈ evs ∧ ev_action ev = i.
Proof.
  unfold consume_plain, get_action.
  destruct (p_actions p !! i) as [a|]; [|discriminate]. simpl.
  destruct (match_argument a pat) as [m|] eqn:Hm; [|discriminate]. simpl.
  intros [= <- <-]. split; [by apply (match_argument_bound a pat m)|].
  eexists. split; [by apply list_elem_of_here|done].
Qed.

Lemma consume_explicit_head (p : parser) (rest : list string)
    (pat : list tok_class) (e : string) :
  ∀ i option_string evs n,
    consume_explicit p rest pat i option_string e = Ok (evs, n) ->
    (n <= count_A pat)%nat ∧ ∃ ev, ev ∈ evs ∧ ev_action ev = i.
Proof.
  induction e as [|c e IH]; intros i os evs n; simpl; unfold get_action;
    destruct (p_actions p !! i) as [a|] eqn:Ha; try discriminate; simpl;
    destruct (match_argument a [TokA]) as [m|] eqn:Hm; try discriminate; simpl.
  - rewrite andb_false_r. destruct (m =? 1)%nat; [|discriminate].
    intros [= <- <-]. split; [lia|].
    eexists. split; [by apply list_elem_of_here|done].
  - destruct ((m =? 0)%nat && negb (long_option os) && nonempty (String c e)).
    + destruct (p_option_string_actions p !! String dash (String c ""))
        as [j|]; [|discriminate].
      destruct (match e with "" => _ | String _ _ => _ end)
        as [[evs' n']|] eqn:Hsub; [|discriminate].
      simpl. intros [= <- <-]. split.
      * destruct e; [by apply consume_plain_head in Hsub as [? _]
                    |by apply IH in Hsub as [? _]].
      * eexists. split; [by apply list_elem_of_here|done].
    + destruct (m =? 1)%nat; [|discriminate].
      intros [= <- <-]. split; [lia|].
      eexists. split; [by apply list_elem_of_here|done].
Qed.

(** When the loop leaves no extras, every string was an argument of an
    option or an option whose action was taken. *)
Lemma scan_no_extras (p : parser) (toks : list string) :
  ∀ pat skip evs,
    (skip <= count_A pat)%nat ->
    scan p toks pat skip = Ok (evs, []) ->
    length pat = length toks ->
    ∀ c, c ∈ pat ->
         c = TokA ∨
         ∃ i os ea, c = TokO (Some i) os ea ∧ ∃ ev, ev ∈ evs ∧ ev_action ev = i.
Proof.
  induction toks as [|t toks IH]; intros pat skip evs Hskip Hscan Hlen c Hc.
  - destruct pat; [by apply elem_of_nil in Hc|discriminate].
  - destruct pat as [|c0 pat]; [discriminate|].
    simpl in Hlen. injection Hlen as Hlen. simpl in Hscan.
    destruct skip as [|k].
    + destruct c0 as [| |[i|] os ea].
      * destruct (scan p toks pat 0) as [[? ?]|]; discriminate.
      * destruct (scan p toks pat 0) as [[? ?]|]; discriminate.
      * destruct (match ea with None => _ | Some e => _ end)
          as [[evs1 n]|] eqn:H1; [|discriminate]. simpl in Hscan.
        destruct (scan p toks pat n) as [[evs2 ex2]|] eqn:H2; [|discriminate].
        simpl in Hscan. injection Hscan as <- ->.
        assert (Hhead : (n <= count_A pat)%nat ∧
                        ∃ ev, ev ∈ evs1 ∧ ev_action ev = i).
        { destruct ea; [by eapply consume_explicit_head
                       |by eapply consume_plain_head]. }
        destruct Hhead as [Hn (ev & Hev & Hi)].
        apply elem_of_cons in Hc as [->|Hc].
        -- right. exists i, os, ea. split; [done|]. exists ev.
           split; [|done]. apply elem_of_app. by left.
        -- destruct (IH pat n evs2 Hn H2 Hlen c Hc)
             as [?|(i' & os' & ea' & -> & ev' & Hev' & Hi')]; [by left|].
           right. exists i', os', ea'. split; [done|]. exists ev'.
           split; [|done]. apply elem_of_app. by right.
      * destruct (scan p toks pat 0) as [[? ?]|]; discriminate.
    + destruct c0; simpl in Hskip; try lia.
      apply elem_of_cons in Hc as [->|Hc]; [by left|].
      apply (IH pat k evs); [lia|done..].
Qed.

Lemma classify_dashdash (p : parser) (toks : list string) :
  ∀ pat, "--" ∈ toks -> classify p toks = Ok pat -> TokDashDash ∈ pat.
Proof.
  induction toks as [|t toks IH]; intros pat Hin; [by apply elem_of_nil in Hin|].
  simpl. destruct (String.eqb_spec t "--") as [->|Hne].
  - intros [= <-]. by apply list_elem_of_here.
  - destruct (parse_optional p t) as [c|]; [|discriminate]. simpl.
    destruct (classify p toks) as [cs|]; [|discriminate]. simpl.
    intros [= <-]. apply elem_of_cons in Hin as [Heq|Hin]; [by destruct Hne|].
    apply elem_of_cons. right. by apply IH.
Qed.

Lemma classify_elem (p : parser) (toks : list string) :
  ∀ pat t, "--" ∉ toks -> t ∈ toks -> classify p toks = Ok pat ->
           ∃ c, c ∈ pat ∧ parse_optional p t = Ok c.
Proof.
  induction toks as [|t0 toks IH]; intros pat t Hno Hin;
    [by apply elem_of_nil in Hin|].
  simpl. destruct (String.eqb_spec t0 "--") as [->|Hne].
  { exfalso. apply Hno. by apply list_elem_of_here. }
  destruct (parse_optional p t0) as [c0|] eqn:Hc0; [|discriminate]. simpl.
  destruct (classify p toks) as [cs|] eqn:Hcs; [|discriminate]. simpl.
  intros [= <-]. apply elem_of_cons in Hin as [->|Hin].
  - exists c0. split; [by apply list_elem_of_here|done].
  - destruct (IH cs t) as (c & Hc & Hp); [|done..|].
    + intros ?. apply Hno. apply elem_of_cons. by right.
    + exists c. split; [|done]. apply elem_of_cons. by right.
Qed.

Section Refused.

Context (call_type : hint -> string -> option value).
Context (value_eq : value -> value -> bool).
Context (fmt : formatter).

Lemma take_actions_no_help (p : parser) (evs : list event) :
  ∀ ns ns', take_actions call_type value_eq fmt p ns evs = Ok ns' ->
    ∀ ev a, ev ∈ evs -> p_actions p !! ev_action ev = Some a ->
            a_kind a ≠ HelpAction.
Proof.
  induction evs as [|ev0 evs IH]; intros ns ns' Ht ev a Hin Ha;
    [by apply elem_of_nil in Hin|].
  simpl in Ht.
  destruct (take_action call_type value_eq fmt p ns ev0) as [ns1|] eqn:H0;
    [|discriminate]. simpl in Ht.
  apply elem_of_cons in Hin as [->|Hin]; [|by eapply IH].
  unfold take_action, get_action in H0. rewrite Ha in H0. simpl in H0.
  destruct (get_values _ _ _ _) as [v|]; [|discriminate]. simpl in H0.
  intros Hk. rewrite Hk in H0. discriminate.
Qed.

Lemma parse_args_accepts (p : parser) (toks : list string) (ns : Namespace) :
  strings_ok p -> p_actions p !! 0%nat = Some help_action ->
  parse_args call_type value_eq fmt p toks = Ok ns ->
  ("--" ∉ toks) ∧ ("-h" ∉ toks) ∧ ("--help" ∉ toks) ∧
  ∀ t rest, toks = t :: rest -> head_is_dash t = true.
Proof.
  intros Hsok Hhelp (evs & ns1 & Hscan & Ht & _)%parse_args_Ok.
  unfold occurrences in Hscan.
  destruct (classify p toks) as [pat|] eqn:Hcl; [|discriminate].
  simpl in Hscan.
  pose proof (classify_length p toks pat Hcl) as Hlen.
  pose proof (scan_no_extras p toks pat 0 evs (Nat.le_0_l _) Hscan Hlen) as Hall.
  assert (Hdd : "--" ∉ toks).
  { intros Hin. pose proof (classify_dashdash p toks pat Hin Hcl) as Hc.
    destruct (Hall _ Hc) as [?|(? & ? & ? & ? & _)]; discriminate. }
  assert (Hh : ∀ s, s = "-h" ∨ s = "--help" -> s ∉ toks).
  { intros s Hs Hin.
    assert (Hl : p_option_string_actions p !! s = Some 0%nat).
    { apply (Hsok 0%nat help_action s Hhelp). simpl.
      destruct Hs as [-> | ->]; set_solver. }
    destruct (classify_elem p toks pat s Hdd Hin Hcl) as (c & Hc & Hp).
    assert (c = TokO (Some 0%nat) s None) as ->.
    { unfold parse_optional in Hp. rewrite Hl in Hp.
      destruct Hs as [-> | ->]; simpl in Hp; by injection Hp as <-. }
    destruct (Hall _ Hc) as [?|(i & os & ea & [= <- _ _] & ev & Hev & Hi)];
      [discriminate|].
    apply (take_actions_no_help p evs _ _ Ht ev help_action Hev);
      [by rewrite Hi|done]. }
  split; [done|]. split; [by apply Hh; left|]. split; [by apply Hh; right|].
  intros t rest -> .
  destruct (head_is_dash t) eqn:Hd; [done|exfalso].
  simpl in Hcl. destruct (String.eqb_spec t "--") as [->|_]; [done|].
  assert (parse_optional p t = Ok TokA) as Hp.
  { unfold parse_optional. destruct (String.eqb t ""); [done|]. by rewrite Hd. }
  rewrite Hp in Hcl. simpl in Hcl.
  destruct (classify p rest) as [cs|]; [|discriminate]. simpl in Hcl.
  injection Hcl as <-. simpl in Hscan.
  destruct (scan p rest cs 0) as [[? ?]|]; discriminate.
Qed.

(** X14. [parse_args] on an instance with its parser, in a reachable
    state, is refused and leaves the state as it was whenever the
    parameter holds the word [--], [-h] or [--help], or starts with a word
    that has no leading dash: the parser has no positional arguments, and
    a help flag ends every parse that gets to it. The exception is what
    [parser.error] raises or what the help action raises: SystemExit when
    the message can be printed, else the exception of the formatting. *)
Theorem X14_refused_parameters (σ : world) (self : nat) (inst : instance)
    (p : parser) (parameter : string) :
  reachable call_type value_eq fmt σ ->
  heap σ !! self = Some inst -> i_parser inst = Some p ->
  "--" ∈ split_ws parameter ∨ "-h" ∈ split_ws parameter
  ∨ "--help" ∈ split_ws parameter
  ∨ (∃ t rest, split_ws parameter = t :: rest ∧ head_is_dash t = false) ->
  ∃ e, refusal fmt p e ∧
       method_parse_args call_type value_eq fmt σ self parameter
       = (σ, Raise e).
Proof.
  intros [Hcok Hiok]%reachable_ok Hself Hp Hbad.
  destruct (Hiok self inst Hself) as [_ Hreg]. specialize (Hreg p Hp).
  assert (Hpok : parser_ok p)
    by (eapply register_all_ok; [apply new_parser_ok|done]).
  assert (Hsok : strings_ok p)
    by (eapply register_all_strings_ok; [apply new_parser_strings_ok|done]).
  assert (Hhelp : p_actions p !! 0%nat = Some help_action).
  { destruct (register_all_made _ _ _ Hreg) as (acts & -> & _). done. }
  destruct (method_parse_args_cases call_type value_eq fmt σ self inst p parameter
              Hself Hp Hpok) as [[Hr _]|(ns & Hparse & _)]; [done|exfalso].
  destruct (parse_args_accepts p _ ns Hsok Hhelp Hparse)
    as (Hdd & Hh & Hhelp' & Hfirst).
  destruct Hbad as [?|[?|[?|(t & rest & Heq & Hd)]]]; try done.
  rewrite (Hfirst t rest Heq) in Hd. discriminate.
Qed.

End Refused.

(** ** Const-mode accessors *)

Section ConstReads.

Context (call_type : hint -> string -> option value).
Context (value_eq : value -> value -> bool).
Context (fmt : formatter).

(** X15. A const-mode accessor without a typed [value], on an instance
    with its parser in a reachable state, in a class whose destinations
    are the getter names and that declares no property named
    [arguments]: after a successful parse in which the flag does not
    occur the property is None and the decorated function is not called
    (the state is untouched); after one in which it occurs, the
    occurrence holds no argument string and the property is the function
    called without a value. *)
Theorem X15_const_accessor (σ : world) (self : nat) (inst : instance)
    (p : parser) (name : string) (w : wrapper) (d : accessor_def)
    (n n' : nat) :
  reachable call_type value_eq fmt σ ->
  heap σ !! self = Some inst -> i_parser inst = Some p ->
  class_getattr σ (i_class inst) name = Some w ->
  decorate n d = (Ok w, n') ->
  const_accessor d ->
  dests_ok σ (i_class inst) = true ->
  reads_namespace σ (i_class inst) ->
  ∃ i a,
    p_actions p !! i = Some a ∧
    a_option_strings a = reg_flags (registration_of w) ∧
    ∀ parameter σ',
      method_parse_args call_type value_eq fmt σ self parameter = (σ', Ok ()) ->
      ∃ evs ns,
        occurrences p (split_ws parameter) = Ok (evs, []) ∧
        get_arguments σ' self = Ok ns ∧
        match last_event i evs with
        | None => get_property σ' self name = (σ', Ok VNone)
        | Some ev =>
            ev_args ev = [] ∧
            get_property σ' self name
            = (log_call σ' name [], g_body (acc_getter d) ns [])
        end.
Proof. apply const_accessor_semantics. Qed.

End ConstReads.

(** ** The theorems at the classes of the tests *)

Ltac on_test_instance k :=
  let r := eval vm_compute in (heap test_instance !! 0%nat) in
  lazymatch r with
  | Some ?inst =>
      lazymatch eval vm_compute in (i_parser inst) with
      | Some ?p => k inst p
      end
  end.

Ltac on_declaration name k :=
  lazymatch eval vm_compute in
            (class_getattr test_instance AdditionalArgument name) with
  | Some ?w => k w
  end.

Ltac by_compute := vm_compute; reflexivity.

Lemma test_module_reachable : reachable demo_call py_eq prints test_module.
Proof.
  unfold reachable, test_module.
  eapply rtc_l; [apply step_define|].
  eapply rtc_l; [apply step_define|].
  apply rtc_refl.
Qed.




(** The module of the tests after [Argument(lazy_parsing=True)]. *)
Lemma base_instance_reachable :
  reachable demo_call py_eq prints
    (fst (construct demo_call py_eq prints test_module Argument no_parser_options true [])).
Proof.
  eapply rtc_r; [apply test_module_reachable|apply step_construct].
Qed.

Lemma X5_inherited_instance_witness :
  snd (construct demo_call py_eq prints
         (fst (construct demo_call py_eq prints test_module Argument
                 no_parser_options true []))
         AdditionalArgument no_parser_options false []) = Ok 0%nat ∧
  isinstance (fst (construct demo_call py_eq prints test_module Argument no_parser_options true []))
    0 AdditionalArgument = false.
Proof.
  set (σ := fst (construct demo_call py_eq prints test_module Argument no_parser_options true [])).
  lazymatch eval vm_compute in (classes σ !! AdditionalArgument) with
  | Some ?cd =>
      destruct (X5_inherited_instance demo_call py_eq prints σ AdditionalArgument 0 cd
                  no_parser_options false [] base_instance_reachable
                  ltac:(by_compute) ltac:(by_compute) ltac:(by_compute))
        as (Hc & Hi & _)
  end.
  split; [by rewrite Hc | exact Hi].
Defined.

Lemma X6_lazy_construct_idempotent_witness :
  construct demo_call py_eq prints test_instance AdditionalArgument no_parser_options true []
  = (test_instance, Ok 0%nat).
Proof.
  apply (X6_lazy_construct_idempotent demo_call py_eq prints test_module test_instance
           AdditionalArgument 0 no_parser_options [] [] test_module_reachable).
  unfold test_instance. apply pair_eta_snd. by_compute.
Defined.

Lemma X7_eager_is_lazy_then_parse_witness :
  snd (construct demo_call py_eq prints test_module AdditionalArgument no_parser_options false
         (split_ws required_only)) = Ok 0%nat.
Proof.
  rewrite (X7_eager_is_lazy_then_parse demo_call py_eq prints test_module test_instance
             AdditionalArgument 0 no_parser_options [] required_only
             test_module_reachable
             ltac:(unfold test_instance; apply pair_eta_snd; by_compute)
             ltac:(by_compute)).
  assert (H : snd (method_parse_args demo_call py_eq prints test_instance 0
                     required_only) = Ok ()) by by_compute.
  destruct (method_parse_args demo_call py_eq prints test_instance 0 required_only)
    as [σ2 [[]|e]]; [reflexivity|discriminate].
Defined.


Lemma X9_split_words_witness :
  split_ws (String.concat " " ["--foo"; "foo"; "-b"; "3"])
  = ["--foo"; "foo"; "-b"; "3"].
Proof.
  apply (proj1 (proj2 (X9_split_words "" ["--foo"; "foo"; "-b"; "3"]))).
  repeat constructor; by_compute || discriminate.
Defined.

Lemma X10_flags_distinct_witness :
  ∃ p i a, (i_parser <$> heap test_instance !! 0%nat) = Some (Some p) ∧
           p_actions p !! S i = Some a ∧
           a_option_strings a = ["--baz"; "-z"; "--az"].
Proof.
  on_test_instance ltac:(fun inst p =>
    on_declaration "baz" ltac:(fun w =>
      destruct (X10_flags_distinct demo_call py_eq prints test_instance 0 inst p
                  test_instance_reachable ltac:(by_compute) ltac:(by_compute))
        as (H & _ & _);
      destruct (H w) as (i & a & Ha & _ & Hflags);
        [apply elem_of_collect; exists "baz"; by_compute|];
      exists p, i, a; split; [by_compute|]; split; [exact Ha|];
      rewrite Hflags; by_compute)).
Defined.

Lemma test_names_plain :
  ∀ w, w ∈ collect test_instance AdditionalArgument ->
       is_Some (info_name (w_info w)) ∨ plain_name (g_name (w_getter w)) = true.
Proof.
  assert (Hall : forallb (fun w => bool_decide (is_Some (info_name (w_info w)))
                                   || plain_name (g_name (w_getter w)))
                   (collect test_instance AdditionalArgument) = true)
    by by_compute.
  rewrite forallb_forall in Hall. intros w Hw%list_elem_of_In.
  apply Hall in Hw. apply orb_true_iff in Hw as [H%bool_decide_eq_true|H];
    [by left|by right].
Qed.

Lemma X11_declared_properties_readable_witness :
  ∃ ns, get_arguments (test_parsed required_only) 0 = Ok ns ∧
        is_Some (ns !! "bar").
Proof.
  on_test_instance ltac:(fun inst p =>
    destruct (X11_declared_properties_readable demo_call py_eq prints test_instance
                (test_parsed required_only) 0 inst p required_only
                test_instance_reachable ltac:(by_compute) ltac:(by_compute)
                test_names_plain ltac:(by_compute)
                ltac:(unfold test_parsed; apply pair_eta_snd; by_compute))
      as (ns & Hns & Hall)).
  exists ns. split; [exact Hns|].
  on_declaration "bar" ltac:(fun w =>
    destruct (Hall "bar" w ltac:(by_compute)) as (raw & Hraw & _)).
  by exists raw.
Defined.


Lemma X13_subclass_declarations_witness :
  mro test_module AdditionalArgument = [AdditionalArgument; Argument; ArgumentParser] ∧
  class_getattr test_module AdditionalArgument "bar"
  = class_getattr (fst (define_class initial_world ArgumentParser Argument_body))
      Argument "bar".
Proof.
  destruct (X13_subclass_declarations demo_call py_eq prints
              (fst (define_class initial_world ArgumentParser Argument_body))
              test_module Argument AdditionalArgument []
              ltac:(eapply rtc_l; [apply step_define|apply rtc_refl])
              ltac:(unfold test_module; apply pair_eta_snd; by_compute))
    as (_ & Hmro & Hinh & _).
  split; [rewrite Hmro; by_compute|].
  apply Hinh. by intros d ?%elem_of_nil.
Defined.

Lemma X14_refused_parameters_witness :
  method_parse_args demo_call py_eq prints test_instance 0
    "--foo foo --nargs 1 2 3 --help"
  = (test_instance, Raise SystemExit).
Proof.
  on_test_instance ltac:(fun inst p =>
    destruct (X14_refused_parameters demo_call py_eq prints test_instance 0
                inst p "--foo foo --nargs 1 2 3 --help"
                test_instance_reachable ltac:(by_compute) ltac:(by_compute))
      as (e & [-> | ->] & H)).
  - right. right. left. vm_compute. set_solver.
  - exact H.
  - exact H.
Defined.

Lemma X15_const_accessor_witness :
  ∃ p i a, (i_parser <$> heap test_instance !! 0%nat) = Some (Some p) ∧
           p_actions p !! i = Some a ∧ a_option_strings a = ["--const"].
Proof.
  on_test_instance ltac:(fun inst p =>
    on_declaration "const" ltac:(fun w =>
      destruct (X15_const_accessor demo_call py_eq prints test_instance 0 inst p
                  "const" w const 4 5
                  test_instance_reachable
                  ltac:(by_compute) ltac:(by_compute) ltac:(by_compute)
                  ltac:(by_compute)
                  ltac:(split; reflexivity)
                  ltac:(by_compute) ltac:(by_compute))
        as (i & a & Ha & Hflags & _);
      exists p, i, a; split; [by_compute|]; split; [exact Ha|];
      rewrite Hflags; by_compute)).
Defined.
